(** * Surgery-support portal: client-side screen logic

    A shallow embedding of the screen logic of the Expo/React-Native
    client: the form validation and error mapping of the sign-in and
    sign-up screens, the patient list filter, the analytics reductions
    and the timeline task badge.

    Conventions.
    - A JavaScript string is a [string]; each [ascii] stands for one
      UTF-16 code unit below 256 (the Latin-1 range).  [String.length]
      is therefore the JavaScript [.length].  Where a text may leave
      that range (the names, emails and queries of the patient filter,
      the result of [toUpperCase]) it is the [list N] of its UTF-16
      code units, and the engine's [toLowerCase] is a variable of which
      each theorem assumes what it states.
    - A JavaScript number is an IEEE-754 binary64 value, [spec_float] at
      precision 53.  Array lengths and counters, which only ever hold
      small naturals, are kept as [nat] and converted where the source
      does floating-point arithmetic on them.
    - A React state setter is an update of the screen-state record; calls
      that leave the component (network, router, console) are recorded
      in a trace of [Event]s. *)

From Stdlib Require Import ZArith QArith Qabs Qpower Lqa Ascii String List.
From Stdlib Require Import Floats.SpecFloat.
From stdpp Require Import base tactics option list gmap strings.

Close Scope Q_scope.

Set Default Proof Using "Type".

(** ** JavaScript string primitives *)

Module JsString.

(** [!s] is true exactly for the empty string. *)
Definition truthy (s : string) : bool :=
  match s with
  | EmptyString => false
  | String _ _ => true
  end.

(** [s.includes(q)]: [q] occurs in [s] as a contiguous run. *)
Fixpoint includes (s q : string) : bool :=
  String.prefix q s ||
  match s with
  | EmptyString => false
  | String _ s' => includes s' q
  end.

(** White space and line terminators ([\s], and what [trim] strips)
    among the code units below 256: TAB, LF, VT, FF, CR, SP, NBSP. *)
Definition isWhiteSpace (c : ascii) : bool :=
  match N_of_ascii c with
  | 9 | 10 | 11 | 12 | 13 | 32 | 160 => true
  | _ => false
  end%N.

Fixpoint trimStart (s : string) : string :=
  match s with
  | EmptyString => EmptyString
  | String c s' => if isWhiteSpace c then trimStart s' else s
  end.

(** [trimEnd] keeps a character when it is not white space or when
    something survives to its right. *)
Fixpoint trimEnd (s : string) : string :=
  match s with
  | EmptyString => EmptyString
  | String c s' =>
      match trimEnd s' with
      | EmptyString => if isWhiteSpace c then EmptyString else String c EmptyString
      | t => String c t
      end
  end.

Definition trim (s : string) : string := trimEnd (trimStart s).

(** [toLowerCase] on one code unit: A-Z, and the Latin-1 capitals
    U+00C0..U+00DE except the multiplication sign U+00D7, move up by 32. *)
Definition lowerUnit (c : ascii) : ascii :=
  let n := N_of_ascii c in
  if ((65 <=? n) && (n <=? 90)
      || (192 <=? n) && (n <=? 222) && negb (n =? 215))%N
  then ascii_of_N (n + 32)
  else c.

(** [toLowerCase] of a Latin-1 text, which is a Latin-1 text again: no
    letter of this range is lowered by its context or to more than one
    unit.  For other texts see [Engine] below. *)
Fixpoint toLowerCase (s : string) : string :=
  match s with
  | EmptyString => EmptyString
  | String c s' => String (lowerUnit c) (toLowerCase s')
  end.

(** What is left of [s] after as many code units as [p] has. *)
Fixpoint dropPrefix (p s : string) : string :=
  match p, s with
  | String _ p', String _ s' => dropPrefix p' s'
  | _, _ => s
  end.

(** [s.replace(p, r)] for a string pattern [p] and a replacement text
    [r] without [$]: the first occurrence of [p], if there is one, is
    replaced by [r]; later occurrences stay. *)
Fixpoint replace (s p r : string) : string :=
  if String.prefix p s then r +:+ dropPrefix p s
  else match s with
       | EmptyString => EmptyString
       | String c s' => String c (replace s' p r)
       end.

(** Upper-casing leaves the Latin-1 range: the micro sign becomes the
    Greek capital mu (U+039C), y with diaeresis becomes U+0178, and the
    sharp s becomes two units, SS.  The result is therefore given as a
    sequence of code-unit values; [widen] gives a Latin-1 text in that
    form. *)
Definition widen (s : string) : list N := N_of_ascii <$> list_ascii_of_string s.

Definition upperUnit (c : ascii) : list N :=
  let n := N_of_ascii c in
  if ((97 <=? n) && (n <=? 122)
      || (224 <=? n) && (n <=? 254) && negb (n =? 247))%N
  then [(n - 32)%N]
  else if (n =? 181)%N then [924%N]
  else if (n =? 223)%N then [83%N; 83%N]
  else if (n =? 255)%N then [376%N]
  else [n].

Fixpoint toUpperCase (s : string) : list N :=
  match s with
  | EmptyString => []
  | String c s' => upperUnit c ++ toUpperCase s'
  end.

End JsString.

(** ** Object literals used as lookup tables

    A property read [table[k]] on an object literal finds the literal's
    own property, or else a member that every object inherits from
    [Object.prototype], or else [undefined]. *)

Module JsObject.

(** The property names of [Object.prototype]. *)
Definition prototypeNames : list string :=
  [ "constructor"; "hasOwnProperty"; "isPrototypeOf"; "propertyIsEnumerable";
    "toLocaleString"; "toString"; "valueOf"; "__proto__";
    "__defineGetter__"; "__defineSetter__";
    "__lookupGetter__"; "__lookupSetter__" ].

(** What a read can produce besides [undefined]: a string of the
    literal, or the inherited member of that name. *)
Inductive value : Type :=
| Str (s : string)
| Member (name : string).

Definition get (table : gmap string string) (k : string) : option value :=
  match table !! k with
  | Some s => Some (Str s)
  | None => if existsb (String.eqb k) prototypeNames then Some (Member k) else None
  end.

(** [v || fallback]: an inherited member is an object and so truthy; a
    string is truthy unless empty. *)
Definition orElse (v : option value) (fallback : string) : value :=
  match v with
  | Some (Str s) => if JsString.truthy s then Str s else Str fallback
  | Some (Member name) => Member name
  | None => Str fallback
  end.

End JsObject.

(** ** Regular expressions, as far as the screens use them

    [test] is [RegExp.prototype.test] for a pattern without anchors,
    groups or flags: some contiguous run of the subject is in the
    language of the pattern.  Matching is by derivatives. *)

Module JsRegExp.

Inductive regex : Type :=
| Never : regex
| Empty : regex
| Class : (ascii → bool) → regex
| Seq : regex → regex → regex
| Alt : regex → regex → regex
| Star : regex → regex.

Definition Plus (r : regex) : regex := Seq r (Star r).
Definition Chr (c : ascii) : regex := Class (Ascii.eqb c).
Definition AnyUnit : regex := Class (λ _, true).

Fixpoint nullable (r : regex) : bool :=
  match r with
  | Never => false
  | Empty => true
  | Class _ => false
  | Seq r1 r2 => nullable r1 && nullable r2
  | Alt r1 r2 => nullable r1 || nullable r2
  | Star _ => true
  end.

Fixpoint deriv (c : ascii) (r : regex) : regex :=
  match r with
  | Never => Never
  | Empty => Never
  | Class p => if p c then Empty else Never
  | Seq r1 r2 =>
      if nullable r1
      then Alt (Seq (deriv c r1) r2) (deriv c r2)
      else Seq (deriv c r1) r2
  | Alt r1 r2 => Alt (deriv c r1) (deriv c r2)
  | Star r1 => Seq (deriv c r1) (Star r1)
  end.

Fixpoint fullMatch (r : regex) (s : string) : bool :=
  match s with
  | EmptyString => nullable r
  | String c s' => fullMatch (deriv c r) s'
  end.

Definition test (r : regex) (s : string) : bool :=
  fullMatch (Seq (Star AnyUnit) (Seq r (Star AnyUnit))) s.

(** [\S]: any code unit that is not white space. *)
Definition NonSpace : regex := Class (λ c, negb (JsString.isWhiteSpace c)).

(** The pattern [/\S+@\S+\.\S+/] of both forms. *)
Definition emailPattern : regex :=
  Seq (Plus NonSpace)
    (Seq (Chr "@")
       (Seq (Plus NonSpace)
          (Seq (Chr ".") (Plus NonSpace)))).

End JsRegExp.

(** ** Screen effects

    A handler runs against the state of its screen and leaves a trace of
    the calls that cross the component boundary. *)

Inductive Event : Type :=
| SignInCall (email password : string)
| SignUpCall (email password full_name role region : string)
| RouterReplace (href : string)
| ConsoleError (label : string).

Definition Eff (S A : Type) : Type := S → A * S * list Event.

Global Instance Eff_ret {S} : MRet (Eff S) :=
  λ A a st, (a, st, []).

Global Instance Eff_bind {S} : MBind (Eff S) :=
  λ A B f m st,
    let '(a, st1, t1) := m st in
    let '(b, st2, t2) := f a st1 in
    (b, st2, t1 ++ t2).

Definition gets {S A} (f : S → A) : Eff S A := λ st, (f st, st, []).
Definition modify {S} (f : S → S) : Eff S unit := λ st, (tt, f st, []).
Definition emit {S} (e : Event) : Eff S unit := λ st, (tt, st, [e]).

Definition finalState {S A} (r : A * S * list Event) : S := r.1.2.
Definition trace {S A} (r : A * S * list Event) : list Event := r.2.

(** What the awaited auth call hands back: the promise resolves to an
    object whose [error] is null or carries an optional [message], or the
    promise rejects and control reaches the [catch] block. *)
Record AuthError : Type := { message : option string }.

Inductive AuthOutcome : Type :=
| Resolved (error : option AuthError)
| Rejected.

(** [error.message?.includes(phrase)], as a condition. *)
Definition messageIncludes (error : AuthError) (phrase : string) : bool :=
  match message error with
  | Some m => JsString.includes m phrase
  | None => false
  end.

(** [error.message || fallback]. *)
Definition messageOr (error : AuthError) (fallback : string) : string :=
  match message error with
  | Some m => if JsString.truthy m then m else fallback
  | None => fallback
  end.

(** ** The sign-in screen *)

Module SignInScreen.

Record State : Type := {
  email : string;
  password : string;
  loading : bool;
  errors : gmap string string;
}.

Definition setLoading (b : bool) : Eff State unit :=
  modify (λ st, {| email := email st; password := password st;
                   loading := b; errors := errors st |}).

Definition setErrors (e : gmap string string) : Eff State unit :=
  modify (λ st, {| email := email st; password := password st;
                   loading := loading st; errors := e |}).

Definition validateForm : Eff State bool :=
  email ← gets email;
  password ← gets password;
  let newErrors : gmap string string := ∅ in
  let newErrors :=
    if negb (JsString.truthy email) then
      <["email" := "Email is required"]> newErrors
    else if negb (JsRegExp.test JsRegExp.emailPattern email) then
      <["email" := "Please enter a valid email"]> newErrors
    else newErrors in
  let newErrors :=
    if negb (JsString.truthy password) then
      <["password" := "Password is required"]> newErrors
    else newErrors in
  setErrors newErrors;;
  mret (bool_decide (size newErrors = 0)).

Section Handler.
(** The [signIn] of the auth hook. *)
Variable signIn : string → string → AuthOutcome.

Definition handleSignIn : Eff State unit :=
  ok ← validateForm;
  if negb ok then mret tt else
  setLoading true;;
  setErrors ∅;;
  email ← gets email;
  password ← gets password;
  emit (SignInCall email password);;
  match signIn email password with
  | Resolved (Some error) =>
      emit (ConsoleError "Sign in error:");;
      if messageIncludes error "Invalid login credentials"
         || messageIncludes error "Invalid email or password" then
        setErrors {[ "general" := "Invalid email or password. Please try again." ]}
      else if messageIncludes error "Email not confirmed" then
        setErrors {[ "general" :=
          "Please check your email and confirm your account before signing in." ]}
      else
        setErrors {[ "general" := messageOr error "Sign in failed. Please try again." ]}
  | Resolved None =>
      emit (RouterReplace "/(tabs)")
  | Rejected =>
      emit (ConsoleError "Sign in exception:");;
      setErrors {[ "general" := "An unexpected error occurred. Please try again." ]}
  end;;
  setLoading false.
End Handler.

Definition initial (e p : string) : State :=
  {| email := e; password := p; loading := false; errors := ∅ |}.

End SignInScreen.

(** ** The sign-up screen *)

Module SignUpScreen.

Record State : Type := {
  email : string;
  password : string;
  confirmPassword : string;
  fullName : string;
  loading : bool;
  errors : gmap string string;
}.

Definition setLoading (b : bool) : Eff State unit :=
  modify (λ st, {| email := email st; password := password st;
                   confirmPassword := confirmPassword st;
                   fullName := fullName st;
                   loading := b; errors := errors st |}).

Definition setErrors (e : gmap string string) : Eff State unit :=
  modify (λ st, {| email := email st; password := password st;
                   confirmPassword := confirmPassword st;
                   fullName := fullName st;
                   loading := loading st; errors := e |}).

Definition validateForm : Eff State bool :=
  fullName ← gets fullName;
  email ← gets email;
  password ← gets password;
  confirmPassword ← gets confirmPassword;
  let newErrors : gmap string string := ∅ in
  let newErrors :=
    if negb (JsString.truthy (JsString.trim fullName)) then
      <["fullName" := "Full name is required"]> newErrors
    else newErrors in
  let newErrors :=
    if negb (JsString.truthy email) then
      <["email" := "Email is required"]> newErrors
    else if negb (JsRegExp.test JsRegExp.emailPattern email) then
      <["email" := "Please enter a valid email"]> newErrors
    else newErrors in
  let newErrors :=
    if negb (JsString.truthy password) then
      <["password" := "Password is required"]> newErrors
    else if String.length password <? 8 then
      <["password" := "Password must be at least 8 characters"]> newErrors
    else newErrors in
  let newErrors :=
    if negb (JsString.truthy confirmPassword) then
      <["confirmPassword" := "Please confirm your password"]> newErrors
    else if negb (String.eqb password confirmPassword) then
      <["confirmPassword" := "Passwords do not match"]> newErrors
    else newErrors in
  setErrors newErrors;;
  mret (bool_decide (size newErrors = 0)).

Section Handler.
(** The [signUp] of the auth hook: email, password and the profile
    fields [full_name], [role], [region]. *)
Variable signUp : string → string → string → string → string → AuthOutcome.

Definition handleSignUp : Eff State unit :=
  ok ← validateForm;
  if negb ok then mret tt else
  setLoading true;;
  setErrors ∅;;
  email ← gets email;
  password ← gets password;
  fullName ← gets fullName;
  emit (SignUpCall email password (JsString.trim fullName) "patient" "AU");;
  match signUp email password (JsString.trim fullName) "patient" "AU" with
  | Resolved (Some error) =>
      emit (ConsoleError "Sign up error:");;
      if messageIncludes error "already registered"
         || messageIncludes error "already exists" then
        setErrors {[ "general" :=
          "An account with this email already exists. Please sign in instead." ]}
      else if messageIncludes error "Password" then
        (* [message] is present here, the phrase was found in it *)
        setErrors (from_option (λ m, {[ "password" := m ]}) ∅ (message error))
      else if messageIncludes error "Email" then
        setErrors (from_option (λ m, {[ "email" := m ]}) ∅ (message error))
      else
        setErrors {[ "general" :=
          messageOr error "Failed to create account. Please try again." ]}
  | Resolved None =>
      emit (RouterReplace "/(auth)/onboarding")
  | Rejected =>
      emit (ConsoleError "Sign up exception:");;
      setErrors {[ "general" := "An unexpected error occurred. Please try again." ]}
  end;;
  setLoading false.
End Handler.

Definition initial (n e p c : string) : State :=
  {| email := e; password := p; confirmPassword := c; fullName := n;
     loading := false; errors := ∅ |}.

End SignUpScreen.

(** ** Rows of the remote tables (the generated schema types) *)

Module Database.

Record Profile : Type := {
  profile_created_at : string;
  profile_email : string;
  profile_full_name : string;
  profile_id : string;
  profile_region : string;
  profile_role : string;
  profile_updated_at : string;
}.

Record SurgeryPlan : Type := {
  plan_clinic_name : string;
  plan_created_at : string;
  plan_id : string;
  plan_patient_id : string;
  plan_procedure_type : string;
  plan_status : string;
  plan_surgery_date : string;
  plan_updated_at : string;
}.

Record RecoveryTask : Type := {
  task_completed : bool;
  task_created_at : string;
  task_description : string;
  task_due_date : string;
  task_id : string;
  task_patient_id : string;
  task_surgery_plan_id : string;
  task_task_type : string;
  task_title : string;
}.

Record Document : Type := {
  doc_created_at : string;
  doc_document_type : string;
  doc_file_name : string;
  doc_file_size : spec_float;
  doc_file_url : string;
  doc_id : string;
  doc_mime_type : string;
  doc_patient_id : string;
  doc_updated_at : string;
  doc_uploaded_by : string;
}.

End Database.

(** ** Dates

    A [Date] object is its time value: the milliseconds since the epoch,
    or [None] for an Invalid Date, whose time value is NaN.  Relational
    comparison of two dates compares the time values as numbers, so any
    comparison with an Invalid Date is false. *)

Module JsDate.

Definition Date : Type := option Z.

Definition lt (a b : Date) : bool :=
  match a, b with
  | Some x, Some y => (x <? y)%Z
  | _, _ => false
  end.

(** [new Date()] at a moment when the clock reads [now]. *)
Definition current (now : Z) : Date := Some now.

End JsDate.

(** ** Answers of the table API

    An awaited query resolves to an object with [data] and [error], of
    which the screens read the rows and whether an error is present, or
    the promise is rejected. *)

Module Supabase.

(** A query for rows; a rejection carries the [message] of the thrown
    value, if it has one. *)
Inductive Answer (A : Type) : Type :=
| Resolves (data : option (list A)) (error : option string)
| Rejects (message : option string).
Arguments Resolves {A} data error.
Arguments Rejects {A} message.

(** A query closed by [.single()]: one row or null. *)
Inductive Single (A : Type) : Type :=
| ResolvesOne (data : option A) (error : option string)
| RejectsOne (message : option string).
Arguments ResolvesOne {A} data error.
Arguments RejectsOne {A} message.

(** The rows, unless [if (error) throw error] or the rejection sends
    control to the [catch] block. *)
Definition rowsOrThrow {A} (answer : Answer A) : option (option (list A)) :=
  match answer with
  | Resolves data None => Some data
  | Resolves _ (Some _) => None
  | Rejects _ => None
  end.

End Supabase.

(** ** The patients screen *)

Module PatientsScreen.
Import Database.

(** [PatientWithPlan]: a profile with its optional embedded plans. *)
Record PatientWithPlan : Type := {
  profile : Profile;
  surgery_plans : option (list SurgeryPlan);
}.

Definition full_name (p : PatientWithPlan) : string := profile_full_name (profile p).
Definition email (p : PatientWithPlan) : string := profile_email (profile p).
Definition region (p : PatientWithPlan) : string := profile_region (profile p).

Record State : Type := {
  patients : list PatientWithPlan;
  filteredPatients : list PatientWithPlan;
  searchQuery : string;
  selectedRegion : string;
}.

Definition setFilteredPatients (l : list PatientWithPlan) : Eff State unit :=
  modify (λ st, {| patients := patients st; filteredPatients := l;
                   searchQuery := searchQuery st;
                   selectedRegion := selectedRegion st |}).

Definition filterPatients : Eff State unit :=
  patients ← gets patients;
  searchQuery ← gets searchQuery;
  selectedRegion ← gets selectedRegion;
  let filtered := patients in
  let filtered :=
    if JsString.truthy searchQuery then
      List.filter (λ patient,
        JsString.includes (JsString.toLowerCase (full_name patient))
                          (JsString.toLowerCase searchQuery)
        || JsString.includes (JsString.toLowerCase (email patient))
                             (JsString.toLowerCase searchQuery))
        filtered
    else filtered in
  let filtered :=
    if negb (String.eqb selectedRegion "all") then
      List.filter (λ patient, String.eqb (region patient) selectedRegion) filtered
    else filtered in
  setFilteredPatients filtered.

(** The badge of a patient card. *)
Record PatientStatus : Type := {
  status : list N;
  color : JsObject.value;
}.

Definition getPatientStatus (patient : PatientWithPlan) : PatientStatus :=
  match surgery_plans patient with
  | None | Some [] =>
      {| status := JsString.widen "No Plan"; color := JsObject.Str "#9ca3af" |}
  | Some (latestPlan :: _) =>
      let statusColors : gmap string string :=
        {[ "planning" := "#f59e0b"; "pre_op" := "#fef2f2"; "surgery" := "#dc2626";
           "post_op" := "#059669"; "completed" := "#6b7280" ]} in
      {| status :=
           JsString.toUpperCase (JsString.replace (plan_status latestPlan) "_" "-");
         color :=
           JsObject.orElse (JsObject.get statusColors (plan_status latestPlan))
                           "#9ca3af" |}
  end.

Definition getRegionName (region : string) : JsObject.value :=
  let regions : gmap string string :=
    {[ "AU" := "Australia"; "NZ" := "New Zealand"; "TH" := "Thailand" ]} in
  JsObject.orElse (JsObject.get regions region) region.

(** The counter of the stats row,
    [filteredPatients.filter(p => p.surgery_plans?.length).length]. *)
Definition withPlans (filteredPatients : list PatientWithPlan) : nat :=
  length (List.filter
            (λ p, match surgery_plans p with
                  | Some plans => negb (length plans =? 0)
                  | None => false
                  end) filteredPatients).

(** The body of the list: one card per filtered patient, or the empty
    state with its description. *)
Inductive Listing : Type :=
| Cards (cards : list (PatientWithPlan * PatientStatus))
| EmptyState (emptyTitle emptyDescription : string).

Definition patientsList (st : State) : Listing :=
  if 0 <? length (filteredPatients st) then
    Cards ((λ patient, (patient, getPatientStatus patient)) <$> filteredPatients st)
  else
    EmptyState "No patients found"
      (if JsString.truthy (searchQuery st)
          || negb (String.eqb (selectedRegion st) "all")
       then "Try adjusting your search or filters"
       else "Patients will appear here once they register").

(** The whole state of the screen: the lists and filters above and the
    two flags. *)
Record Screen : Type := {
  lists : State;
  loading : bool;
  refreshing : bool;
}.

Definition setPatients (l : list PatientWithPlan) : Eff Screen unit :=
  modify (λ sc,
    {| lists := {| patients := l;
                   filteredPatients := filteredPatients (lists sc);
                   searchQuery := searchQuery (lists sc);
                   selectedRegion := selectedRegion (lists sc) |};
       loading := loading sc; refreshing := refreshing sc |}).

Definition setLoading (b : bool) : Eff Screen unit :=
  modify (λ sc, {| lists := lists sc; loading := b; refreshing := refreshing sc |}).

Definition setRefreshing (b : bool) : Eff Screen unit :=
  modify (λ sc, {| lists := lists sc; loading := loading sc; refreshing := b |}).

(** The effect on [patients], [searchQuery] and [selectedRegion]: it
    runs [filterPatients] on the lists once one of them has been set. *)
Definition filterEffect : Eff Screen unit :=
  λ sc, let '(u, l, t) := filterPatients (lists sc) in
        (u, {| lists := l; loading := loading sc; refreshing := refreshing sc |}, t).

Section Loading.
Variable answer : Supabase.Answer PatientWithPlan.

(** [loadPatients], followed by the effect when [setPatients] was
    reached. *)
Definition loadPatients : Eff Screen unit :=
  match Supabase.rowsOrThrow answer with
  | Some data =>
      setPatients (default [] data);;
      setLoading false;;
      filterEffect
  | None =>
      emit (ConsoleError "Error loading patients:");;
      setLoading false
  end.

Definition onRefresh : Eff Screen unit :=
  setRefreshing true;;
  loadPatients;;
  setRefreshing false.
End Loading.

End PatientsScreen.

(** ** The patient filter on arbitrary text

    A name, an email or a query can hold any text.  Here a string is the
    sequence of its UTF-16 code units, and [toLowerCase] is the engine's
    [String.prototype.toLowerCase]: beyond Latin-1 it depends on the
    context of a letter and can change the length of a text, so it is not
    given by a table of code units. *)

Module JsText.

(** [q] is an initial run of [s]. *)
Fixpoint prefix (q s : list N) : bool :=
  match q, s with
  | [], _ => true
  | u :: q', v :: s' => (u =? v)%N && prefix q' s'
  | _ :: _, [] => false
  end.

(** [s.includes(q)]. *)
Fixpoint includes (s q : list N) : bool :=
  prefix q s ||
  match s with
  | [] => false
  | _ :: s' => includes s' q
  end.

(** [!s] is true exactly for the empty string. *)
Definition truthy (s : list N) : bool :=
  match s with
  | [] => false
  | _ :: _ => true
  end.

(** [s === t]. *)
Definition eqb (s t : list N) : bool := bool_decide (s = t).

End JsText.

(** What ECMA-262 fixes of the engine's [toLowerCase], as far as the
    properties of the filter use it. *)

Module Engine.

(** On Latin-1 text the result is Latin-1 text again, the one that
    [JsString.toLowerCase] gives. *)
Definition lowersLatin1 (toLowerCase : list N → list N) : Prop :=
  ∀ s : string,
    toLowerCase (JsString.widen s) = JsString.widen (JsString.toLowerCase s).


End Engine.

Module PatientsScreenUtf16.

(** A row of [profiles]; every column the screen reads is text. *)
Record Profile : Type := {
  profile_created_at : list N;
  profile_email : list N;
  profile_full_name : list N;
  profile_id : list N;
  profile_region : list N;
  profile_role : list N;
  profile_updated_at : list N;
}.

(** [PatientWithPlan]; the filter does not read the plans. *)
Record PatientWithPlan : Type := {
  profile : Profile;
  surgery_plans : option (list Database.SurgeryPlan);
}.

Definition full_name (p : PatientWithPlan) : list N := profile_full_name (profile p).
Definition email (p : PatientWithPlan) : list N := profile_email (profile p).
Definition region (p : PatientWithPlan) : list N := profile_region (profile p).

Record State : Type := {
  patients : list PatientWithPlan;
  filteredPatients : list PatientWithPlan;
  searchQuery : list N;
  selectedRegion : list N;
}.

Definition setFilteredPatients (l : list PatientWithPlan) : Eff State unit :=
  modify (λ st, {| patients := patients st; filteredPatients := l;
                   searchQuery := searchQuery st;
                   selectedRegion := selectedRegion st |}).

Section Filter.
Variable toLowerCase : list N → list N.

Definition filterPatients : Eff State unit :=
  patients ← gets patients;
  searchQuery ← gets searchQuery;
  selectedRegion ← gets selectedRegion;
  let filtered := patients in
  let filtered :=
    if JsText.truthy searchQuery then
      List.filter (λ patient,
        JsText.includes (toLowerCase (full_name patient)) (toLowerCase searchQuery)
        || JsText.includes (toLowerCase (email patient)) (toLowerCase searchQuery))
        filtered
    else filtered in
  let filtered :=
    if negb (JsText.eqb selectedRegion (JsString.widen "all")) then
      List.filter (λ patient, JsText.eqb (region patient) selectedRegion) filtered
    else filtered in
  setFilteredPatients filtered.
End Filter.

End PatientsScreenUtf16.

(** ** Numbers *)

Module JsNumber.

Definition prec : Z := 53.
Definition emax : Z := 1024.

Definition number : Type := spec_float.

Definition ofZ (z : Z) : number := binary_normalize prec emax z 0 false.
Definition ofNat (n : nat) : number := ofZ (Z.of_nat n).

Global Instance number_eq_dec : EqDecision number.
Proof. solve_decision. Defined.

Definition div (x y : number) : number := SFdiv prec emax x y.
Definition mul (x y : number) : number := SFmul prec emax x y.

(** [Math.round]: the integer closest to [x], ties going towards
    +infinity; NaN, the infinities and the zeros come back unchanged,
    and a result of zero keeps the sign of [x]. *)
Definition Math_round (x : number) : number :=
  match x with
  | S754_finite s m e =>
      let v := if s then Z.neg m else Z.pos m in
      let n := if (0 <=? e)%Z then (v * 2 ^ e)%Z
               else ((2 * v + 2 ^ (- e)) / 2 ^ (1 - e))%Z in
      if (n =? 0)%Z then S754_zero s else ofZ n
  | _ => x
  end.

End JsNumber.

(** ** The analytics screen *)

Module AnalyticsScreen.
Import Database.

(** One entry of a grouped count.  The source has three object shapes,
    [{status, count}], [{region, count}] and [{month, count}], which
    differ in the name of the first field only. *)
Record Count : Type := { key : string; count : nat }.

Record AnalyticsData : Type := {
  totalPatients : nat;
  activePlans : nat;
  completedTasks : nat;
  overdueTasks : nat;
  patientsByRegion : list Count;
  plansByStatus : list Count;
  taskCompletionRate : JsNumber.number;
  monthlyRegistrations : list Count;
}.

Definition initialAnalytics : AnalyticsData :=
  {| totalPatients := 0; activePlans := 0; completedTasks := 0;
     overdueTasks := 0; patientsByRegion := []; plansByStatus := [];
     taskCompletionRate := S754_zero false; monthlyRegistrations := [] |}.

(** The body shared by the three [reduce] callbacks: look for the first
    entry with the row's key; bump its counter in place, or push a
    fresh entry with count 1. *)
Definition countInto (acc : list Count) (k : string) : list Count :=
  match list_find (λ item, key item = k) acc with
  | Some (i, existing) =>
      <[ i := {| key := key existing; count := S (count existing) |} ]> acc
  | None => acc ++ [ {| key := k; count := 1 |} ]
  end.

Definition groupCount {A} (keyOf : A → string) (rows : list A) : list Count :=
  fold_left (λ acc row, countInto acc (keyOf row)) rows [].

Definition loadPatientStats (count : option nat) (prev : AnalyticsData)
  : AnalyticsData :=
  {| totalPatients := default 0 count;
     activePlans := activePlans prev;
     completedTasks := completedTasks prev;
     overdueTasks := overdueTasks prev;
     patientsByRegion := patientsByRegion prev;
     plansByStatus := plansByStatus prev;
     taskCompletionRate := taskCompletionRate prev;
     monthlyRegistrations := monthlyRegistrations prev |}.

Definition loadPlanStats (data : option (list SurgeryPlan)) (prev : AnalyticsData)
  : AnalyticsData :=
  match data with
  | Some plans =>
      let activePlans :=
        length (List.filter
          (λ p, existsb (String.eqb (plan_status p))
                  ["planning"; "pre_op"; "surgery"; "post_op"]) plans) in
      let plansByStatus := groupCount plan_status plans in
      {| totalPatients := totalPatients prev;
         activePlans := activePlans;
         completedTasks := completedTasks prev;
         overdueTasks := overdueTasks prev;
         patientsByRegion := patientsByRegion prev;
         plansByStatus := plansByStatus;
         taskCompletionRate := taskCompletionRate prev;
         monthlyRegistrations := monthlyRegistrations prev |}
  | None => prev
  end.

Definition loadRegionStats (data : option (list Profile)) (prev : AnalyticsData)
  : AnalyticsData :=
  match data with
  | Some profiles =>
      let patientsByRegion := groupCount profile_region profiles in
      {| totalPatients := totalPatients prev;
         activePlans := activePlans prev;
         completedTasks := completedTasks prev;
         overdueTasks := overdueTasks prev;
         patientsByRegion := patientsByRegion;
         plansByStatus := plansByStatus prev;
         taskCompletionRate := taskCompletionRate prev;
         monthlyRegistrations := monthlyRegistrations prev |}
  | None => prev
  end.

Section Clock.
(** [new Date(s)] for a column value, the clock reading taken by
    [new Date()], and the [en-US] rendering of a date with a numeric
    year and a short month. *)
Variable parseDate : string → JsDate.Date.
Variable now : Z.
Variable toLocaleMonth : JsDate.Date → string.

Definition loadTaskStats (data : option (list RecoveryTask)) (prev : AnalyticsData)
  : AnalyticsData :=
  match data with
  | Some tasks =>
      let completedTasks := length (List.filter (λ t, task_completed t) tasks) in
      let now := JsDate.current now in
      let overdueTasks :=
        length (List.filter
          (λ t, negb (task_completed t)
                && JsDate.lt (parseDate (task_due_date t)) now) tasks) in
      let taskCompletionRate :=
        if 0 <? length tasks then
          JsNumber.Math_round
            (JsNumber.mul
               (JsNumber.div (JsNumber.ofNat completedTasks)
                             (JsNumber.ofNat (length tasks)))
               (JsNumber.ofNat 100))
        else JsNumber.ofNat 0 in
      {| totalPatients := totalPatients prev;
         activePlans := activePlans prev;
         completedTasks := completedTasks;
         overdueTasks := overdueTasks;
         patientsByRegion := patientsByRegion prev;
         plansByStatus := plansByStatus prev;
         taskCompletionRate := taskCompletionRate;
         monthlyRegistrations := monthlyRegistrations prev |}
  | None => prev
  end.

Definition loadMonthlyStats (data : option (list Profile)) (prev : AnalyticsData)
  : AnalyticsData :=
  match data with
  | Some profiles =>
      let monthlyRegistrations :=
        groupCount (λ profile, toLocaleMonth (parseDate (profile_created_at profile)))
                   profiles in
      {| totalPatients := totalPatients prev;
         activePlans := activePlans prev;
         completedTasks := completedTasks prev;
         overdueTasks := overdueTasks prev;
         patientsByRegion := patientsByRegion prev;
         plansByStatus := plansByStatus prev;
         taskCompletionRate := taskCompletionRate prev;
         monthlyRegistrations := monthlyRegistrations |}
  | None => prev
  end.
End Clock.

(** [loadAnalytics] starts the five loaders together.  Each loader that
    gets its answer hands one functional update to [setAnalytics]; a
    loader whose query throws logs the error and hands over nothing.
    The updates are applied in the order in which the answers arrive. *)
Inductive Arrival : Type :=
| PatientStats (count : option nat)
| PlanStats (data : option (list SurgeryPlan))
| TaskStats (now : Z) (data : option (list RecoveryTask))
| RegionStats (data : option (list Profile))
| MonthlyStats (data : option (list Profile)).

Inductive Loader : Type :=
| PatientLoader | PlanLoader | TaskLoader | RegionLoader | MonthlyLoader.

Definition loaderOf (a : Arrival) : Loader :=
  match a with
  | PatientStats _ => PatientLoader
  | PlanStats _ => PlanLoader
  | TaskStats _ _ => TaskLoader
  | RegionStats _ => RegionLoader
  | MonthlyStats _ => MonthlyLoader
  end.

Section Load.
Variable parseDate : string → JsDate.Date.
Variable toLocaleMonth : JsDate.Date → string.

Definition settle (prev : AnalyticsData) (a : Arrival) : AnalyticsData :=
  match a with
  | PatientStats count => loadPatientStats count prev
  | PlanStats data => loadPlanStats data prev
  | TaskStats now data => loadTaskStats parseDate now data prev
  | RegionStats data => loadRegionStats data prev
  | MonthlyStats data => loadMonthlyStats parseDate toLocaleMonth data prev
  end.

Definition loadAnalytics (arrivals : list Arrival) (prev : AnalyticsData)
  : AnalyticsData :=
  fold_left settle arrivals prev.
End Load.

Definition getRegionName (region : string) : JsObject.value :=
  let regions : gmap string string :=
    {[ "AU" := "Australia"; "NZ" := "New Zealand"; "TH" := "Thailand" ]} in
  JsObject.orElse (JsObject.get regions region) region.

Definition getStatusColor (status : string) : JsObject.value :=
  let colors : gmap string string :=
    {[ "planning" := "#f59e0b"; "pre_op" := "#fef2f2"; "surgery" := "#dc2626";
       "post_op" := "#059669"; "completed" := "#6b7280" ]} in
  JsObject.orElse (JsObject.get colors status) "#9ca3af".

End AnalyticsScreen.

(** ** The timeline screen *)

Module TimelineScreen.
Import Database.

(** An icon element: component, size and colour. *)
Record Icon : Type := { icon : string; size : nat; color : string }.

(** A badge element: the style of the box, the style of the text and
    the text itself. *)
Record Badge : Type := { boxStyle : string; textStyle : string; text : string }.

Record TimelineItem : Type := {
  itemKey : string;
  statusIcon : Icon;
  connector : option bool;
  timelineDate : string;
  timelineTitle : string;
  timelineDescription : string;
  badge : Badge;
}.

Section Render.
Variable parseDate : string → JsDate.Date.
Variable formatDate : string → string.

Definition getTaskStatusIcon (now : Z) (completed : bool) (dueDate : string) : Icon :=
  if completed then
    {| icon := "CheckCircle"; size := 20; color := "#059669" |}
  else
    let now := JsDate.current now in
    let due := parseDate dueDate in
    if JsDate.lt due now then
      {| icon := "AlertCircle"; size := 20; color := "#dc2626" |}
    else
      {| icon := "Circle"; size := 20; color := "#6b7280" |}.

Definition taskBadge (now : Z) (task : RecoveryTask) : Badge :=
  if task_completed task then
    {| boxStyle := "completedBadge"; textStyle := "completedText";
       text := "Completed" |}
  else if JsDate.lt (parseDate (task_due_date task)) (JsDate.current now) then
    {| boxStyle := "overdueBadge"; textStyle := "overdueText";
       text := "Overdue" |}
  else
    {| boxStyle := "pendingBadge"; textStyle := "pendingText";
       text := "Pending" |}.

(** One entry of [recoveryTasks.map((task, index) => ...)].  The icon
    and the badge each take their own reading of the clock. *)
Definition timelineItem (total : nat) (nowIcon nowBadge : Z)
    (index : nat) (task : RecoveryTask) : TimelineItem :=
  {| itemKey := task_id task;
     statusIcon := getTaskStatusIcon nowIcon (task_completed task) (task_due_date task);
     connector := if index <? total - 1 then Some (task_completed task) else None;
     timelineDate := formatDate (task_due_date task);
     timelineTitle := task_title task;
     timelineDescription := task_description task;
     badge := taskBadge nowBadge task |}.

(** The rendered list; [clock i] holds the two readings taken while
    entry [i] is built. *)
Definition timelineItems (clock : nat → Z * Z) (recoveryTasks : list RecoveryTask)
  : list TimelineItem :=
  imap (λ index task,
          timelineItem (length recoveryTasks) (clock index).1 (clock index).2
                       index task)
       recoveryTasks.
End Render.

Definition getStatusColor (status : string) : JsObject.value :=
  let statusColors : gmap string string :=
    {[ "planning" := "#f59e0b"; "pre_op" := "#3b82f6"; "surgery" := "#dc2626";
       "post_op" := "#059669"; "completed" := "#6b7280" ]} in
  JsObject.orElse (JsObject.get statusColors status) "#9ca3af".

Definition getPhaseLabel (status : string) : JsObject.value :=
  let labels : gmap string string :=
    {[ "planning" := "Planning Phase"; "pre_op" := "Pre-Operation";
       "surgery" := "Surgery Day"; "post_op" := "Post-Operation";
       "completed" := "Completed" ]} in
  JsObject.orElse (JsObject.get labels status) "Unknown Phase".

(** The state of the screen. *)
Record State : Type := {
  loading : bool;
  refreshing : bool;
  surgeryPlan : option SurgeryPlan;
  recoveryTasks : list RecoveryTask;
  documents : list Document;
  error : option string;
}.

Definition initialState : State :=
  {| loading := true; refreshing := false; surgeryPlan := None;
     recoveryTasks := []; documents := []; error := None |}.

Definition setLoading (b : bool) (st : State) : State :=
  {| loading := b; refreshing := refreshing st; surgeryPlan := surgeryPlan st;
     recoveryTasks := recoveryTasks st; documents := documents st;
     error := error st |}.

Definition setRefreshing (b : bool) (st : State) : State :=
  {| loading := loading st; refreshing := b; surgeryPlan := surgeryPlan st;
     recoveryTasks := recoveryTasks st; documents := documents st;
     error := error st |}.

Definition setSurgeryPlan (p : option SurgeryPlan) (st : State) : State :=
  {| loading := loading st; refreshing := refreshing st; surgeryPlan := p;
     recoveryTasks := recoveryTasks st; documents := documents st;
     error := error st |}.

Definition setRecoveryTasks (l : list RecoveryTask) (st : State) : State :=
  {| loading := loading st; refreshing := refreshing st;
     surgeryPlan := surgeryPlan st; recoveryTasks := l;
     documents := documents st; error := error st |}.

Definition setDocuments (l : list Document) (st : State) : State :=
  {| loading := loading st; refreshing := refreshing st;
     surgeryPlan := surgeryPlan st; recoveryTasks := recoveryTasks st;
     documents := l; error := error st |}.

Definition setError (e : option string) (st : State) : State :=
  {| loading := loading st; refreshing := refreshing st;
     surgeryPlan := surgeryPlan st; recoveryTasks := recoveryTasks st;
     documents := documents st; error := e |}.

Section Loading.
(** The signed-in user, and the answers to the three queries; the tasks
    query is made for the id of the plan found. *)
Variable user : option string.
Variable plansAnswer : Supabase.Answer SurgeryPlan.
Variable tasksAnswer : string → Supabase.Answer RecoveryTask.
Variable documentsAnswer : Supabase.Answer Document.

(** A loader returns the state it leaves and whether it threw; the lines
    it writes with [console.error] are not part of the state. *)
Definition loadRecoveryTasks (surgeryPlanId : string) (st : State) : State * bool :=
  match Supabase.rowsOrThrow (tasksAnswer surgeryPlanId) with
  | Some data => (setRecoveryTasks (default [] data) st, false)
  | None => (st, true)
  end.

Definition loadSurgeryPlan (st : State) : State * bool :=
  match user with
  | None => (st, false)
  | Some _ =>
      match Supabase.rowsOrThrow plansAnswer with
      | Some (Some (plan :: _)) =>
          loadRecoveryTasks (plan_id plan) (setSurgeryPlan (Some plan) st)
      | Some _ => (st, false)
      | None => (st, true)
      end
  end.

Definition loadDocuments (st : State) : State * bool :=
  match user with
  | None => (st, false)
  | Some _ =>
      match Supabase.rowsOrThrow documentsAnswer with
      | Some data => (setDocuments (default [] data) st, false)
      | None => (st, true)
      end
  end.

(** [loadData] runs the two loaders together; they write different
    parts of the state, so the state they leave does not depend on how
    their steps interleave.  The first of them to throw rejects the
    [Promise.all] and sends control to the [catch] block, while the other
    runs on; the state returned is the one left when both have
    settled. *)
Definition loadData (st : State) : State :=
  let st := setError None st in
  let '(st, threw1) := loadSurgeryPlan st in
  let '(st, threw2) := loadDocuments st in
  let st :=
    if threw1 || threw2 then
      setError (Some "Failed to load your timeline data. Please try again later.") st
    else st in
  setLoading false st.

Definition onRefresh (st : State) : State :=
  setRefreshing false (loadData (setRefreshing true st)).
End Loading.

(** What the screen shows: the spinner, or the cards of the scroll view
    below the header. *)
Inductive Card : Type :=
| ErrorCard (message : string)
| EmptyStateCard
| SurgeryPlanCard (plan : SurgeryPlan)
| TimelineCard (tasks : list RecoveryTask)
| DocumentsCard (docs : list Document)
| SupportCard.

Inductive Screen : Type :=
| LoadingSpinner
| ScrollView (cards : list Card).

Definition hasError (st : State) : bool :=
  from_option JsString.truthy false (error st).

Definition render (st : State) : Screen :=
  if loading st then LoadingSpinner else
  ScrollView
    ((if hasError st then [ErrorCard (default "" (error st))] else [])
     ++ (if negb (bool_decide (is_Some (surgeryPlan st))) && negb (hasError st)
         then [EmptyStateCard] else [])
     ++ match surgeryPlan st with
        | Some plan => [SurgeryPlanCard plan; TimelineCard (recoveryTasks st)]
        | None => []
        end
     ++ [DocumentsCard (documents st); SupportCard]).

End TimelineScreen.

(** ** The auth and row-level-security test screen *)

Module TestAuthScreen.
Import Database.

Inductive Status : Type := pass | fail | pending.

(** A test result; [details] is optional and the tests below never set
    it. *)
Record TestResult : Type := {
  test : string;
  status : Status;
  message : string;
  details : option string;
}.

Definition result (t : string) (s : Status) (m : string) : TestResult :=
  {| test := t; status := s; message := m; details := None |}.

(** [addTestResult]: the new result goes to the end of the list. *)
Definition addTestResult (r : TestResult) (prev : list TestResult)
  : list TestResult :=
  prev ++ [r].

Section PatientRLS.
(** The id of the signed-in user, the role of the loaded profile, and
    the answers to the four queries of the test. *)
Variable user : option string.
Variable role : option string.
Variable ownProfileAnswer : Supabase.Single Profile.
Variable allProfilesAnswer : Supabase.Answer Profile.
Variable documentsAnswer : Supabase.Answer Document.
Variable surgeryPlansAnswer : Supabase.Answer SurgeryPlan.

(** [profile?.role === 'patient']. *)
Definition isPatient : bool := bool_decide (role = Some "patient").

(** The [catch] block. *)
Definition caught (m : option string) (results : list TestResult)
  : list TestResult :=
  addTestResult
    (result "Patient RLS" fail ("RLS test failed: " +:+ default "undefined" m))
    results.

(** The plans check, last in the [try] block. *)
Definition plansCheck (id : string) (results : list TestResult)
  : list TestResult :=
  match surgeryPlansAnswer with
  | Supabase.Rejects m => caught m results
  | Supabase.Resolves surgeryPlans _ =>
      if isPatient then
        let otherPlans :=
          List.filter (λ plan, negb (String.eqb (plan_patient_id plan) id))
                      (default [] surgeryPlans) in
        if 0 <? length otherPlans then
          addTestResult
            (result "Surgery Plans RLS" fail
                    "Patient can see other patients' surgery plans!") results
        else
          addTestResult
            (result "Surgery Plans RLS" pass
                    "Patient can only see own surgery plans") results
      else results
  end.

(** The documents check and what follows it. *)
Definition documentsCheck (id : string) (results : list TestResult)
  : list TestResult :=
  match documentsAnswer with
  | Supabase.Rejects m => caught m results
  | Supabase.Resolves documents _ =>
      plansCheck id
        (if isPatient then
           let otherDocs :=
             List.filter (λ doc, negb (String.eqb (doc_patient_id doc) id))
                         (default [] documents) in
           if 0 <? length otherDocs then
             addTestResult
               (result "Documents RLS" fail
                       "Patient can see other patients' documents!") results
           else
             addTestResult
               (result "Documents RLS" pass
                       "Patient can only see own documents") results
         else results)
  end.

(** The check of the other profiles, made for a patient only, and what
    follows it. *)
Definition profilesCheck (id : string) (results : list TestResult)
  : list TestResult :=
  if isPatient then
    match allProfilesAnswer with
    | Supabase.Rejects m => caught m results
    | Supabase.Resolves allProfiles _ =>
        documentsCheck id
          (match allProfiles with
           | Some rows =>
               if 1 <? length rows then
                 addTestResult
                   (result "Read Other Profiles" fail
                           "Patient can read other profiles (RLS violation!)") results
               else if length rows =? 1 then
                 addTestResult
                   (result "Read Other Profiles" pass
                           "Patient can only see own profile") results
               else results
           | None => results
           end)
    end
  else documentsCheck id results.

Definition testPatientRLS (prev : list TestResult) : list TestResult :=
  match user with
  | None => addTestResult (result "Patient RLS" fail "No user logged in") prev
  | Some id =>
      let results :=
        addTestResult
          (result "Patient RLS" pending "Testing patient data access...") prev in
      match ownProfileAnswer with
      | Supabase.RejectsOne m => caught m results
      | Supabase.ResolvesOne ownProfile profileError =>
          profilesCheck id
            (if bool_decide (is_Some profileError)
                || negb (bool_decide (is_Some ownProfile))
             then addTestResult
                    (result "Read Own Profile" fail "Cannot read own profile") results
             else addTestResult
                    (result "Read Own Profile" pass "Can read own profile") results)
      end
  end.
End PatientRLS.

End TestAuthScreen.


(** ** Notions of the specification

    The definitions of this module follow the wording of the
    specification, not the code; the theorems below compare the two. *)

Module Spec.

(** [q] occurs in [s]: [s] is some text, then [q], then some text. *)
Definition occursIn (q s : string) : Prop :=
  ∃ a b, s = a +:+ q +:+ b.

(** [s] contains [q] as a case-insensitive substring: a contiguous run of
    [s] equals [q] once both are put in lower case. *)
Definition containsIgnoringCase (s q : string) : Prop :=
  ∃ a m b, s = a +:+ m +:+ b ∧ JsString.toLowerCase m = JsString.toLowerCase q.


(** round(completed / total × 100) over the rationals: the integer
    nearest to the percentage, a half going up. *)
Definition roundedPercentage (completed total : nat) : Z :=
  ((200 * Z.of_nat completed + Z.of_nat total) / (2 * Z.of_nat total))%Z.

(** The exact percentage lies midway between two integers. *)
Definition halfwayPercentage (completed total : nat) : Prop :=
  ((200 * Z.of_nat completed) mod (2 * Z.of_nat total) = Z.of_nat total)%Z.

(** The grouped counts record [n] for key [k]. *)
Definition records (k : string) (n : nat) (counts : list AnalyticsScreen.Count)
  : Prop :=
  {| AnalyticsScreen.key := k; AnalyticsScreen.count := n |} ∈ counts.

(** The number of rows that carry key [k]. *)
Definition carrying {A} (keyOf : A → string) (k : string) (rows : list A) : nat :=
  length (filter (λ row, keyOf row = k) rows).

End Spec.

(** ** Devices of the proofs *)

Module Aux.

(** The total that a grouped list holds for a key, over all entries
    that carry it. *)
Definition recorded (k : string) (acc : list AnalyticsScreen.Count) : nat :=
  sum_list_with AnalyticsScreen.count
    (filter (λ it, AnalyticsScreen.key it = k) acc).

(** The completion rate as the screen computes it from the two counts. *)
Definition doubleRate (completed total : nat) : JsNumber.number :=
  JsNumber.Math_round
    (JsNumber.mul (JsNumber.div (JsNumber.ofNat completed) (JsNumber.ofNat total))
                  (JsNumber.ofNat 100)).

(** Where a remainder [D] out of [B] lies: nothing left, or below, at or
    above the half. *)
Definition locOf (D B : Z) : location :=
  if (D =? 0)%Z then loc_Exact else loc_Inexact (2 * D ?= B)%Z.

(** A shifted mantissa with its round and sticky bits stands for the
    fraction [A / B]: the mantissa is the integer part and the bits say
    where the rest lies. *)
Definition Rep (mrs : shr_record) (A B : Z) : Prop :=
  (0 <= shr_m mrs)%Z
  ∧ (shr_m mrs * B <= A < (shr_m mrs + 1) * B)%Z
  ∧ loc_of_shr_record mrs = locOf (A - shr_m mrs * B) B.

(** The small letter of a capital letter of Latin-1, by the value of
    its code unit; every other unit as it is. *)
Definition foldUnit (u : N) : N :=
  if ((65 <=? u) && (u <=? 90)
      || (192 <=? u) && (u <=? 222) && negb (u =? 215))%N
  then (u + 32)%N
  else u.

(** Powers of two and the value of a mantissa at an exponent, over the
    rationals. *)
Definition pow2 (e : Z) : Q := (2 ^ e)%Q.
Definition F2Q (m e : Z) : Q := (inject_Z m * pow2 e)%Q.

End Aux.

(** ** Sample data *)

Module Sample.
Import Database.

Definition task (completed : bool) (due : string) : RecoveryTask :=
  {| task_completed := completed; task_created_at := "2025-01-01T00:00:00Z";
     task_description := "Walk for ten minutes"; task_due_date := due;
     task_id := "task-1"; task_patient_id := "patient-1";
     task_surgery_plan_id := "plan-1";
     task_task_type := "exercise"; task_title := "Walk" |}.

(** Forty tasks, twenty-three of them completed. *)
Definition fortyTasks : list RecoveryTask :=
  replicate 23 (task true "2025-01-10T00:00:00Z")
  ++ replicate 17 (task false "2025-01-10T00:00:00Z").

(** A date parser that knows two timestamps. *)
Definition parseDate (s : string) : JsDate.Date :=
  if String.eqb s "2025-01-10T00:00:00Z" then Some 1736467200000%Z
  else if String.eqb s "2025-01-20T00:00:00Z" then Some 1737331200000%Z
  else None.

Definition toLocaleMonth (d : JsDate.Date) : string :=
  match d with
  | Some _ => "Jan 2025"
  | None => "Invalid Date"
  end.

(** A clock that reads 15 January 2025 at every call. *)
Definition clock (_ : nat) : Z * Z := (1736899200000%Z, 1736899200000%Z).

Definition patient (name mail reg : string) : PatientsScreen.PatientWithPlan :=
  {| PatientsScreen.profile :=
       {| profile_created_at := "2025-01-01T00:00:00Z"; profile_email := mail;
          profile_full_name := name; profile_id := mail; profile_region := reg;
          profile_role := "patient";
          profile_updated_at := "2025-01-01T00:00:00Z" |};
     PatientsScreen.surgery_plans := None |}.

Definition patientList : list PatientsScreen.PatientWithPlan :=
  [ patient "Ann Lee" "ann@example.org" "NZ";
    patient "Bob Ray" "bob@example.org" "AU";
    patient "Cy Annan" "cy@example.org" "AU" ].

Definition patientsState (query choice : string) : PatientsScreen.State :=
  {| PatientsScreen.patients := patientList;
     PatientsScreen.filteredPatients := [];
     PatientsScreen.searchQuery := query;
     PatientsScreen.selectedRegion := choice |}.

(** Auth calls that resolve with a given error, or without one. *)
Definition signInFails (m : option string) (_ _ : string) : AuthOutcome :=
  Resolved (Some {| message := m |}).

Definition signUpSucceeds (_ _ _ _ _ : string) : AuthOutcome := Resolved None.

Definition signUpFails (m : option string) (_ _ _ _ _ : string) : AuthOutcome :=
  Resolved (Some {| message := m |}).

Definition plan (st : string) : SurgeryPlan :=
  {| plan_clinic_name := "Harbour Clinic"; plan_created_at := "2025-01-01T00:00:00Z";
     plan_id := "plan-1"; plan_patient_id := "patient-1";
     plan_procedure_type := "Knee replacement"; plan_status := st;
     plan_surgery_date := "2025-01-20T00:00:00Z";
     plan_updated_at := "2025-01-01T00:00:00Z" |}.

(** Ann Lee with one surgery plan in the given status. *)
Definition patientWithPlan (st : string) : PatientsScreen.PatientWithPlan :=
  {| PatientsScreen.profile :=
       PatientsScreen.profile (patient "Ann Lee" "ann@example.org" "NZ");
     PatientsScreen.surgery_plans := Some [plan st] |}.

(** A lower-casing for the samples: capital letters of Latin-1 and the
    Greek capitals move up by 32, and a capital sigma that ends the text
    behind a capital letter becomes the final sigma. *)
Definition isCapital (u : N) : bool :=
  ((65 <=? u) && (u <=? 90)
   || (192 <=? u) && (u <=? 222) && negb (u =? 215)
   || (913 <=? u) && (u <=? 939) && negb (u =? 930))%N.

Fixpoint lowerAfter (capitalBefore : bool) (t : list N) : list N :=
  match t with
  | [] => []
  | u :: t' =>
      (if (u =? 931)%N && capitalBefore && negb (JsText.truthy t') then 962%N
       else if isCapital u then (u + 32)%N else u)
      :: lowerAfter (isCapital u) t'
  end.

Definition toLowerCase (t : list N) : list N := lowerAfter false t.

Definition patientUtf16 (name mail reg : list N) : PatientsScreenUtf16.PatientWithPlan :=
  {| PatientsScreenUtf16.profile :=
       {| PatientsScreenUtf16.profile_created_at :=
            JsString.widen "2025-01-01T00:00:00Z";
          PatientsScreenUtf16.profile_email := mail;
          PatientsScreenUtf16.profile_full_name := name;
          PatientsScreenUtf16.profile_id := mail;
          PatientsScreenUtf16.profile_region := reg;
          PatientsScreenUtf16.profile_role := JsString.widen "patient";
          PatientsScreenUtf16.profile_updated_at :=
            JsString.widen "2025-01-01T00:00:00Z" |};
     PatientsScreenUtf16.surgery_plans := None |}.

(** The three patients of [patientList], and the search for a query in
    a region among them. *)
Definition patientListUtf16 : list PatientsScreenUtf16.PatientWithPlan :=
  [ patientUtf16 (JsString.widen "Ann Lee") (JsString.widen "ann@example.org")
                 (JsString.widen "NZ");
    patientUtf16 (JsString.widen "Bob Ray") (JsString.widen "bob@example.org")
                 (JsString.widen "AU");
    patientUtf16 (JsString.widen "Cy Annan") (JsString.widen "cy@example.org")
                 (JsString.widen "AU") ].

Definition searchUtf16 (query choice : string) : PatientsScreenUtf16.State :=
  {| PatientsScreenUtf16.patients := patientListUtf16;
     PatientsScreenUtf16.filteredPatients := [];
     PatientsScreenUtf16.searchQuery := JsString.widen query;
     PatientsScreenUtf16.selectedRegion := JsString.widen choice |}.



End Sample.

(** ** Notions used to state the behaviour of the screens *)

Module Notions.

(** The language of a pattern: the texts the pattern matches from end
    to end. *)
Inductive Matches : JsRegExp.regex → string → Prop :=
| MatchEmpty : Matches JsRegExp.Empty ""
| MatchClass p c : p c = true → Matches (JsRegExp.Class p) (String c "")
| MatchSeq r1 r2 s1 s2 :
    Matches r1 s1 → Matches r2 s2 → Matches (JsRegExp.Seq r1 r2) (s1 +:+ s2)
| MatchAltL r1 r2 s : Matches r1 s → Matches (JsRegExp.Alt r1 r2) s
| MatchAltR r1 r2 s : Matches r2 s → Matches (JsRegExp.Alt r1 r2) s
| MatchStarNil r : Matches (JsRegExp.Star r) ""
| MatchStarCons r s1 s2 :
    Matches r s1 → Matches (JsRegExp.Star r) s2 →
    Matches (JsRegExp.Star r) (s1 +:+ s2).

(** The code units of a text are all white space (true) or all
    something else (false). *)
Definition allUnits (space : bool) (s : string) : Prop :=
  Forall (λ c, JsString.isWhiteSpace c = space) (list_ascii_of_string s).

(** A text without white space that is not empty. *)
Definition nonBlank (s : string) : Prop := s ≠ "" ∧ allUnits false s.

(** Somewhere in [s] there is non-blank text, an at sign, non-blank
    text, a dot and non-blank text, in a row. *)
Definition emailShaped (s : string) : Prop :=
  ∃ a l d t b,
    s = a +:+ l +:+ "@" +:+ d +:+ "." +:+ t +:+ b
    ∧ nonBlank l ∧ nonBlank d ∧ nonBlank t.

(** The first and the last code unit of a text, if any. *)
Definition firstUnit (s : string) : option ascii := head (list_ascii_of_string s).
Definition lastUnit (s : string) : option ascii := last (list_ascii_of_string s).

(** How often the code unit [u] occurs. *)
Definition countUnit (u : N) (w : list N) : nat := length (filter (λ x, x = u) w).

(** A query fails when its answer carries an error or its promise is
    rejected. *)
Definition fails {A} (answer : Supabase.Answer A) : Prop :=
  Supabase.rowsOrThrow answer = None.

(** The plans query of the timeline finds [plan]: there is a signed-in
    user and the answer has rows, of which [plan] is the first. *)
Definition planFound (user : option string)
    (plansAnswer : Supabase.Answer Database.SurgeryPlan)
    (plan : Database.SurgeryPlan) : Prop :=
  is_Some user
  ∧ ∃ rest, Supabase.rowsOrThrow plansAnswer = Some (Some (plan :: rest)).

(** Some query that the timeline makes for a signed-in user fails: the
    plans query, the documents query, or the tasks query for the plan
    found. *)
Definition timelineLoadFails (user : option string)
    (plansAnswer : Supabase.Answer Database.SurgeryPlan)
    (tasksAnswer : string → Supabase.Answer Database.RecoveryTask)
    (documentsAnswer : Supabase.Answer Database.Document) : Prop :=
  is_Some user
  ∧ (fails plansAnswer ∨ fails documentsAnswer
     ∨ ∃ plan, planFound user plansAnswer plan
               ∧ fails (tasksAnswer (Database.plan_id plan))).

(** The verdicts recorded under a test name, in order. *)
Definition verdicts (name : string) (results : list TestAuthScreen.TestResult)
  : list TestAuthScreen.Status :=
  TestAuthScreen.status
    <$> filter (λ r, TestAuthScreen.test r = name) results.

(** The distinct keys of a list in the order in which each is first
    met: the head, then the rest without it. *)
Fixpoint firstSeen (l : list string) : list string :=
  match l with
  | [] => []
  | k :: l' => k :: filter (λ x, x ≠ k) (firstSeen l')
  end.

(** The text is Latin-1: every code unit is below 256. *)
Definition latin1 (t : list N) : Prop := Forall (λ u, (u < 256)%N) t.

(** The capital letters of Latin-1: A to Z, and U+00C0 to U+00DE without
    the multiplication sign U+00D7.  The small letter of each lies 32
    above it. *)
Definition capital (u : N) : Prop :=
  (65 ≤ u ≤ 90 ∨ (192 ≤ u ≤ 222 ∧ u ≠ 215))%N.

(** Two code units are the same letter, written as a capital or not. *)
Definition sameLetter (u v : N) : Prop :=
  u = v ∨ (capital u ∧ v = (u + 32)%N) ∨ (capital v ∧ u = (v + 32)%N).

(** [s] contains [q] as a case-insensitive substring: a contiguous run of
    [s] is [q] letter by letter, capitals and small letters taken for the
    same. *)
Definition containsUpToCase (s q : list N) : Prop :=
  ∃ a m b, s = a ++ m ++ b ∧ Forall2 sameLetter m q.


End Notions.

(** * Properties *)

(** ** Strings *)

Example includes_ex1 : JsString.includes "Invalid login credentials" "login" = true.
Proof. reflexivity. Qed.
Example includes_ex2 : JsString.includes "abc" "" = true.
Proof. reflexivity. Qed.
Example includes_ex3 : JsString.includes "abc" "bd" = false.
Proof. reflexivity. Qed.
Example trim_ex1 : JsString.trim "  Ann Lee  " = "Ann Lee".
Proof. reflexivity. Qed.
Example lower_ex1 : JsString.toLowerCase "Ann LEE" = "ann lee".
Proof. reflexivity. Qed.
Example email_ex1 : JsRegExp.test JsRegExp.emailPattern "ann@example.org" = true.
Proof. vm_compute. reflexivity. Qed.
Example email_ex2 : JsRegExp.test JsRegExp.emailPattern "ann@example" = false.
Proof. vm_compute. reflexivity. Qed.
Example email_ex3 : JsRegExp.test JsRegExp.emailPattern "x a@b.c y" = true.
Proof. vm_compute. reflexivity. Qed.
Example email_ex4 : JsRegExp.test JsRegExp.emailPattern "a@ b.c" = false.
Proof. vm_compute. reflexivity. Qed.

Section StringFacts.
Import JsString Spec.

Lemma append_String c a b : String c a +:+ b = String c (a +:+ b).
Proof. reflexivity. Qed.

Lemma truthy_spec s : truthy s = true ↔ s ≠ "".
Proof. destruct s; simpl; split; congruence. Qed.

Lemma truthy_false s : truthy s = false ↔ s = "".
Proof. destruct s; simpl; split; congruence. Qed.

Lemma prefix_spec q s : String.prefix q s = true ↔ ∃ b, s = q +:+ b.
Proof.
  revert s. induction q as [|c q IH]; intros [|d s]; simpl.
  - split; [by exists "" | reflexivity].
  - split; [by exists (String d s) | reflexivity].
  - split; [discriminate | intros [b Hb]; discriminate].
  - setoid_rewrite append_String.
    destruct (ascii_dec c d) as [->|Hne].
    + rewrite IH. split; intros [b Hb]; exists b; congruence.
    + split; [discriminate | intros [b Hb]; congruence].
Qed.

Lemma includes_spec s q : includes s q = true ↔ occursIn q s.
Proof.
  unfold occursIn. induction s as [|c s IH].
  - change (includes "" q) with (String.prefix q "" || false).
    rewrite orb_false_r, prefix_spec. split.
    + intros [b Hb]. by exists "", b.
    + intros ([|??] & b & Hb); [by exists b | discriminate].
  - change (includes (String c s) q)
      with (String.prefix q (String c s) || includes s q).
    rewrite orb_true_iff, prefix_spec, IH. split.
    + intros [[b Hb] | (a & b & Hab)].
      * by exists "", b.
      * exists (String c a), b. rewrite append_String. by f_equal.
    + intros ([|d a] & b & Hab).
      * left. by exists b.
      * right. exists a, b. rewrite append_String in Hab. congruence.
Qed.

Lemma includes_false s q : includes s q = false ↔ ¬ occursIn q s.
Proof. rewrite <- includes_spec. by destruct (includes s q). Qed.

Lemma toLowerCase_app a b :
  toLowerCase (a +:+ b) = toLowerCase a +:+ toLowerCase b.
Proof.
  induction a as [|c a IH]; [done|].
  rewrite append_String. simpl. by rewrite IH.
Qed.

(** Lower-casing works unit by unit, so a split of the lowered text is
    the image of a split of the text. *)
Lemma toLowerCase_split s x y :
  toLowerCase s = x +:+ y →
  ∃ a b, s = a +:+ b ∧ toLowerCase a = x ∧ toLowerCase b = y.
Proof.
  revert s. induction x as [|c x IH]; intros s H.
  - by exists "", s.
  - rewrite append_String in H.
    destruct s as [|d s]; [discriminate|]. simpl in H. injection H as Hc Hs.
    destruct (IH _ Hs) as (a & b & -> & <- & <-).
    exists (String d a), b. simpl. by rewrite Hc.
Qed.

Lemma includes_toLowerCase s q :
  includes (toLowerCase s) (toLowerCase q) = true ↔ containsIgnoringCase s q.
Proof.
  rewrite includes_spec. unfold occursIn, containsIgnoringCase. split.
  - intros (x & y & H).
    destruct (toLowerCase_split _ _ _ H) as (a & r & -> & <- & Hr).
    destruct (toLowerCase_split _ _ _ Hr) as (m & b & -> & Hm & <-).
    by exists a, m, b.
  - intros (a & m & b & -> & Hm).
    exists (toLowerCase a), (toLowerCase b).
    by rewrite !toLowerCase_app, Hm.
Qed.

End StringFacts.

Global Instance containsIgnoringCase_dec s q :
  Decision (Spec.containsIgnoringCase s q).
Proof.
  refine (cast_if (decide (JsString.includes (JsString.toLowerCase s)
                                             (JsString.toLowerCase q) = true)));
    by rewrite <- includes_toLowerCase.
Defined.

(** ** Effects *)

Lemma Eff_bind_run {S A B} (m : Eff S A) (f : A → Eff S B) st :
  (m ≫= f) st =
  let '(a, st1, t1) := m st in
  let '(b, st2, t2) := f a st1 in (b, st2, t1 ++ t2).
Proof. reflexivity. Qed.

(** ** Lists *)

(** The boolean filter of the Standard Library against the filter of a
    decidable predicate. *)
Lemma List_filter_decide {A} (f : A → bool) (P : A → Prop)
    `{∀ x, Decision (P x)} (l : list A) :
  (∀ x, f x = true ↔ P x) → List.filter f l = filter P l.
Proof.
  intros Hf. induction l as [|x l IH]; [done|].
  simpl. rewrite filter_cons, IH.
  destruct (f x) eqn:Hx; case_decide as HP; try done.
  - by apply Hf in Hx.
  - apply Hf in HP. congruence.
Qed.


Lemma List_filter_sublist {A} (f : A → bool) (l : list A) :
  List.filter f l `sublist_of` l.
Proof.
  induction l as [|x l IH]; simpl; [constructor|].
  destruct (f x); by constructor.
Qed.

(** ** Auth errors *)

Lemma messageIncludes_spec err phrase :
  messageIncludes err phrase = true ↔
  ∃ m, message err = Some m ∧ Spec.occursIn phrase m.
Proof.
  unfold messageIncludes. destruct (message err) as [m|].
  - rewrite includes_spec. split.
    + intros H. by exists m.
    + by intros (m' & [= <-] & H).
  - split; [discriminate | by intros (m' & [=] & _)].
Qed.

Lemma messageOr_spec err fallback :
  messageOr err fallback =
  match message err with
  | Some m => if decide (m = "") then fallback else m
  | None => fallback
  end.
Proof. unfold messageOr. by destruct (message err) as [[|c m]|]. Qed.

(** A form with an error in some field does not pass validation. *)
Lemma size_zero_lookup (m : gmap string string) k v :
  m !! k = Some v → bool_decide (size m = 0) = false.
Proof.
  intros Hk. apply bool_decide_eq_false.
  intros ->%map_size_empty_inv. by rewrite lookup_empty in Hk.
Qed.

(** Looking up one field of an errors object skips the assignments to
    the other fields. *)
Lemma lookup_if_insert_ne (b : bool) (k j v : string) (m : gmap string string) :
  k ≠ j → (if b then <[k:=v]> m else m) !! j = m !! j.
Proof. intros Hne. destruct b; [by apply lookup_insert_ne | done]. Qed.

Lemma lookup_if_insert2_ne (b1 b2 : bool) (k j v1 v2 : string)
    (m : gmap string string) :
  k ≠ j →
  (if b1 then <[k:=v1]> m else if b2 then <[k:=v2]> m else m) !! j = m !! j.
Proof. intros Hne. destruct b1, b2; by rewrite ?lookup_insert_ne. Qed.

Ltac skip_fields :=
  repeat first [ rewrite lookup_if_insert2_ne by done
               | rewrite lookup_if_insert_ne by done ].

Ltac run_eff :=
  cbv [mbind mret Eff_bind Eff_ret gets modify emit
       SignInScreen.setLoading SignInScreen.setErrors
       SignUpScreen.setLoading SignUpScreen.setErrors];
  cbn [fst snd app
       SignInScreen.email SignInScreen.password
       SignInScreen.loading SignInScreen.errors
       SignUpScreen.email SignUpScreen.password SignUpScreen.confirmPassword
       SignUpScreen.fullName SignUpScreen.loading SignUpScreen.errors].

(** ** The sign-in screen *)

Section SignIn.
Import SignInScreen.
Variable signIn : string → string → AuthOutcome.

Lemma signIn_validateForm_run st :
  ∃ ne : gmap string string,
    validateForm st =
      (bool_decide (size ne = 0),
       {| email := email st; password := password st;
          loading := loading st; errors := ne |}, [])
    ∧ ne !! "email" =
        (if negb (JsString.truthy (email st)) then Some "Email is required"
         else if negb (JsRegExp.test JsRegExp.emailPattern (email st))
              then Some "Please enter a valid email" else None)
    ∧ ne !! "password" =
        (if negb (JsString.truthy (password st))
         then Some "Password is required" else None).
Proof.
  eexists. split; [reflexivity|]. cbn [gets fst snd].
  split_and!; skip_fields.
  - destruct (negb (JsString.truthy (email st))),
      (negb (JsRegExp.test JsRegExp.emailPattern (email st)));
      rewrite ?lookup_insert_eq; skip_fields; done.
  - destruct (negb (JsString.truthy (password st)));
      rewrite ?lookup_insert_eq; skip_fields; done.
Qed.

(** A form that fails validation: the handler returns at once. *)
Lemma handleSignIn_blocked st :
  (validateForm st).1.1 = false →
  handleSignIn signIn st = (tt, (validateForm st).1.2, []).
Proof.
  intros Hv. unfold handleSignIn. rewrite Eff_bind_run.
  destruct (signIn_validateForm_run st) as (ne & Hrun & _).
  rewrite Hrun in Hv |- *. cbn [fst snd] in Hv |- *. by rewrite Hv.
Qed.

(** A form that passes validation: one sign-in call, then what its
    outcome selects. *)
Lemma handleSignIn_submitted st :
  (validateForm st).1.1 = true →
  ∃ finalErrors after,
    handleSignIn signIn st =
      (tt, {| email := email st; password := password st;
              loading := false; errors := finalErrors |},
       SignInCall (email st) (password st) :: after)
    ∧ match signIn (email st) (password st) with
      | Resolved (Some error) =>
          after = [ConsoleError "Sign in error:"]
          ∧ finalErrors = {[ "general" :=
              if messageIncludes error "Invalid login credentials"
                 || messageIncludes error "Invalid email or password"
              then "Invalid email or password. Please try again."
              else if messageIncludes error "Email not confirmed"
              then "Please check your email and confirm your account before signing in."
              else messageOr error "Sign in failed. Please try again." ]}
      | Resolved None =>
          after = [RouterReplace "/(tabs)"] ∧ finalErrors = ∅
      | Rejected =>
          after = [ConsoleError "Sign in exception:"]
          ∧ finalErrors = {[ "general" :=
              "An unexpected error occurred. Please try again." ]}
      end.
Proof.
  intros Hv. unfold handleSignIn. rewrite Eff_bind_run.
  destruct (signIn_validateForm_run st) as (ne & Hrun & _).
  rewrite Hrun in Hv |- *. cbn [fst snd] in Hv |- *. rewrite Hv.
  cbn [negb].
  destruct (signIn (email st) (password st)) as [[error|]|] eqn:Hout.
  - destruct (messageIncludes error "Invalid login credentials"
              || messageIncludes error "Invalid email or password") eqn:H1;
      [|destruct (messageIncludes error "Email not confirmed") eqn:H2];
      eexists _, _;
      (split; [run_eff; rewrite Hout; run_eff; rewrite ?H1, ?H2; reflexivity|]);
      done.
  - eexists _, _; (split; [run_eff; rewrite Hout; reflexivity|]); done.
  - eexists _, _; (split; [run_eff; rewrite Hout; reflexivity|]); done.
Qed.

(** C3. Submitting the sign-in form with an empty password sets the field
    error "Password is required" and makes no sign-in call: the handler
    returns before anything leaves the component. *)
Theorem signIn_empty_password_blocked st :
  password st = "" →
  let r := handleSignIn signIn st in
  errors (finalState r) !! "password" = Some "Password is required"
  ∧ trace r = []
  ∧ ∀ e p, SignInCall e p ∉ trace r.
Proof.
  intros Hp r.
  destruct (signIn_validateForm_run st) as (ne & Hrun & _ & Hpw).
  rewrite Hp in Hpw. cbn in Hpw.
  assert ((validateForm st).1.1 = false) as Hv.
  { rewrite Hrun. cbn [fst snd]. by eapply size_zero_lookup. }
  subst r. rewrite (handleSignIn_blocked st Hv), Hrun.
  cbn [finalState trace fst snd errors]. split_and!; [done..|].
  intros e p. apply not_elem_of_nil.
Qed.

(** C6, as amended.  When the form is valid and the sign-in call resolves
    with an error, the [general] message is: the invalid-credentials text
    when the message contains either credentials phrase; otherwise the
    confirm-your-account text when it contains "Email not confirmed";
    otherwise the message itself when it is not empty; and the fallback
    "Sign in failed. Please try again." when the message is absent or
    empty. *)
Theorem signIn_error_message st err :
  (validateForm st).1.1 = true →
  signIn (email st) (password st) = Resolved (Some err) →
  let shown := errors (finalState (handleSignIn signIn st)) !! "general" in
  let has phrase := ∃ m, message err = Some m ∧ Spec.occursIn phrase m in
  (has "Invalid login credentials" ∨ has "Invalid email or password" →
     shown = Some "Invalid email or password. Please try again.")
  ∧ (¬ has "Invalid login credentials" → ¬ has "Invalid email or password" →
     has "Email not confirmed" →
     shown = Some "Please check your email and confirm your account before signing in.")
  ∧ (¬ has "Invalid login credentials" → ¬ has "Invalid email or password" →
     ¬ has "Email not confirmed" →
     ∀ m, message err = Some m → m ≠ "" → shown = Some m)
  ∧ (message err = None ∨ message err = Some "" →
     shown = Some "Sign in failed. Please try again.").
Proof.
  intros Hv Hout shown has.
  destruct (handleSignIn_submitted st Hv) as (fe & after & Hrun & Hres).
  rewrite Hout in Hres. destruct Hres as [_ ->].
  subst shown. rewrite Hrun. cbn [finalState fst snd errors].
  rewrite lookup_singleton_eq.
  assert (∀ phrase, has phrase ↔ messageIncludes err phrase = true) as Hhas.
  { intros phrase. symmetry. apply messageIncludes_spec. }
  rewrite !Hhas. clear Hhas has.
  split_and!.
  - intros Hor. by apply orb_true_iff in Hor as ->.
  - intros ->%not_true_is_false ->%not_true_is_false ->. done.
  - intros ->%not_true_is_false ->%not_true_is_false ->%not_true_is_false m Hm Hne.
    cbn [orb]. by rewrite messageOr_spec, Hm, decide_False.
  - intros Hm. unfold messageIncludes.
    rewrite messageOr_spec. by destruct Hm as [-> | ->].
Qed.

End SignIn.

Lemma signIn_empty_password_witness :
  let st := SignInScreen.initial "ann@example.org" "" in
  let r := SignInScreen.handleSignIn (Sample.signInFails None) st in
  SignInScreen.password st = ""
  ∧ SignInScreen.errors (finalState r) !! "password" = Some "Password is required"
  ∧ trace r = [].
Proof.
  split; [reflexivity|].
  destruct (signIn_empty_password_blocked (Sample.signInFails None)
              (SignInScreen.initial "ann@example.org" "") eq_refl)
    as (Herr & Htrace & _).
  by split.
Defined.

Lemma signIn_error_message_witness :
  let st := SignInScreen.initial "ann@example.org" "secret" in
  let signIn := Sample.signInFails (Some "Email not confirmed") in
  (SignInScreen.validateForm st).1.1 = true
  ∧ SignInScreen.errors (finalState (SignInScreen.handleSignIn signIn st)) !! "general"
    = Some "Please check your email and confirm your account before signing in.".
Proof.
  split; [by vm_compute|].
  destruct (signIn_error_message
              (Sample.signInFails (Some "Email not confirmed"))
              (SignInScreen.initial "ann@example.org" "secret")
              {| message := Some "Email not confirmed" |})
    as (_ & Hconfirm & _); [by vm_compute | reflexivity |].
  apply Hconfirm.
  - intros (m & [= <-] & Hocc). by apply includes_spec in Hocc.
  - intros (m & [= <-] & Hocc). by apply includes_spec in Hocc.
  - exists "Email not confirmed". split; [reflexivity|]. by apply includes_spec.
Defined.

(** C6, as first stated, fails on two inputs.  An empty message contains
    none of the phrases, yet the fallback is shown in its place.  A message
    that contains "Email not confirmed" and a credentials phrase gets the
    credentials text, not the confirm-your-account text. *)
Lemma signIn_error_message_counterexample :
  let st := SignInScreen.initial "ann@example.org" "secret" in
  let shown m :=
    SignInScreen.errors
      (finalState (SignInScreen.handleSignIn (Sample.signInFails (Some m)) st))
      !! "general" in
  let both := "Email not confirmed. Invalid login credentials" in
  (shown "" = Some "Sign in failed. Please try again." ∧ shown "" ≠ Some "")
  ∧ (JsString.includes both "Email not confirmed" = true
     ∧ shown both = Some "Invalid email or password. Please try again."
     ∧ shown both
       ≠ Some "Please check your email and confirm your account before signing in.").
Proof. vm_compute. by split_and!. Qed.

(** ** The sign-up screen *)

Section SignUp.
Import SignUpScreen.
Variable signUp : string → string → string → string → string → AuthOutcome.

Lemma signUp_validateForm_run st :
  ∃ ne : gmap string string,
    validateForm st =
      (bool_decide (size ne = 0),
       {| email := email st; password := password st;
          confirmPassword := confirmPassword st; fullName := fullName st;
          loading := loading st; errors := ne |}, [])
    ∧ ne !! "fullName" =
        (if negb (JsString.truthy (JsString.trim (fullName st)))
         then Some "Full name is required" else None)
    ∧ ne !! "email" =
        (if negb (JsString.truthy (email st)) then Some "Email is required"
         else if negb (JsRegExp.test JsRegExp.emailPattern (email st))
              then Some "Please enter a valid email" else None)
    ∧ ne !! "password" =
        (if negb (JsString.truthy (password st)) then Some "Password is required"
         else if String.length (password st) <? 8
              then Some "Password must be at least 8 characters" else None)
    ∧ ne !! "confirmPassword" =
        (if negb (JsString.truthy (confirmPassword st))
         then Some "Please confirm your password"
         else if negb (String.eqb (password st) (confirmPassword st))
              then Some "Passwords do not match" else None).
Proof.
  eexists. split; [reflexivity|]. cbn [gets fst snd].
  split_and!; skip_fields.
  - destruct (negb (JsString.truthy (JsString.trim (fullName st))));
      by rewrite ?lookup_insert_eq.
  - destruct (negb (JsString.truthy (email st))),
      (negb (JsRegExp.test JsRegExp.emailPattern (email st)));
      rewrite ?lookup_insert_eq; skip_fields; done.
  - destruct (negb (JsString.truthy (password st))),
      (String.length (password st) <? 8);
      rewrite ?lookup_insert_eq; skip_fields; done.
  - destruct (negb (JsString.truthy (confirmPassword st))),
      (negb (String.eqb (password st) (confirmPassword st)));
      rewrite ?lookup_insert_eq; skip_fields; done.
Qed.

Lemma handleSignUp_blocked st :
  (validateForm st).1.1 = false →
  handleSignUp signUp st = (tt, (validateForm st).1.2, []).
Proof.
  intros Hv. unfold handleSignUp. rewrite Eff_bind_run.
  destruct (signUp_validateForm_run st) as (ne & Hrun & _).
  rewrite Hrun in Hv |- *. cbn [fst snd] in Hv |- *. by rewrite Hv.
Qed.

(** What a blocked submission leaves behind, given one field error. *)
Lemma handleSignUp_field_error st k v :
  (∀ ne, (validateForm st).1.2 = 
         {| email := email st; password := password st;
            confirmPassword := confirmPassword st; fullName := fullName st;
            loading := loading st; errors := ne |} → ne !! k = Some v) →
  let r := handleSignUp signUp st in
  errors (finalState r) !! k = Some v ∧ trace r = [].
Proof.
  intros Hk r.
  destruct (signUp_validateForm_run st) as (ne & Hrun & _).
  assert (ne !! k = Some v) as Hne by (apply Hk; by rewrite Hrun).
  assert ((validateForm st).1.1 = false) as Hv.
  { rewrite Hrun. cbn [fst snd]. by eapply size_zero_lookup. }
  subst r. rewrite (handleSignUp_blocked st Hv), Hrun. done.
Qed.

(** C8. A sign-up password that is not empty but shorter than eight
    characters sets the field error "Password must be at least 8
    characters" and makes no sign-up call. *)
Theorem signUp_short_password_blocked st :
  password st ≠ "" →
  String.length (password st) < 8 →
  let r := handleSignUp signUp st in
  errors (finalState r) !! "password"
    = Some "Password must be at least 8 characters"
  ∧ trace r = []
  ∧ ∀ e p n ro re, SignUpCall e p n ro re ∉ trace r.
Proof.
  intros Hne Hlen r.
  destruct (handleSignUp_field_error st "password"
              "Password must be at least 8 characters") as [Herr Htr].
  { intros ne Hst.
    destruct (signUp_validateForm_run st) as (ne' & Hrun & _ & _ & Hpw & _).
    rewrite Hrun in Hst. cbn [snd fst] in Hst. injection Hst as <-.
    rewrite Hpw. apply truthy_spec in Hne as ->. cbn [negb].
    by apply Nat.ltb_lt in Hlen as ->. }
  subst r. split_and!; [done..|].
  intros ?????. rewrite Htr. apply not_elem_of_nil.
Qed.

(** C4, as amended.  When the password and the confirmation differ, the
    submission is blocked; the [confirmPassword] error is "Passwords do
    not match" when the confirmation is not empty and "Please confirm
    your password" when it is empty. *)
Theorem signUp_mismatch_blocked st :
  password st ≠ confirmPassword st →
  let r := handleSignUp signUp st in
  errors (finalState r) !! "confirmPassword"
    = Some (if decide (confirmPassword st = "")
            then "Please confirm your password"
            else "Passwords do not match")
  ∧ trace r = []
  ∧ ∀ e p n ro re, SignUpCall e p n ro re ∉ trace r.
Proof.
  intros Hne r.
  destruct (handleSignUp_field_error st "confirmPassword"
              (if decide (confirmPassword st = "")
               then "Please confirm your password"
               else "Passwords do not match")) as [Herr Htr].
  { intros ne Hst.
    destruct (signUp_validateForm_run st) as (ne' & Hrun & _ & _ & _ & Hc).
    rewrite Hrun in Hst. cbn [snd fst] in Hst. injection Hst as <-.
    rewrite Hc. destruct (decide (confirmPassword st = "")) as [Hempty|Hempty].
    - by apply truthy_false in Hempty as ->.
    - apply truthy_spec in Hempty as ->. cbn [negb].
      by apply String.eqb_neq in Hne as ->. }
  subst r. split_and!; [done..|].
  intros ?????. rewrite Htr. apply not_elem_of_nil.
Qed.

End SignUp.

Lemma signUp_short_password_witness :
  let st := SignUpScreen.initial "Ann Lee" "ann@example.org" "secret" "secret" in
  let r := SignUpScreen.handleSignUp Sample.signUpSucceeds st in
  (SignUpScreen.password st ≠ "" ∧ String.length (SignUpScreen.password st) < 8)
  ∧ SignUpScreen.errors (finalState r) !! "password"
    = Some "Password must be at least 8 characters"
  ∧ trace r = [].
Proof.
  split; [split; [discriminate | simpl; lia]|].
  destruct (signUp_short_password_blocked Sample.signUpSucceeds
              (SignUpScreen.initial "Ann Lee" "ann@example.org" "secret" "secret"))
    as (Herr & Htrace & _); [discriminate | simpl; lia |].
  by split.
Defined.

Lemma signUp_mismatch_witness :
  let st := SignUpScreen.initial "Ann Lee" "ann@example.org"
              "correct horse" "correct house" in
  let r := SignUpScreen.handleSignUp Sample.signUpSucceeds st in
  SignUpScreen.password st ≠ SignUpScreen.confirmPassword st
  ∧ SignUpScreen.errors (finalState r) !! "confirmPassword"
    = Some "Passwords do not match"
  ∧ trace r = [].
Proof.
  split; [discriminate|].
  destruct (signUp_mismatch_blocked Sample.signUpSucceeds
              (SignUpScreen.initial "Ann Lee" "ann@example.org"
                 "correct horse" "correct house"))
    as (Herr & Htrace & _); [discriminate|].
  by split.
Defined.

(** C4, as first stated, fails when the confirmation is left empty: the
    two fields differ, and the message is "Please confirm your password". *)
Lemma signUp_mismatch_counterexample :
  let st := SignUpScreen.initial "Ann Lee" "ann@example.org" "correct horse" "" in
  let r := SignUpScreen.handleSignUp Sample.signUpSucceeds st in
  SignUpScreen.password st ≠ SignUpScreen.confirmPassword st
  ∧ SignUpScreen.errors (finalState r) !! "confirmPassword"
    = Some "Please confirm your password"
  ∧ SignUpScreen.errors (finalState r) !! "confirmPassword"
    ≠ Some "Passwords do not match".
Proof. vm_compute. by split_and!. Qed.

(** ** The patients screen *)

Section Patients.
Import PatientsScreen.

Lemma filterPatients_run st :
  filteredPatients (finalState (filterPatients st)) =
  let filtered :=
    if JsString.truthy (searchQuery st)
    then List.filter (λ patient,
           JsString.includes (JsString.toLowerCase (full_name patient))
                             (JsString.toLowerCase (searchQuery st))
           || JsString.includes (JsString.toLowerCase (email patient))
                                (JsString.toLowerCase (searchQuery st)))
           (patients st)
    else patients st in
  if negb (String.eqb (selectedRegion st) "all")
  then List.filter (λ patient, String.eqb (region patient) (selectedRegion st)) filtered
  else filtered.
Proof. reflexivity. Qed.


(** C10. With an empty query and the choice 'all' the filtered list is the
    loaded list; for every query and choice it is a subsequence of the
    loaded list. *)
Theorem filterPatients_identity_and_subsequence (st : State) :
  (searchQuery st = "" → selectedRegion st = "all" →
     filteredPatients (finalState (filterPatients st)) = patients st)
  ∧ filteredPatients (finalState (filterPatients st)) `sublist_of` patients st.
Proof.
  rewrite filterPatients_run. cbv zeta. split.
  - by intros -> ->.
  - destruct (JsString.truthy (searchQuery st)), (negb _);
      repeat (etrans; [apply List_filter_sublist|]); done.
Qed.

End Patients.

Example filterPatients_ex1 :
  PatientsScreen.full_name
    <$> PatientsScreen.filteredPatients
          (finalState (PatientsScreen.filterPatients (Sample.patientsState "ANN" "AU")))
  = ["Cy Annan"].
Proof. reflexivity. Qed.

Example filterPatients_ex2 :
  PatientsScreen.full_name
    <$> PatientsScreen.filteredPatients
          (finalState (PatientsScreen.filterPatients (Sample.patientsState "example" "all")))
  = ["Ann Lee"; "Bob Ray"; "Cy Annan"].
Proof. reflexivity. Qed.

Lemma filterPatients_identity_witness :
  let st := Sample.patientsState "" "all" in
  PatientsScreen.filteredPatients (finalState (PatientsScreen.filterPatients st))
  = PatientsScreen.patients st.
Proof.
  apply (filterPatients_identity_and_subsequence (Sample.patientsState "" "all"));
    reflexivity.
Defined.

(** ** The patient filter on arbitrary text *)

Lemma widen_cons c s : JsString.widen (String c s) = N_of_ascii c :: JsString.widen s.
Proof. reflexivity. Qed.

Section TextFacts.
Import JsText.

Lemma text_prefix_spec q s : prefix q s = true ↔ ∃ b, s = q ++ b.
Proof.
  revert s. induction q as [|u q IH]; intros [|v s]; simpl.
  - split; [by exists [] | done].
  - split; [by exists (v :: s) | done].
  - split; [done | by intros [b Hb]].
  - rewrite andb_true_iff, N.eqb_eq, IH. split.
    + intros [-> [b ->]]. by exists b.
    + intros [b [= -> ->]]. split; [done | by exists b].
Qed.

Lemma text_includes_spec s q :
  includes s q = true ↔ ∃ a b, s = a ++ q ++ b.
Proof.
  induction s as [|v s IH]; cbn [includes].
  - rewrite orb_false_r, text_prefix_spec. split.
    + intros [b Hb]. by exists [], b.
    + intros ([|??] & b & Hb); [by exists b | done].
  - rewrite orb_true_iff, text_prefix_spec, IH. split.
    + intros [[b Hb] | (a & b & ->)].
      * by exists [], b.
      * by exists (v :: a), b.
    + intros ([|u a] & b & Hab).
      * left. by exists b.
      * right. exists a, b. by injection Hab.
Qed.



End TextFacts.

Section Latin1Facts.
Import JsString JsText Notions Aux.

Lemma foldUnit_capital u :
  foldUnit u = if decide (capital u) then (u + 32)%N else u.
Proof.
  unfold foldUnit, capital.
  destruct ((65 <=? u)%N && (u <=? 90)%N
            || (192 <=? u)%N && (u <=? 222)%N && negb (u =? 215)%N) eqn:H.
  - rewrite decide_True; [done|].
    apply orb_true_iff in H as [H|H]; rewrite !andb_true_iff in H;
      rewrite ?N.leb_le, ?negb_true_iff, ?N.eqb_neq in H; lia.
  - rewrite decide_False; [done|].
    apply orb_false_iff in H as [H1 H2].
    apply andb_false_iff in H1. apply andb_false_iff in H2.
    rewrite andb_false_iff, negb_false_iff, N.eqb_eq in H2.
    rewrite !N.leb_gt in H1, H2. lia.
Qed.

Lemma foldUnit_sameLetter u v : foldUnit u = foldUnit v ↔ sameLetter u v.
Proof.
  rewrite !foldUnit_capital. unfold sameLetter, capital.
  repeat case_decide; lia.
Qed.

Lemma fold_Forall2 m q :
  foldUnit <$> m = foldUnit <$> q ↔ Forall2 sameLetter m q.
Proof.
  revert q. induction m as [|u m IH]; intros [|v q]; rewrite ?fmap_cons, ?fmap_nil.
  - split; [constructor | done].
  - split; [done | by intros ?%Forall2_nil_cons_inv].
  - split; [done | by intros ?%Forall2_cons_nil_inv].
  - rewrite Forall2_cons, <- IH, <- foldUnit_sameLetter. split.
    + by intros [= -> ->].
    + by intros [-> ->].
Qed.

Lemma includes_fold s q :
  includes (foldUnit <$> s) (foldUnit <$> q) = true ↔ containsUpToCase s q.
Proof.
  rewrite text_includes_spec. unfold containsUpToCase. split.
  - intros (x & y & H).
    apply fmap_app_inv in H as (a & r & -> & Hr & ->).
    symmetry in Hr. apply fmap_app_inv in Hr as (m & b & Hm & -> & ->).
    exists a, m, b. split; [done|]. by apply fold_Forall2.
  - intros (a & m & b & -> & Hm). apply fold_Forall2 in Hm.
    exists (foldUnit <$> a), (foldUnit <$> b). by rewrite !fmap_app, Hm.
Qed.

Lemma widen_app a b : widen (a +:+ b) = widen a ++ widen b.
Proof.
  induction a as [|c a IH]; [done|].
  by rewrite append_String, !widen_cons, IH.
Qed.

Lemma widen_toLowerCase s : widen (toLowerCase s) = foldUnit <$> widen s.
Proof.
  induction s as [|c s IH]; [done|].
  cbn [toLowerCase]. rewrite !widen_cons, fmap_cons, IH. f_equal.
  unfold lowerUnit, foldUnit. cbv zeta.
  pose proof (N_ascii_bounded c) as Hc.
  destruct ((65 <=? N_of_ascii c)%N && (N_of_ascii c <=? 90)%N
            || (192 <=? N_of_ascii c)%N && (N_of_ascii c <=? 222)%N
               && negb (N_of_ascii c =? 215)%N) eqn:H; [|done].
  apply N_ascii_embedding.
  apply orb_true_iff in H as [H|H]; rewrite !andb_true_iff in H;
    rewrite ?N.leb_le in H; lia.
Qed.

Lemma latin1_widen t : latin1 t ↔ ∃ s, t = widen s.
Proof.
  split.
  - induction 1 as [|u t Hu _ [s ->]].
    + by exists "".
    + exists (String (ascii_of_N u) s). by rewrite widen_cons, N_ascii_embedding.
  - intros [s ->]. induction s as [|c s IH]; [constructor|].
    rewrite widen_cons. constructor; [apply N_ascii_bounded | done].
Qed.

Lemma lowersLatin1_fold lower t :
  Engine.lowersLatin1 lower → latin1 t → lower t = foldUnit <$> t.
Proof.
  intros Hl [s ->]%latin1_widen. by rewrite Hl, widen_toLowerCase.
Qed.

End Latin1Facts.

Global Instance containsUpToCase_dec s q : Decision (Notions.containsUpToCase s q).
Proof.
  refine (cast_if (decide (JsText.includes (Aux.foldUnit <$> s) (Aux.foldUnit <$> q)
                           = true)));
    by rewrite <- includes_fold.
Defined.

Section PatientsUtf16.
Import PatientsScreenUtf16 Notions Aux.
Variable toLowerCase : list N → list N.

Lemma filterPatientsUtf16_run st :
  filteredPatients (finalState (filterPatients toLowerCase st)) =
  let filtered :=
    if JsText.truthy (searchQuery st)
    then List.filter (λ patient,
           JsText.includes (toLowerCase (full_name patient))
                           (toLowerCase (searchQuery st))
           || JsText.includes (toLowerCase (email patient))
                              (toLowerCase (searchQuery st)))
           (patients st)
    else patients st in
  if negb (JsText.eqb (selectedRegion st) (JsString.widen "all"))
  then List.filter (λ patient, JsText.eqb (region patient) (selectedRegion st)) filtered
  else filtered.
Proof. reflexivity. Qed.



End PatientsUtf16.

(** The lower-casing of the samples does on Latin-1 text and on the
    capital sigma what the engine does. *)
Lemma Sample_lowerAfter_latin1 before s :
  Sample.lowerAfter before (JsString.widen s)
  = JsString.widen (JsString.toLowerCase s).
Proof.
  rewrite widen_toLowerCase. revert before.
  induction s as [|c s IH]; intros before; [done|].
  rewrite widen_cons, fmap_cons. cbn [Sample.lowerAfter]. rewrite IH. f_equal.
  pose proof (N_ascii_bounded c) as Hc.
  rewrite (proj2 (N.eqb_neq (N_of_ascii c) 931)) by lia. cbn [andb].
  unfold Sample.isCapital, Aux.foldUnit.
  rewrite (proj2 (N.leb_gt 913 (N_of_ascii c))) by lia.
  by rewrite orb_false_r.
Qed.

Lemma Sample_lowersLatin1 : Engine.lowersLatin1 Sample.toLowerCase.
Proof. intros s. apply Sample_lowerAfter_latin1. Qed.



Section FinalSigma.
Import PatientsScreenUtf16.


End FinalSigma.



(** ** The analytics screen: grouped counts *)

Section Grouping.
Import AnalyticsScreen Aux.

Lemma countInto_cases acc k :
  (∃ l1 e l2, acc = l1 ++ e :: l2 ∧ key e = k
              ∧ countInto acc k
                = l1 ++ {| key := key e; count := S (count e) |} :: l2)
  ∨ (Forall (λ it, key it ≠ k) acc
     ∧ countInto acc k = acc ++ [ {| key := k; count := 1 |} ]).
Proof.
  unfold countInto.
  destruct (list_find _ acc) as [[i e]|] eqn:Hfind.
  - left. apply list_find_Some in Hfind as (Hi & Hk & _).
    exists (take i acc), e, (drop (S i) acc). split_and!.
    + by rewrite take_drop_middle.
    + done.
    + apply insert_take_drop. by eapply lookup_lt_Some.
  - right. by apply list_find_None in Hfind.
Qed.

Lemma keys_countInto acc k :
  key <$> countInto acc k =
  if decide (k ∈ key <$> acc) then key <$> acc else (key <$> acc) ++ [k].
Proof.
  destruct (countInto_cases acc k) as [(l1 & e & l2 & -> & Hk & ->)|[Hall ->]].
  - rewrite decide_True.
    + by rewrite !fmap_app, !fmap_cons.
    + rewrite <- Hk. apply list_elem_of_fmap_2, elem_of_app. right. by left.
  - rewrite decide_False; [by rewrite fmap_app|].
    intros (it & -> & Hit)%list_elem_of_fmap.
    by eapply Forall_forall in Hall.
Qed.

Lemma recorded_countInto acc k k' :
  recorded k' (countInto acc k)
  = recorded k' acc + (if decide (k = k') then 1 else 0).
Proof.
  unfold recorded.
  destruct (countInto_cases acc k) as [(l1 & e & l2 & -> & Hk & ->)|[_ ->]].
  - rewrite !filter_app, !filter_cons. simpl. rewrite Hk.
    case_decide; rewrite !sum_list_with_app; simpl; lia.
  - rewrite filter_app, filter_cons, filter_nil. simpl.
    case_decide; rewrite ?sum_list_with_app; simpl; lia.
Qed.

Lemma total_countInto acc k :
  sum_list_with count (countInto acc k) = S (sum_list_with count acc).
Proof.
  destruct (countInto_cases acc k) as [(l1 & e & l2 & -> & Hk & ->)|[_ ->]];
    rewrite !sum_list_with_app; simpl; lia.
Qed.

Lemma positive_countInto acc k :
  Forall (λ it, 1 ≤ count it) acc →
  Forall (λ it, 1 ≤ count it) (countInto acc k).
Proof.
  destruct (countInto_cases acc k) as [(l1 & e & l2 & -> & Hk & ->)|[_ ->]];
    rewrite !Forall_app, ?Forall_cons, ?Forall_singleton; simpl;
    intuition (auto with lia).
Qed.

Lemma recorded_absent acc k : k ∉ key <$> acc → recorded k acc = 0.
Proof.
  unfold recorded. induction acc as [|e acc IH]; [done|].
  rewrite fmap_cons, not_elem_of_cons, filter_cons. intros [Hne Hnotin].
  rewrite decide_False by done. auto.
Qed.

Lemma recorded_NoDup acc it :
  NoDup (key <$> acc) → it ∈ acc → recorded (key it) acc = count it.
Proof.
  induction acc as [|e acc IH]; [by intros _ ?%elem_of_nil|].
  rewrite fmap_cons, NoDup_cons. intros [Hnotin Hnd] Hin.
  unfold recorded. rewrite filter_cons.
  apply elem_of_cons in Hin as [->|Hin].
  - rewrite decide_True by done. simpl.
    fold (recorded (key e) acc). rewrite recorded_absent by done. lia.
  - rewrite decide_False.
    + by apply IH.
    + intros Heq. apply Hnotin. rewrite Heq. by apply list_elem_of_fmap_2.
Qed.

Context {A : Type} (keyOf : A → string).

Lemma groupCount_snoc rows row :
  groupCount keyOf (rows ++ [row]) = countInto (groupCount keyOf rows) (keyOf row).
Proof. unfold groupCount. by rewrite fold_left_app. Qed.

Lemma groupCount_keys_NoDup rows : NoDup (key <$> groupCount keyOf rows).
Proof.
  induction rows as [|row rows IH] using rev_ind; [constructor|].
  rewrite groupCount_snoc, keys_countInto. case_decide; [done|].
  apply NoDup_app. split_and!; [done| |apply NoDup_singleton].
  by intros x Hx ->%list_elem_of_singleton.
Qed.

Lemma groupCount_keys rows k :
  k ∈ key <$> groupCount keyOf rows ↔ k ∈ keyOf <$> rows.
Proof.
  induction rows as [|row rows IH] using rev_ind; [done|].
  rewrite groupCount_snoc, keys_countInto, fmap_app, elem_of_app.
  simpl. rewrite list_elem_of_singleton. case_decide as Hin.
  - rewrite IH. split; [by left|]. intros [?| ->]; [done|]. by apply IH.
  - by rewrite elem_of_app, list_elem_of_singleton, IH.
Qed.

Lemma groupCount_recorded rows k :
  recorded k (groupCount keyOf rows) = Spec.carrying keyOf k rows.
Proof.
  unfold Spec.carrying.
  induction rows as [|row rows IH] using rev_ind; [done|].
  rewrite groupCount_snoc, recorded_countInto, IH, filter_app, length_app.
  rewrite filter_cons, filter_nil. by case_decide.
Qed.

Lemma groupCount_total rows :
  sum_list_with count (groupCount keyOf rows) = length rows.
Proof.
  induction rows as [|row rows IH] using rev_ind; [done|].
  rewrite groupCount_snoc, total_countInto, IH, length_app. simpl. lia.
Qed.

Lemma groupCount_positive rows :
  Forall (λ it, 1 ≤ count it) (groupCount keyOf rows).
Proof.
  induction rows as [|row rows IH] using rev_ind; [constructor|].
  rewrite groupCount_snoc. by apply positive_countInto.
Qed.

(** The grouped list records [n] for [k] exactly when [k] is the key of
    some row and [n] is the number of rows with that key. *)
Lemma groupCount_exact rows k n :
  Spec.records k n (groupCount keyOf rows) ↔
  k ∈ keyOf <$> rows ∧ n = Spec.carrying keyOf k rows.
Proof.
  unfold Spec.records. split.
  - intros Hin. split.
    + apply groupCount_keys. by apply (list_elem_of_fmap_2 key) in Hin.
    + rewrite <- groupCount_recorded. symmetry.
      exact (recorded_NoDup _ _ (groupCount_keys_NoDup rows) Hin).
  - intros [Hk ->]. apply groupCount_keys in Hk.
    apply list_elem_of_fmap in Hk as ([k' n'] & Hkey & Hin). simpl in Hkey. subst k'.
    pose proof (recorded_NoDup _ _ (groupCount_keys_NoDup rows) Hin) as Hn.
    simpl in Hn. by rewrite <- groupCount_recorded, Hn.
Qed.

(** The three shape properties of a grouped list. *)
Lemma groupCount_shape rows :
  NoDup (key <$> groupCount keyOf rows)
  ∧ Forall (λ it, 1 ≤ count it) (groupCount keyOf rows)
  ∧ sum_list_with count (groupCount keyOf rows) = length rows.
Proof.
  auto using groupCount_keys_NoDup, groupCount_positive, groupCount_total.
Qed.

End Grouping.

Section AnalyticsGroups.
Import Database AnalyticsScreen.
Variable parseDate : string → JsDate.Date.
Variable toLocaleMonth : JsDate.Date → string.

(** C7. The grouped lists hold, for each status, region and registration
    month present in the fetched rows, that key with the exact number of
    rows carrying it, and nothing else. *)
Theorem analytics_grouping_exact
    (plans : list SurgeryPlan) (patients registrations : list Profile)
    (prev : AnalyticsData) :
  let monthOf p := toLocaleMonth (parseDate (profile_created_at p)) in
  (∀ k n,
     Spec.records k n (plansByStatus (loadPlanStats (Some plans) prev)) ↔
     k ∈ plan_status <$> plans ∧ n = Spec.carrying plan_status k plans)
  ∧ (∀ k n,
     Spec.records k n (patientsByRegion (loadRegionStats (Some patients) prev)) ↔
     k ∈ profile_region <$> patients ∧ n = Spec.carrying profile_region k patients)
  ∧ (∀ k n,
     Spec.records k n
       (monthlyRegistrations
          (loadMonthlyStats parseDate toLocaleMonth (Some registrations) prev)) ↔
     k ∈ monthOf <$> registrations ∧ n = Spec.carrying monthOf k registrations).
Proof.
  intros monthOf. split_and!; intros k n; apply groupCount_exact.
Qed.

(** C9. In each grouped list the keys are pairwise distinct, every count
    is at least 1, and the counts add up to the number of input rows. *)
Theorem analytics_grouping_shape
    (plans : list SurgeryPlan) (patients registrations : list Profile)
    (prev : AnalyticsData) :
  let shape (counts : list Count) (rows : nat) :=
    NoDup (key <$> counts)
    ∧ Forall (λ it, 1 ≤ count it) counts
    ∧ sum_list_with count counts = rows in
  shape (plansByStatus (loadPlanStats (Some plans) prev)) (length plans)
  ∧ shape (patientsByRegion (loadRegionStats (Some patients) prev)) (length patients)
  ∧ shape (monthlyRegistrations
             (loadMonthlyStats parseDate toLocaleMonth (Some registrations) prev))
          (length registrations).
Proof.
  intros shape. split_and!; apply groupCount_shape.
Qed.

End AnalyticsGroups.

Example groupCount_ex1 :
  AnalyticsScreen.groupCount id ["AU"; "NZ"; "AU"; "TH"; "AU"; "NZ"]
  = [ {| AnalyticsScreen.key := "AU"; AnalyticsScreen.count := 3 |};
      {| AnalyticsScreen.key := "NZ"; AnalyticsScreen.count := 2 |};
      {| AnalyticsScreen.key := "TH"; AnalyticsScreen.count := 1 |} ].
Proof. reflexivity. Qed.

(** ** The analytics screen: task completion rate *)

Example Math_round_ex1 :
  JsNumber.Math_round (JsNumber.div (JsNumber.ofNat 5) (JsNumber.ofNat 2))
  = JsNumber.ofNat 3.
Proof. reflexivity. Qed.

Example Math_round_ex2 :
  JsNumber.Math_round (JsNumber.div (JsNumber.ofZ (-5)) (JsNumber.ofNat 2))
  = JsNumber.ofZ (-2).
Proof. reflexivity. Qed.

Example Math_round_ex3 :
  JsNumber.Math_round (JsNumber.div (JsNumber.ofZ (-1)) (JsNumber.ofNat 4))
  = S754_zero true.
Proof. reflexivity. Qed.

(** 23/40 is 0.575; in binary64 the quotient times 100 falls just below
    57.5. *)
Example doubleRate_23_40 :
  JsNumber.mul (JsNumber.div (JsNumber.ofNat 23) (JsNumber.ofNat 40))
               (JsNumber.ofNat 100)
  = S754_finite false 8092405580431359 (-47)
  ∧ Aux.doubleRate 23 40 = JsNumber.ofNat 57.
Proof. by vm_compute. Qed.

(** *** Binary64 division and multiplication

    The operations of the Standard Library's [SpecFloat] at precision 53,
    followed through their shifts and roundings: on positive normal
    numbers the result of a division or a multiplication is within a
    relative error of 2^-53 of the exact value. *)

Section Binary64.
Import Aux JsNumber.
Local Open Scope Z_scope.

(** The number of binary digits brackets the number between two powers
    of two. *)
Lemma digits2_pos_bounds p :
  2 ^ (Zpos (digits2_pos p) - 1) <= Zpos p < 2 ^ Zpos (digits2_pos p).
Proof.
  induction p as [p IH|p IH|]; simpl digits2_pos.
  - rewrite Pos2Z.inj_succ, Z.pow_succ_r by lia.
    replace (Z.succ (Zpos (digits2_pos p)) - 1) with (Z.succ (Zpos (digits2_pos p) - 1)) by lia.
    rewrite Z.pow_succ_r by lia. lia.
  - rewrite Pos2Z.inj_succ, Z.pow_succ_r by lia.
    replace (Z.succ (Zpos (digits2_pos p)) - 1) with (Z.succ (Zpos (digits2_pos p) - 1)) by lia.
    rewrite Z.pow_succ_r by lia. lia.
  - simpl. lia.
Qed.

Lemma Zdigits2_bounds m :
  0 < m → 2 ^ (Zdigits2 m - 1) <= m < 2 ^ Zdigits2 m.
Proof. destruct m as [|p|p]; [lia| |lia]. intros _. apply digits2_pos_bounds. Qed.

Lemma Zdigits2_unique m d :
  2 ^ (d - 1) <= m < 2 ^ d → 0 < d → Zdigits2 m = d.
Proof.
  intros [Hlo Hhi] Hd.
  assert (0 < m) as Hm by (pose proof (Z.pow_pos_nonneg 2 (d - 1)); lia).
  destruct (Zdigits2_bounds m Hm) as [Hlo' Hhi'].
  assert (0 < Zdigits2 m) by (destruct m; simpl; lia).
  assert (d - 1 < Zdigits2 m) by (apply (Z.pow_lt_mono_r_iff 2); lia).
  assert (Zdigits2 m - 1 < d) by (apply (Z.pow_lt_mono_r_iff 2); lia).
  lia.
Qed.

Lemma Rep_of_loc m A B :
  0 <= m → m * B <= A < (m + 1) * B →
  Rep (shr_record_of_loc m (locOf (A - m * B) B)) A B.
Proof.
  intros Hm HA. unfold Rep.
  assert (∀ l, shr_m (shr_record_of_loc m l) = m) as Hsm by (by intros [|[]]).
  assert (∀ l, loc_of_shr_record (shr_record_of_loc m l) = l) as Hl by (by intros [|[]]).
  by rewrite Hsm, Hl.
Qed.

Lemma loc_of_record_facts m r s (D B : Z) :
  0 <= D →
  loc_of_shr_record (Build_shr_record m r s) = locOf D B →
  match r, s with
  | false, false => D = 0
  | false, true => 0 < D ∧ 2 * D < B
  | true, false => 0 < D ∧ 2 * D = B
  | true, true => 0 < D ∧ B < 2 * D
  end.
Proof.
  intros HD. unfold locOf. simpl.
  destruct (Z.eqb_spec D 0) as [->|Hne]; destruct r, s; try discriminate; try done.
  all: intros [= Hc]; symmetry in Hc; split; [lia|].
  - by apply Z.compare_gt_iff in Hc.
  - by apply Z.compare_eq_iff in Hc.
  - by apply Z.compare_lt_iff in Hc.
Qed.

Lemma locOf_intro (D B : Z) (r s : bool) m :
  match r, s with
  | false, false => D = 0
  | false, true => 0 < D ∧ 2 * D < B
  | true, false => 0 < D ∧ 2 * D = B
  | true, true => 0 < D ∧ B < 2 * D
  end →
  loc_of_shr_record (Build_shr_record m r s) = locOf D B.
Proof.
  unfold locOf. simpl. destruct r, s.
  - intros [H1 H2]. destruct (Z.eqb_spec D 0); [lia|].
    f_equal. symmetry. by apply Z.compare_gt_iff.
  - intros [H1 H2]. destruct (Z.eqb_spec D 0); [lia|].
    f_equal. symmetry. by apply Z.compare_eq_iff.
  - intros [H1 H2]. destruct (Z.eqb_spec D 0); [lia|].
    f_equal. symmetry. by apply Z.compare_lt_iff.
  - intros ->. reflexivity.
Qed.

(** One shift to the right halves the scale: the same fraction is read
    against twice the denominator. *)
Lemma shr_1_Rep mrs A B : 0 < B → Rep mrs A B → Rep (shr_1 mrs) A (2 * B).
Proof.
  intros HB (Hm & HA & Hloc). destruct mrs as [m r s]. cbn [shr_m] in Hm, HA, Hloc.
  apply loc_of_record_facts in Hloc; [|lia].
  assert (∃ p b, m = 2 * p + Z.b2z b ∧ 0 <= p
                 ∧ shr_1 (Build_shr_record m r s) = Build_shr_record p b (r || s))
    as (p & b & -> & Hp & ->).
  { destruct m as [|[p|p|]|p]; try lia.
    - by exists 0, false.
    - exists (Zpos p), true. by rewrite (Pos2Z.inj_xI p).
    - exists (Zpos p), false. by rewrite (Pos2Z.inj_xO p).
    - by exists 0, true. }
  unfold Rep. cbn [shr_m]. split; [lia|]. split.
  - destruct b, r, s; cbn [Z.b2z] in *; lia.
  - apply locOf_intro. destruct b, r, s; cbn [Z.b2z orb] in *; lia.
Qed.

Lemma Zpow2_pos k : 0 < 2 ^ Zpos k.
Proof. by apply Z.pow_pos_nonneg. Qed.

Lemma iter_shr_1_Rep p : ∀ mrs A B,
  0 < B → Rep mrs A B → Rep (SpecFloat.iter_pos shr_1 p mrs) A (B * 2 ^ Zpos p).
Proof.
  induction p as [p IH|p IH|]; intros mrs A B HB HR; cbn [SpecFloat.iter_pos].
  - apply shr_1_Rep in HR; [|done].
    pose proof (Zpow2_pos p) as Hp.
    apply IH in HR; [|lia].
    apply IH in HR; [|by apply Z.mul_pos_pos; [lia|]].
    replace (B * 2 ^ Zpos p~1) with (2 * B * 2 ^ Zpos p * 2 ^ Zpos p); [done|].
    rewrite (Pos2Z.inj_xI p), Z.pow_add_r by lia.
    replace (2 * Zpos p) with (Zpos p + Zpos p) by lia.
    rewrite Z.pow_add_r by lia. rewrite Z.pow_1_r. ring.
  - pose proof (Zpow2_pos p) as Hp.
    apply IH in HR; [|lia].
    apply IH in HR; [|by apply Z.mul_pos_pos].
    replace (B * 2 ^ Zpos p~0) with (B * 2 ^ Zpos p * 2 ^ Zpos p); [done|].
    rewrite (Pos2Z.inj_xO p).
    replace (2 * Zpos p) with (Zpos p + Zpos p) by lia.
    rewrite Z.pow_add_r by lia. ring.
  - apply shr_1_Rep in HR; [|done]. rewrite Z.pow_1_r. by rewrite Z.mul_comm.
Qed.

(** Rounding to nearest, ties to even, lands within half a unit of the
    fraction. *)
Lemma round_nearest_Rep mrs A B :
  0 < B → Rep mrs A B →
  let m1 := round_nearest_even (shr_m mrs) (loc_of_shr_record mrs) in
  shr_m mrs <= m1 <= shr_m mrs + 1 ∧ - B <= 2 * (m1 * B - A) <= B.
Proof.
  intros HB (Hm & HA & Hloc). destruct mrs as [m r s]. cbn [shr_m] in Hm, HA, Hloc |- *.
  apply loc_of_record_facts in Hloc; [|lia].
  destruct r, s; cbn [loc_of_shr_record round_nearest_even]; try destruct (Z.even m); lia.
Qed.

Lemma shr_Rep m A B e k :
  0 < B → 0 <= m → m * B <= A < (m + 1) * B → 0 <= k →
  ∃ mrs, shr (shr_record_of_loc m (locOf (A - m * B) B)) e k = (mrs, e + k)
         ∧ Rep mrs A (B * 2 ^ k).
Proof.
  intros HB Hm HA Hk. pose proof (Rep_of_loc m A B Hm HA) as HR.
  destruct k as [|p|p]; [| |lia]; cbn [shr].
  - eexists. split; [by rewrite Z.add_0_r|]. by rewrite Z.pow_0_r, Z.mul_1_r.
  - eexists. split; [done|]. by apply iter_shr_1_Rep.
Qed.

Lemma mul_cancel_lt a b X : 0 < X → a * X < b * X → a < b.
Proof. intros HX H. by apply Z.mul_lt_mono_pos_r in H. Qed.

(** Rounding a mantissa of at least 53 digits that stands for [A / B] at
    exponent [e], in the normal range: the result is a normal number whose
    mantissa, at the exponent [e1] of the rounding, is within half a unit
    of the fraction at that scale. *)
Lemma binary_round_aux_spec m e A B :
  0 < B → 0 < m → m * B <= A < (m + 1) * B →
  53 <= Zdigits2 m →
  -1074 <= Zdigits2 m + e - 53 < 971 →
  let k := Zdigits2 m - 53 in
  let e1 := e + k in
  ∃ (m' : positive) (e' : Z),
    binary_round_aux 53 1024 false m e (locOf (A - m * B) B)
      = S754_finite false m' e'
    ∧ 2 ^ 52 <= Zpos m' < 2 ^ 53
    ∧ e1 <= e' <= e1 + 1
    ∧ - (B * 2 ^ k) <= 2 * (Zpos m' * 2 ^ (e' - e1) * (B * 2 ^ k) - A) <= B * 2 ^ k
    ∧ 2 ^ 52 * (B * 2 ^ k) <= A.
Proof.
  intros HB Hm HA Hd He k e1.
  assert (0 <= k) as Hk by (subst k; lia).
  destruct (shr_Rep m A B e k HB ltac:(lia) HA Hk) as (mrs & Hshr & HR).
  pose proof (Zdigits2_bounds m Hm) as [Hlo Hhi].
  set (P := 2 ^ k) in *. set (X := B * P) in *.
  assert (0 < P) as HP by (subst P; by apply Z.pow_pos_nonneg).
  assert (0 < X) as HX by (subst X; by apply Z.mul_pos_pos).
  assert (2 ^ Zdigits2 m = 2 ^ 53 * P) as Hd1.
  { subst P k. rewrite <- Z.pow_add_r by lia. f_equal. lia. }
  assert (2 ^ (Zdigits2 m - 1) = 2 ^ 52 * P) as Hd2.
  { subst P k. rewrite <- Z.pow_add_r by lia. f_equal. lia. }
  rewrite Hd1 in Hhi. rewrite Hd2 in Hlo.
  assert (2 ^ 52 * X <= m * B) as HmB.
  { subst X. rewrite Z.mul_assoc, (Z.mul_comm _ P), Z.mul_assoc, (Z.mul_comm P).
    apply Z.mul_le_mono_nonneg_r; lia. }
  assert ((m + 1) * B <= 2 ^ 53 * X) as HmB'.
  { subst X. rewrite Z.mul_assoc, (Z.mul_comm _ P), Z.mul_assoc, (Z.mul_comm P).
    apply Z.mul_le_mono_nonneg_r; lia. }
  destruct (round_nearest_Rep mrs A X HX HR) as [Hm1 Herr].
  destruct HR as (Hms & HAs & _).
  set (ms := shr_m mrs) in *.
  set (m1 := round_nearest_even ms (loc_of_shr_record mrs)) in *.
  assert (ms < 2 ^ 53) as Hms_hi by (apply (mul_cancel_lt _ _ X HX); lia).
  assert (2 ^ 52 <= ms) as Hms_lo.
  { assert (2 ^ 52 < ms + 1); [|lia]. apply (mul_cancel_lt _ _ X HX). lia. }
  unfold binary_round_aux, shr_fexp at 1, fexp, emin.
  replace (Z.max (Zdigits2 m + e - 53) (3 - 1024 - 53) - e) with k by (subst k; lia).
  rewrite Hshr. fold ms m1. fold e1.
  destruct (Z.eq_dec m1 (2 ^ 53)) as [Heq|Hne].
  - rewrite Heq. unfold shr_fexp, fexp, emin.
    replace (Zdigits2 (2 ^ 53)) with 54 by reflexivity.
    replace (Z.max (54 + e1 - 53) (3 - 1024 - 53) - e1) with 1 by (subst e1 k; lia).
    cbn [shr_record_of_loc shr SpecFloat.iter_pos].
    change (shr_1 (Build_shr_record (2 ^ 53) false false))
      with (Build_shr_record (2 ^ 52) false false).
    cbn [shr_m]. change (2 ^ 52) with (Zpos 4503599627370496) at 1.
    cbv iota beta.
    replace (e1 + 1 <=? 1024 - 53) with true
      by (symmetry; apply Z.leb_le; subst e1 k; lia).
    exists 4503599627370496%positive, (e1 + 1). split; [done|].
    split; [by vm_compute|]. split; [lia|].
    replace (e1 + 1 - e1) with 1 by lia.
    change (Zpos 4503599627370496 * 2 ^ 1) with (2 ^ 53). rewrite <- Heq.
    split; [lia|]. lia.
  - assert (Zdigits2 m1 = 53) as Hd53 by (apply Zdigits2_unique; lia).
    unfold shr_fexp, fexp, emin. rewrite Hd53.
    replace (Z.max (53 + e1 - 53) (3 - 1024 - 53) - e1) with 0 by (subst e1 k; lia).
    cbn [shr].
    assert (shr_m (shr_record_of_loc m1 loc_Exact) = m1) as -> by reflexivity.
    destruct m1 as [|p1|p1] eqn:Em1; [lia| |lia].
    replace (e1 <=? 1024 - 53) with true
      by (symmetry; apply Z.leb_le; subst e1 k; lia).
    exists p1, e1. split; [done|]. split; [lia|]. split; [lia|].
    rewrite Z.sub_diag, Z.pow_0_r, Z.mul_1_r. split; [lia|]. lia.
Qed.

Lemma pow2_pos e : (0 < pow2 e)%Q.
Proof. by apply Qpower_0_lt. Qed.

Lemma pow2_add a b : (pow2 (a + b) == pow2 a * pow2 b)%Q.
Proof. by apply Qpower_plus. Qed.

Lemma pow2_Z k : 0 <= k → (pow2 k == inject_Z (2 ^ k))%Q.
Proof. intros Hk. unfold pow2. by rewrite Zpower_Qpower. Qed.

(** An integer bound on a scaled error, read over the rationals. *)
Lemma relative_error_Q (M A B : Z) (w : Q) :
  0 < B → 0 <= A → (0 < w)%Q →
  - A <= 2 ^ 53 * (M * B - A) <= A →
  (Qabs (inject_Z M * w - inject_Z A / inject_Z B * w)
   <= inject_Z A / inject_Z B * w * pow2 (-53))%Q.
Proof.
  intros HB HA Hw [Hlo Hhi].
  assert (0 < inject_Z B)%Q as HBq by (rewrite <- (Zlt_Qlt 0); lia).
  set (r := (inject_Z A / inject_Z B)%Q).
  assert (r * inject_Z B == inject_Z A)%Q as Hr.
  { subst r. field. lra. }
  assert (0 <= r)%Q as Hr0.
  { subst r. apply Qle_shift_div_l; [done|]. rewrite Qmult_0_l.
    rewrite <- (Zle_Qle 0). lia. }
  assert (2 ^ 53 * A <= 2 ^ 53 * (M * B) + A) as Hlo' by lia.
  assert (2 ^ 53 * (M * B) <= A + 2 ^ 53 * A) as Hhi' by lia.
  rewrite Zle_Qle in Hlo', Hhi'.
  rewrite !inject_Z_plus, !inject_Z_mult in Hlo', Hhi'.
  rewrite <- Hr in Hlo', Hhi'.
  change (inject_Z (2 ^ 53)) with (9007199254740992 # 1)%Q in Hlo', Hhi'.
  assert (pow2 (-53) == 1 # 9007199254740992)%Q as Hu by reflexivity.
  rewrite Hu.
  set (mq := inject_Z M) in *. set (b := inject_Z B) in *.
  assert (- r <= (9007199254740992 # 1) * (mq - r) <= r)%Q as [H1 H2].
  { split.
    - apply (Qmult_le_r _ _ b HBq). lra.
    - apply (Qmult_le_r _ _ b HBq). lra. }
  apply Qabs_Qle_condition.
  pose proof (Qmult_le_0_compat (mq - r + r * (1 # 9007199254740992)) w
                ltac:(lra) ltac:(lra)) as Ha.
  pose proof (Qmult_le_0_compat (r * (1 # 9007199254740992) - (mq - r)) w
                ltac:(lra) ltac:(lra)) as Hb.
  split; lra.
Qed.

(** The same over the rationals: a relative error of at most 2^-53. *)
Lemma round_Q m e A B :
  0 < B → 0 < m → m * B <= A < (m + 1) * B →
  53 <= Zdigits2 m →
  -1074 <= Zdigits2 m + e - 53 < 971 →
  ∃ (m' : positive) (e' : Z),
    binary_round_aux 53 1024 false m e (locOf (A - m * B) B)
      = S754_finite false m' e'
    ∧ 2 ^ 52 <= Zpos m' < 2 ^ 53
    ∧ e + (Zdigits2 m - 53) <= e' <= e + (Zdigits2 m - 53) + 1
    ∧ (Qabs (F2Q (Zpos m') e' - inject_Z A / inject_Z B * pow2 e)
       <= inject_Z A / inject_Z B * pow2 e * pow2 (-53))%Q.
Proof.
  intros HB Hm HA Hd He.
  destruct (binary_round_aux_spec m e A B HB Hm HA Hd He)
    as (m' & e' & Hres & Hcan & Hexp & Herr & Hmag).
  exists m', e'. cbv zeta in Hexp, Herr, Hmag.
  split_and!; [done|lia|lia|lia|lia|].
  set (k := Zdigits2 m - 53) in *. set (e1 := e + k) in *.
  assert (0 <= k) by (subst k; lia).
  assert (0 < 2 ^ k) by (by apply Z.pow_pos_nonneg).
  assert (0 <= A) by nia.
  set (M1 := Zpos m' * 2 ^ (e' - e1)) in *.
  assert (F2Q (Zpos m') e' == inject_Z (M1 * 2 ^ k) * pow2 e)%Q as HF.
  { unfold F2Q. replace e' with ((e' - e1) + k + e) at 1 by (subst e1; lia).
    rewrite !pow2_add, (pow2_Z (e' - e1)), (pow2_Z k) by lia.
    subst M1. rewrite !inject_Z_mult. ring. }
  rewrite HF.
  apply relative_error_Q; [done|done|apply pow2_pos|].
  replace (M1 * 2 ^ k * B) with (M1 * (B * 2 ^ k)) by ring.
  split; lia.
Qed.

(** Shifting a positive to the left. *)
Lemma iter_xO p d : Zpos (Pos.iter xO p d) = Zpos p * 2 ^ Zpos d.
Proof.
  induction d as [|d IH] using Pos.peano_ind.
  - simpl. lia.
  - rewrite Pos.iter_succ, Pos2Z.inj_xO, IH, Pos2Z.inj_succ, Z.pow_succ_r by lia.
    ring.
Qed.

(** A positive integer below 2^53 converts exactly. *)
Lemma ofZ_Normal n :
  0 < n < 2 ^ 53 →
  ∃ (m : positive) (e : Z),
    binary_normalize 53 1024 n 0 false = S754_finite false m e
    ∧ 2 ^ 52 <= Zpos m < 2 ^ 53 ∧ -52 <= e <= 0
    ∧ Zpos m = n * 2 ^ (- e).
Proof.
  intros Hn. destruct n as [|p|p]; [lia| |lia].
  unfold binary_normalize, binary_round.
  pose proof (digits2_pos_bounds p) as [Hlo Hhi].
  set (d := Zpos (digits2_pos p)) in *.
  assert (0 < d) as Hd0 by (subst d; lia).
  assert (d <= 53) as Hd.
  { assert (d - 1 < 53); [|lia]. apply (Z.pow_lt_mono_r_iff 2); lia. }
  assert (fexp 53 1024 (d + 0) = d - 53) as ->.
  { unfold fexp, emin. lia. }
  assert (∃ mz : positive,
             shl_align p 0 (d - 53) = (mz, d - 53)
             ∧ Zpos mz = Zpos p * 2 ^ (53 - d)) as (mz & -> & Hmz).
  { unfold shl_align. destruct (d - 53 - 0) as [|q|q] eqn:Eq; [|lia|].
    - exists p. replace (d - 53) with 0 by lia. replace (53 - d) with 0 by lia.
      split; [done|]. simpl. lia.
    - eexists. split; [done|]. rewrite iter_xO. f_equal. f_equal. lia. }
  assert (2 ^ 52 <= Zpos mz < 2 ^ 53) as Hcan.
  { rewrite Hmz.
    assert (2 ^ 52 = 2 ^ (d - 1) * 2 ^ (53 - d)) as ->
      by (rewrite <- Z.pow_add_r by lia; f_equal; lia).
    assert (2 ^ 53 = 2 ^ d * 2 ^ (53 - d)) as ->
      by (rewrite <- Z.pow_add_r by lia; f_equal; lia).
    assert (0 < 2 ^ (53 - d)) by (apply Z.pow_pos_nonneg; lia).
    split; [apply Z.mul_le_mono_nonneg_r; lia | apply Z.mul_lt_mono_pos_r; lia]. }
  assert (Zdigits2 (Zpos mz) = 53) as Hdz by (apply Zdigits2_unique; lia).
  destruct (binary_round_aux_spec (Zpos mz) (d - 53) (Zpos mz) 1)
    as (m' & e' & Hres & Hcan' & Hexp & Herr & _); try lia.
  rewrite Z.mul_1_r, Z.sub_diag in Hres. change (locOf 0 1) with loc_Exact in Hres.
  rewrite Hres. exists m', e'. split; [done|]. split; [done|].
  rewrite Hdz in Hexp, Herr. rewrite Z.sub_diag, Z.add_0_r in Hexp, Herr.
  rewrite Z.pow_0_r, !Z.mul_1_r in Herr.
  assert (e' = d - 53) as ->.
  { destruct (Z.eq_dec e' (d - 53)) as [|Hne]; [done|].
    replace (e' - (d - 53)) with 1 in Herr by lia. rewrite Z.pow_1_r in Herr. lia. }
  rewrite Z.sub_diag, Z.pow_0_r, Z.mul_1_r in Herr.
  split; [lia|]. replace (- (d - 53)) with (53 - d) by lia. lia.
Qed.

(** The location that division computes from a remainder. *)
Lemma new_location_spec B r : 0 < B → 0 <= r < B → new_location B r = locOf r B.
Proof.
  intros HB Hr. unfold new_location, new_location_even, new_location_odd, locOf.
  destruct (Z.even B) eqn:Heven; destruct (Z.eqb_spec r 0) as [->|Hne]; try done.
  f_equal.
  assert (Z.odd B = true) as Hodd by (by rewrite <- Z.negb_even, Heven).
  apply Z.odd_spec in Hodd as [j ->].
  destruct (Z.compare_spec (2 * r + 1) (2 * j + 1)),
           (Z.compare_spec (2 * r) (2 * j + 1)); (done || lia).
Qed.

Lemma pow2_opp e : (pow2 (- e) == / pow2 e)%Q.
Proof. apply Qpower_opp. Qed.

Lemma canonical_digits (m : positive) :
  2 ^ 52 <= Zpos m < 2 ^ 53 → Zdigits2 (Zpos m) = 53.
Proof. intros H. by apply Zdigits2_unique. Qed.

Lemma digits_at_least m d : 2 ^ d <= m → 0 <= d → d + 1 <= Zdigits2 m.
Proof.
  intros Hm Hd.
  assert (0 < m) as Hpos by (pose proof (Z.pow_pos_nonneg 2 d); lia).
  destruct (Zdigits2_bounds m Hpos) as [_ Hhi].
  assert (0 < Zdigits2 m) by (destruct m; simpl; lia).
  assert (d < Zdigits2 m); [|lia]. apply (Z.pow_lt_mono_r_iff 2); lia.
Qed.

Lemma digits_at_most m d : 0 < m < 2 ^ d → 0 <= d → Zdigits2 m <= d.
Proof.
  intros Hm Hd. destruct (Zdigits2_bounds m ltac:(lia)) as [Hlo _].
  assert (Zdigits2 m - 1 < d); [|lia]. apply (Z.pow_lt_mono_r_iff 2); lia.
Qed.

(** Division of two positive normal numbers. *)
Lemma SFdiv_Normal (mx my : positive) (ex ey : Z) :
  2 ^ 52 <= Zpos mx < 2 ^ 53 → 2 ^ 52 <= Zpos my < 2 ^ 53 →
  -60 <= ex <= 60 → -60 <= ey <= 60 →
  ∃ (m' : positive) (e' : Z),
    SFdiv 53 1024 (S754_finite false mx ex) (S754_finite false my ey)
      = S754_finite false m' e'
    ∧ 2 ^ 52 <= Zpos m' < 2 ^ 53
    ∧ ex - ey - 53 <= e' <= ex - ey - 51
    ∧ (Qabs (F2Q (Zpos m') e' - F2Q (Zpos mx) ex / F2Q (Zpos my) ey)
       <= F2Q (Zpos mx) ex / F2Q (Zpos my) ey * pow2 (-53))%Q.
Proof.
  intros Hx Hy Hex Hey.
  unfold SFdiv, SFdiv_core_binary.
  rewrite (canonical_digits mx Hx), (canonical_digits my Hy).
  assert (Z.min (fexp 53 1024 (53 + ex - (53 + ey))) (ex - ey) = ex - ey - 53) as ->
    by (unfold fexp, emin; lia).
  replace (ex - ey - (ex - ey - 53)) with 53 by lia.
  cbv iota beta. rewrite Z.shiftl_mul_pow2 by lia.
  set (A := Zpos mx * 2 ^ 53). set (B := Zpos my).
  pose proof (Z.div_eucl_eq A B ltac:(subst B; lia)) as Hdiv.
  pose proof (Z.mod_pos_bound A B ltac:(subst B; lia)) as Hmod.
  unfold Z.modulo in Hmod.
  destruct (Z.div_eucl A B) as [q r]. cbv iota beta in Hdiv, Hmod |- *.
  assert (0 < B) as HB by (subst B; lia).
  assert (2 ^ 52 <= q < 2 ^ 54) as Hq.
  { subst A B. split; nia. }
  rewrite (new_location_spec B r HB Hmod).
  replace r with (A - q * B) by lia.
  destruct (round_Q q (ex - ey - 53) A B) as (m' & e' & Hres & Hcan & Hexp & Herr);
    try lia.
  { apply (digits_at_least q 52); lia. }
  { pose proof (digits_at_least q 52 ltac:(lia) ltac:(lia)).
    pose proof (digits_at_most q 54 ltac:(lia) ltac:(lia)). lia. }
  exists m', e'. split; [done|]. split; [done|]. split.
  { pose proof (digits_at_least q 52 ltac:(lia) ltac:(lia)).
    pose proof (digits_at_most q 54 ltac:(lia) ltac:(lia)). lia. }
  assert (inject_Z A / inject_Z B * pow2 (ex - ey - 53)
          == F2Q (Zpos mx) ex / F2Q (Zpos my) ey)%Q as Hy'.
  { unfold F2Q. subst A B.
    replace (ex - ey - 53) with (ex + (- ey) + (-53)) by lia.
    rewrite !pow2_add, pow2_opp, inject_Z_mult.
    change (inject_Z (2 ^ 53)) with (9007199254740992 # 1)%Q.
    assert (pow2 (-53) == 1 # 9007199254740992)%Q as -> by reflexivity.
    pose proof (pow2_pos ey). pose proof (pow2_pos ex).
    assert (0 < inject_Z (Zpos my))%Q by (by rewrite <- (Zlt_Qlt 0)).
    field. split; lra. }
  rewrite Hy' in Herr. exact Herr.
Qed.

(** Multiplication of two positive normal numbers. *)
Lemma SFmul_Normal (mx my : positive) (ex ey : Z) :
  2 ^ 52 <= Zpos mx < 2 ^ 53 → 2 ^ 52 <= Zpos my < 2 ^ 53 →
  -400 <= ex <= 400 → -400 <= ey <= 400 →
  ∃ (m' : positive) (e' : Z),
    SFmul 53 1024 (S754_finite false mx ex) (S754_finite false my ey)
      = S754_finite false m' e'
    ∧ 2 ^ 52 <= Zpos m' < 2 ^ 53
    ∧ ex + ey + 52 <= e' <= ex + ey + 54
    ∧ (Qabs (F2Q (Zpos m') e' - F2Q (Zpos mx) ex * F2Q (Zpos my) ey)
       <= F2Q (Zpos mx) ex * F2Q (Zpos my) ey * pow2 (-53))%Q.
Proof.
  intros Hx Hy Hex Hey. unfold SFmul. cbn [xorb].
  set (m := Zpos (mx * my)).
  assert (m = Zpos mx * Zpos my) as Hm by (subst m; lia).
  assert (2 ^ 104 <= m < 2 ^ 106) as Hrange.
  { rewrite Hm. change (2 ^ 104) with (2 ^ 52 * 2 ^ 52).
    change (2 ^ 106) with (2 ^ 53 * 2 ^ 53). split; nia. }
  pose proof (digits_at_least m 104 ltac:(lia) ltac:(lia)) as Hd1.
  pose proof (digits_at_most m 106 ltac:(lia) ltac:(lia)) as Hd2.
  destruct (round_Q m (ex + ey) m 1) as (m' & e' & Hres & Hcan & Hexp & Herr);
    try lia.
  rewrite Z.mul_1_r, Z.sub_diag in Hres. change (locOf 0 1) with loc_Exact in Hres.
  exists m', e'. split; [done|]. split; [done|]. split; [lia|].
  assert (inject_Z m / inject_Z 1 * pow2 (ex + ey)
          == F2Q (Zpos mx) ex * F2Q (Zpos my) ey)%Q as Hy'.
  { unfold F2Q. rewrite Hm, inject_Z_mult, pow2_add. field. }
  rewrite Hy' in Herr. exact Herr.
Qed.

Lemma F2Q_ofZ (m : positive) (e n : Z) :
  e <= 0 → Zpos m = n * 2 ^ (- e) → (F2Q (Zpos m) e == inject_Z n)%Q.
Proof.
  intros He Hm. unfold F2Q. rewrite Hm, inject_Z_mult, <- (pow2_Z (- e)) by lia.
  rewrite pow2_opp. pose proof (pow2_pos e). field. lra.
Qed.

(** [Math.round] of a positive number is the floor of the number plus
    one half. *)
Lemma Math_round_floor (m : positive) (e : Z) :
  ∃ n : Z,
    JsNumber.Math_round (S754_finite false m e)
      = (if n =? 0 then S754_zero false else JsNumber.ofZ n)
    ∧ (inject_Z n <= F2Q (Zpos m) e + (1 # 2) < inject_Z n + 1)%Q.
Proof.
  unfold JsNumber.Math_round. cbv zeta.
  destruct (Z.leb_spec 0 e) as [He|He].
  - exists (Zpos m * 2 ^ e). split; [done|].
    unfold F2Q. rewrite inject_Z_mult, <- (pow2_Z e) by lia. lra.
  - exists ((2 * Zpos m + 2 ^ (- e)) / 2 ^ (1 - e)). split; [done|].
    set (D := 2 ^ (- e)).
    assert (0 < D) as HD by (subst D; apply Z.pow_pos_nonneg; lia).
    assert (2 ^ (1 - e) = 2 * D) as ->.
    { subst D. replace (1 - e) with (1 + - e) by lia.
      rewrite Z.pow_add_r by lia. lia. }
    set (n := (2 * Zpos m + D) / (2 * D)).
    assert (2 * D * n <= 2 * Zpos m + D < 2 * D * (n + 1)) as [Hlo Hhi].
    { subst n. pose proof (Z.div_mod (2 * Zpos m + D) (2 * D) ltac:(lia)).
      pose proof (Z.mod_pos_bound (2 * Zpos m + D) (2 * D) ltac:(lia)). lia. }
    assert (F2Q (Zpos m) e == inject_Z (Zpos m) / inject_Z D)%Q as ->.
    { unfold F2Q. subst D. rewrite <- (pow2_Z (- e)), pow2_opp by lia.
      pose proof (pow2_pos e). field. lra. }
    assert (0 < inject_Z D)%Q as HDq by (by rewrite <- (Zlt_Qlt 0)).
    set (r := (inject_Z (Zpos m) / inject_Z D)%Q).
    assert (r * inject_Z D == inject_Z (Zpos m))%Q as Hr by (subst r; field; lra).
    rewrite Zle_Qle in Hlo. rewrite Zlt_Qlt in Hhi.
    rewrite !inject_Z_plus, !inject_Z_mult in Hlo, Hhi.
    rewrite inject_Z_plus in Hhi.
    rewrite <- Hr in Hlo, Hhi.
    change (inject_Z 2) with 2%Q in *. change (inject_Z 1) with 1%Q in *.
    set (d := inject_Z D) in *. set (nq := inject_Z n) in *.
    clearbody r d nq. clear Hr.
    split.
    + apply (Qmult_le_r _ _ (2 * d)); lra.
    + apply (Qmult_lt_r _ _ (2 * d)); lra.
Qed.

(** The exactly rounded percentage as a quotient, and the percentages
    that lie midway. *)
Lemma rounded_facts (C T : Z) :
  0 < T → 0 <= C →
  let E := (200 * C + T) / (2 * T) in
  2 * T * E <= 200 * C + T < 2 * T * (E + 1)
  ∧ ((200 * C) mod (2 * T) = T ↔ 200 * C + T = 2 * T * E).
Proof.
  intros HT HC E.
  pose proof (Z.div_mod (200 * C + T) (2 * T) ltac:(lia)) as Hdm.
  pose proof (Z.mod_pos_bound (200 * C + T) (2 * T) ltac:(lia)) as Hb.
  fold E in Hdm. split; [lia|]. split.
  - intros Hh.
    pose proof (Z.div_mod (200 * C) (2 * T) ltac:(lia)) as Hdm'.
    rewrite Hh in Hdm'.
    assert (E = (200 * C) / (2 * T) + 1); [|lia].
    subst E. replace (200 * C + T) with ((200 * C / (2 * T) + 1) * (2 * T) + 0) by lia.
    rewrite Z.div_add_l by lia. rewrite Z.div_0_l by lia. lia.
  - intros Hh. symmetry. apply (Z.mod_unique_pos _ _ (E - 1)); lia.
Qed.

Lemma hundred : ofNat 100 = S754_finite false 7036874417766400 (-46).
Proof. reflexivity. Qed.

(** The computed rate against the exactly rounded percentage, for every
    pair of counts with a total below 2^32. *)
Lemma doubleRate_general (c t : nat) :
  (0 < t)%nat → Z.of_nat t < 2 ^ 32 → (c <= t)%nat →
  let E := Spec.roundedPercentage c t in
  (¬ Spec.halfwayPercentage c t → Aux.doubleRate c t = ofZ E)
  ∧ (Spec.halfwayPercentage c t →
     Aux.doubleRate c t = ofZ E ∨ Aux.doubleRate c t = ofZ (E - 1)).
Proof.
  intros Ht0 Ht Hct E.
  set (C := Z.of_nat c). set (T := Z.of_nat t).
  assert (0 < T) as HT by (subst T; lia).
  assert (0 <= C <= T) as HC by (subst C T; lia).
  destruct (rounded_facts C T HT ltac:(lia)) as [HE Hhalf].
  fold C T in Ht. unfold Spec.halfwayPercentage. fold C T.
  unfold Spec.roundedPercentage in E. fold C T in E. fold E in HE, Hhalf.
  destruct (ofZ_Normal T ltac:(lia)) as (mt & et & Hxt & Hcant & Het & Hmt).
  change (ofZ T = S754_finite false mt et) in Hxt.
  destruct (Z.eq_dec C 0) as [HC0|HC0].
  { (* nothing completed *)
    assert (Aux.doubleRate c t = S754_zero false) as ->.
    { unfold Aux.doubleRate, ofNat. fold C T. rewrite HC0, Hxt. reflexivity. }
    assert (E = 0) as HE0.
    { subst E. rewrite HC0. apply Z.div_small. lia. }
    rewrite HE0. split; [done|]. intros _. by left. }
  destruct (ofZ_Normal C ltac:(lia)) as (mc & ec & Hxc & Hcanc & Hec & Hmc).
  change (ofZ C = S754_finite false mc ec) in Hxc.
  destruct (SFdiv_Normal mc mt ec et Hcanc Hcant ltac:(lia) ltac:(lia))
    as (m1 & e1 & Hx1 & Hcan1 & He1 & Herr1).
  change (div (S754_finite false mc ec) (S754_finite false mt et)
          = S754_finite false m1 e1) in Hx1.
  destruct (SFmul_Normal m1 7036874417766400 e1 (-46) Hcan1 ltac:(by vm_compute)
              ltac:(lia) ltac:(lia))
    as (m2 & e2 & Hx2 & Hcan2 & He2 & Herr2).
  change (mul (S754_finite false m1 e1) (S754_finite false 7036874417766400 (-46))
          = S754_finite false m2 e2) in Hx2.
  destruct (Math_round_floor m2 e2) as (n & Hround & Hfloor).
  assert (Aux.doubleRate c t = if n =? 0 then S754_zero false else ofZ n) as Hrate.
  { unfold Aux.doubleRate. rewrite hundred. unfold ofNat. fold C T.
    rewrite Hxc, Hxt, Hx1, Hx2. exact Hround. }
  (* the rationals *)
  rewrite (F2Q_ofZ mc ec C ltac:(lia) Hmc), (F2Q_ofZ mt et T ltac:(lia) Hmt) in Herr1.
  assert (F2Q (Zpos 7036874417766400) (-46) == 100)%Q as H100 by reflexivity.
  rewrite H100 in Herr2.
  apply Qabs_Qle_condition in Herr1, Herr2.
  assert (pow2 (-53) == 1 # 9007199254740992)%Q as Hu by reflexivity.
  rewrite Hu in Herr1, Herr2.
  set (v1 := F2Q (Zpos m1) e1) in *. set (v2 := F2Q (Zpos m2) e2) in *.
  assert (0 < inject_Z T)%Q as HTq by (by rewrite <- (Zlt_Qlt 0)).
  assert (inject_Z T < 4294967296)%Q as HTq'.
  { pose proof Ht as Ht'. rewrite Zlt_Qlt in Ht'. exact Ht'. }
  assert (0 < inject_Z C)%Q as HCq by (rewrite <- (Zlt_Qlt 0); lia).
  assert (inject_Z C <= inject_Z T)%Q as HCT by (rewrite <- Zle_Qle; lia).
  set (q := (inject_Z C / inject_Z T)%Q) in *.
  assert (q * inject_Z T == inject_Z C)%Q as Hq by (subst q; field; lra).
  assert (0 < q <= 1)%Q as Hq1.
  { split.
    - subst q. apply Qlt_shift_div_l; lra.
    - subst q. apply Qle_shift_div_r; lra. }
  pose proof HE as [HEloZ HEhiZ].
  destruct HE as [HElo HEhi].
  rewrite Zle_Qle in HElo. rewrite Zlt_Qlt in HEhi.
  rewrite !inject_Z_plus, !inject_Z_mult, ?inject_Z_plus in HElo, HEhi.
  rewrite inject_Z_plus in HEhi.
  change (inject_Z 200) with 200%Q in *. change (inject_Z 2) with 2%Q in *.
  change (inject_Z 1) with 1%Q in *.
  assert (∀ a b : Z, a <= b → (inject_Z a <= inject_Z b)%Q) as Hinj
    by (intros a b Hab; by rewrite <- Zle_Qle).
  set (Tq := inject_Z T) in *. set (Cq := inject_Z C) in *.
  set (Eq := inject_Z E) in *. set (nq := inject_Z n).
  assert (Tq * (v2 - 100 * q + (1 # 1000000000000)) >= 0)%Q as Hlow.
  { apply Qmult_le_0_compat; lra. }
  assert (Tq * (100 * q + (1 # 1000000000000) - v2) >= 0)%Q as Hupp.
  { apply Qmult_le_0_compat; lra. }
  assert (∀ k : Z, n <= E + k → (Tq * (Eq + inject_Z k + 1 - (v2 + (1 # 2))) >= 0)%Q)
    as Hbelow.
  { intros k Hk. apply Qmult_le_0_compat; [lra|].
    apply Hinj in Hk. rewrite inject_Z_plus in Hk. fold nq Eq in Hk.
    fold nq in Hfloor. lra. }
  assert (∀ k : Z, E + k <= n → (Tq * (v2 + (1 # 2) - (Eq + inject_Z k)) >= 0)%Q)
    as Habove.
  { intros k Hk. apply Qmult_le_0_compat; [lra|].
    apply Hinj in Hk. rewrite inject_Z_plus in Hk. fold nq Eq in Hk.
    fold nq in Hfloor. lra. }
  split.
  - intros Hnh.
    assert (2 * T * E + 1 <= 200 * C + T) as Hstrict.
    { destruct (Z.eq_dec (200 * C + T) (2 * T * E)) as [Heq|Hne];
        [by apply Hhalf in Heq | lia]. }
    assert (200 * C + T + 1 <= 2 * T * (E + 1)) as Hstrict' by lia.
    apply Hinj in Hstrict, Hstrict'.
    rewrite !inject_Z_plus, !inject_Z_mult, ?inject_Z_plus in Hstrict, Hstrict'.
    rewrite inject_Z_plus in Hstrict'.
    change (inject_Z 200) with 200%Q in *. change (inject_Z 2) with 2%Q in *.
    change (inject_Z 1) with 1%Q in *. fold Tq Cq Eq in Hstrict, Hstrict'.
    assert (n = E) as ->.
    { destruct (Z.lt_trichotomy n E) as [Hlt|[Heq|Hgt]]; [|done|].
      - pose proof (Hbelow (-1) ltac:(lia)) as Hb.
        change (inject_Z (-1)) with (-1)%Q in Hb.
        exfalso. clearbody Tq Cq Eq q v1 v2. lra.
      - pose proof (Habove 1 ltac:(lia)) as Ha.
        change (inject_Z 1) with 1%Q in Ha.
        exfalso. clearbody Tq Cq Eq q v1 v2. lra. }
    rewrite Hrate. destruct (Z.eqb_spec E 0) as [->|]; done.
  - intros Hh. apply Hhalf in Hh.
    assert (inject_Z (200 * C + T) == inject_Z (2 * T * E))%Q as Hhq by (by rewrite Hh).
    rewrite !inject_Z_plus, !inject_Z_mult in Hhq.
    change (inject_Z 200) with 200%Q in *. change (inject_Z 2) with 2%Q in *.
    fold Tq Cq Eq in Hhq.
    assert (n = E ∨ n = E - 1) as [-> | ->].
    { destruct (Z_lt_le_dec n (E - 1)) as [Hlt|Hge].
      - pose proof (Hbelow (-2) ltac:(lia)) as Hb.
        change (inject_Z (-2)) with (-2)%Q in Hb.
        exfalso. clearbody Tq Cq Eq q v1 v2. lra.
      - destruct (Z_lt_le_dec E n) as [Hgt|Hle]; [|lia].
        pose proof (Habove 1 ltac:(lia)) as Ha.
        change (inject_Z 1) with 1%Q in Ha.
        exfalso. clearbody Tq Cq Eq q v1 v2. lra. }
    + left. rewrite Hrate. destruct (Z.eqb_spec E 0) as [->|]; done.
    + right. rewrite Hrate. destruct (Z.eqb_spec (E - 1) 0) as [->|]; done.
Qed.

End Binary64.

Section Rate.
Import Database AnalyticsScreen Aux.
Variable parseDate : string → JsDate.Date.
Variable now : Z.

Lemma completed_count (tasks : list RecoveryTask) :
  length (List.filter (λ t, task_completed t) tasks)
  = length (filter (λ t, task_completed t = true) tasks).
Proof. f_equal. by apply List_filter_decide. Qed.

Lemma taskCompletionRate_run tasks prev :
  taskCompletionRate (loadTaskStats parseDate now (Some tasks) prev) =
  if 0 <? length tasks
  then doubleRate (length (List.filter (λ t, task_completed t) tasks)) (length tasks)
  else JsNumber.ofNat 0.
Proof. reflexivity. Qed.

(** C2, as amended.  The rate is 0 for an empty list and otherwise
    [Math.round] of the binary64 product of the binary64 quotient
    completed/total and 100.  For every list of fewer than 2^32 tasks,
    the most an array holds, this is the exactly rounded percentage
    whenever the percentage does not lie midway between two integers, and
    that value or one less when it does. *)
Theorem task_completion_rate (tasks : list RecoveryTask) (prev : AnalyticsData) :
  let total := length tasks in
  let completed := length (filter (λ t, task_completed t = true) tasks) in
  let rate := taskCompletionRate (loadTaskStats parseDate now (Some tasks) prev) in
  (total = 0 → rate = JsNumber.ofNat 0)
  ∧ (0 < total →
     rate = JsNumber.Math_round
              (JsNumber.mul
                 (JsNumber.div (JsNumber.ofNat completed) (JsNumber.ofNat total))
                 (JsNumber.ofNat 100)))
  ∧ (0 < total → (Z.of_nat total < 2 ^ 32)%Z →
     ¬ Spec.halfwayPercentage completed total →
     rate = JsNumber.ofZ (Spec.roundedPercentage completed total))
  ∧ (0 < total → (Z.of_nat total < 2 ^ 32)%Z →
     Spec.halfwayPercentage completed total →
     rate = JsNumber.ofZ (Spec.roundedPercentage completed total)
     ∨ rate = JsNumber.ofZ (Spec.roundedPercentage completed total - 1)).
Proof.
  intros total completed rate.
  assert (completed ≤ total) as Hle by apply length_filter.
  assert (0 < total → rate = doubleRate completed total) as Hrate.
  { intros Hpos. subst rate. rewrite taskCompletionRate_run, completed_count.
    fold total completed. by apply Nat.ltb_lt in Hpos as ->. }
  split_and!.
  - intros H0. subst rate. rewrite taskCompletionRate_run.
    fold total. by rewrite H0.
  - done.
  - intros Hpos Hsmall Hhalf. rewrite Hrate by done.
    by apply (doubleRate_general completed total Hpos Hsmall Hle).
  - intros Hpos Hsmall Hhalf. rewrite Hrate by done.
    by apply (doubleRate_general completed total Hpos Hsmall Hle).
Qed.

End Rate.

(** C2, as first stated, fails on forty tasks of which twenty-three are
    completed: the exact percentage is 57.5, which rounds to 58, and the
    screen computes 57. *)
Lemma task_completion_rate_counterexample :
  let tasks := Sample.fortyTasks in
  let rate := AnalyticsScreen.taskCompletionRate
                (AnalyticsScreen.loadTaskStats Sample.parseDate 0 (Some tasks)
                   AnalyticsScreen.initialAnalytics) in
  length tasks = 40
  ∧ length (filter (λ t, Database.task_completed t = true) tasks) = 23
  ∧ rate = JsNumber.ofNat 57
  ∧ JsNumber.ofZ (Spec.roundedPercentage 23 40) = JsNumber.ofNat 58
  ∧ rate ≠ JsNumber.ofZ (Spec.roundedPercentage 23 40).
Proof. vm_compute. by split_and!. Qed.

(** ** The timeline screen *)

Section Timeline.
Import Database TimelineScreen.
Variable parseDate : string → JsDate.Date.
Variable formatDate : string → string.

Lemma Date_lt_spec (d : JsDate.Date) (now : Z) :
  JsDate.lt d (JsDate.current now) = true ↔ ∃ due, d = Some due ∧ (due < now)%Z.
Proof.
  unfold JsDate.lt, JsDate.current. destruct d as [due|].
  - rewrite Z.ltb_lt. split.
    + intros H. by exists due.
    + by intros (due' & [= <-] & H).
  - split; [discriminate | by intros (due' & [=] & _)].
Qed.

Lemma taskBadge_text now task :
  let label := text (taskBadge parseDate now task) in
  let overdue := ∃ due, parseDate (task_due_date task) = Some due ∧ (due < now)%Z in
  (label = "Completed" ↔ task_completed task = true)
  ∧ (label = "Overdue" ↔ task_completed task = false ∧ overdue)
  ∧ (label = "Pending" ↔ task_completed task = false ∧ ¬ overdue).
Proof.
  intros label overdue. subst label overdue. unfold taskBadge.
  rewrite <- Date_lt_spec.
  destruct (task_completed task),
    (JsDate.lt (parseDate (task_due_date task)) (JsDate.current now));
    cbn [text]; split_and!; split; try done; try (by intros [? ?]).
Qed.

(** With one clock reading for both, the icon and the badge tell the
    same status. *)
Lemma statusIcon_matches_badge now task :
  let shape := icon (getTaskStatusIcon parseDate now (task_completed task)
                                       (task_due_date task)) in
  let label := text (taskBadge parseDate now task) in
  (shape = "CheckCircle" ↔ label = "Completed")
  ∧ (shape = "AlertCircle" ↔ label = "Overdue")
  ∧ (shape = "Circle" ↔ label = "Pending").
Proof.
  unfold getTaskStatusIcon, taskBadge.
  destruct (task_completed task),
    (JsDate.lt (parseDate (task_due_date task)) (JsDate.current now));
    cbn [icon text]; by split_and!.
Qed.

(** C1. For the task at each position of the rendered timeline, the
    badge reads "Completed" exactly when the task is completed, "Overdue"
    exactly when it is not completed and its due date is strictly before
    the clock reading, and "Pending" in every other case; with a valid
    due date that is when the task is not completed and the date is at
    or after the clock reading. *)
Theorem timeline_task_badge (clock : nat → Z * Z)
    (recoveryTasks : list RecoveryTask) (index : nat) (task : RecoveryTask) :
  recoveryTasks !! index = Some task →
  ∃ item,
    timelineItems parseDate formatDate clock recoveryTasks !! index = Some item
    ∧ let now := (clock index).2 in
      let label := text (badge item) in
      let overdue :=
        ∃ due, parseDate (task_due_date task) = Some due ∧ (due < now)%Z in
      (label = "Completed" ↔ task_completed task = true)
      ∧ (label = "Overdue" ↔ task_completed task = false ∧ overdue)
      ∧ (label = "Pending" ↔ task_completed task = false ∧ ¬ overdue)
      ∧ (∀ due, parseDate (task_due_date task) = Some due →
           (label = "Pending" ↔ task_completed task = false ∧ (now ≤ due)%Z)).
Proof.
  intros Hi. eexists. split.
  { unfold timelineItems. rewrite list_lookup_imap, Hi. reflexivity. }
  cbn [badge timelineItem].
  destruct (taskBadge_text (clock index).2 task) as (Hc & Ho & Hp).
  split_and!; [done..|].
  intros due Hdue. cbv zeta. rewrite Hp. split; intros [Hn Hd]; split; try done.
  - destruct (Z.le_gt_cases (clock index).2 due) as [|Hlt]; [done|].
    destruct Hd. by exists due.
  - intros (due' & Hdue' & Hlt). rewrite Hdue in Hdue'. injection Hdue' as <-. lia.
Qed.
End Timeline.

Example taskBadge_ex1 :
  TimelineScreen.text
    (TimelineScreen.taskBadge Sample.parseDate 1736899200000
       (Sample.task false "2025-01-20T00:00:00Z"))
  = "Pending".
Proof. reflexivity. Qed.

Example taskBadge_ex2 :
  TimelineScreen.text
    (TimelineScreen.taskBadge Sample.parseDate 1736467200000
       (Sample.task false "2025-01-10T00:00:00Z"))
  = "Pending".
Proof. reflexivity. Qed.

Example taskBadge_ex3 :
  TimelineScreen.text
    (TimelineScreen.taskBadge Sample.parseDate 1736899200000
       (Sample.task false "not a date"))
  = "Pending".
Proof. reflexivity. Qed.

Lemma timeline_task_badge_witness :
  let task := Sample.task false "2025-01-10T00:00:00Z" in
  [task] !! 0 = Some task
  ∧ ∃ item,
      TimelineScreen.timelineItems Sample.parseDate id Sample.clock [task] !! 0
        = Some item
      ∧ TimelineScreen.text (TimelineScreen.badge item) = "Overdue".
Proof.
  split; [reflexivity|].
  destruct (timeline_task_badge Sample.parseDate id Sample.clock
              [Sample.task false "2025-01-10T00:00:00Z"] 0
              (Sample.task false "2025-01-10T00:00:00Z") eq_refl)
    as (item & Hitem & _ & Hoverdue & _).
  exists item. split; [exact Hitem|].
  apply Hoverdue. split; [reflexivity|].
  exists 1736467200000%Z. split; [reflexivity | by vm_compute].
Defined.

(** * Further properties of the screens *)

(** ** Texts and patterns *)

Section Patterns.
Import JsString JsRegExp Notions.

Lemma string_app_assoc a b c : (a +:+ b) +:+ c = a +:+ (b +:+ c).
Proof. induction a as [|x a IH]; [done|]. by rewrite !append_String, IH. Qed.

Lemma string_app_eq_nil a b : a +:+ b = "" → a = "" ∧ b = "".
Proof. destruct a; [done|]. rewrite append_String. discriminate. Qed.

Lemma nullable_spec r : nullable r = true ↔ Matches r "".
Proof.
  induction r as [| |p|r1 IH1 r2 IH2|r1 IH1 r2 IH2|r IH]; simpl.
  - split; [discriminate | inversion 1].
  - split; [constructor | done].
  - split; [discriminate | inversion 1].
  - rewrite andb_true_iff, IH1, IH2. split.
    + intros [H1 H2]. by apply (MatchSeq _ _ "" "").
    + inversion 1 as [| |? ? s1 s2 H1 H2 Hr Hs| | | |]; subst.
      apply string_app_eq_nil in Hs as [-> ->]. done.
  - rewrite orb_true_iff, IH1, IH2. split.
    + intros [H|H]; by constructor.
    + inversion 1; subst; auto.
  - split; [constructor | done].
Qed.

(** A non-empty text in a starred language starts with a non-empty
    text of the language. *)
Lemma Matches_star_cons r c s :
  Matches (Star r) (String c s) →
  ∃ s1 s2, s = s1 +:+ s2 ∧ Matches r (String c s1) ∧ Matches (Star r) s2.
Proof.
  intros H. remember (Star r) as sr eqn:Hsr. remember (String c s) as cs eqn:Hcs.
  revert s Hcs. induction H as [| | | | | |r' s1 s2 H1 _ H2 IH2]; try discriminate.
  injection Hsr as ->. intros s Hcs. destruct s1 as [|d s1].
  - change ("" +:+ s2) with s2 in Hcs. by apply IH2.
  - change (String d s1 +:+ s2) with (String d (s1 +:+ s2)) in Hcs.
    injection Hcs as -> <-. by exists s1, s2.
Qed.

Lemma deriv_spec r : ∀ c s, Matches (deriv c r) s ↔ Matches r (String c s).
Proof.
  induction r as [| |p|r1 IH1 r2 IH2|r1 IH1 r2 IH2|r IH]; intros c s; simpl.
  - split; inversion 1.
  - split; inversion 1.
  - destruct (p c) eqn:Hp; split.
    + inversion 1; subst. by constructor.
    + inversion 1; subst. constructor.
    + inversion 1.
    + inversion 1; subst. congruence.
  - assert (Matches (Seq (deriv c r1) r2) s ↔
            ∃ s1 s2, s = s1 +:+ s2 ∧ Matches r1 (String c s1) ∧ Matches r2 s2) as Hseq.
    { split.
      - inversion 1 as [| |? ? s1 s2 H1 H2| | | |]; subst.
        exists s1, s2. by rewrite <- IH1.
      - intros (s1 & s2 & -> & H1 & H2). constructor; [by apply IH1 | done]. }
    assert (Matches (Seq r1 r2) (String c s) ↔
            (∃ s1 s2, s = s1 +:+ s2 ∧ Matches r1 (String c s1) ∧ Matches r2 s2)
            ∨ (Matches r1 "" ∧ Matches r2 (String c s))) as Hcs.
    { split.
      - inversion 1 as [| |? ? s1 s2 H1 H2 Hr Hs| | | |]; subst.
        destruct s1 as [|d s1].
        + right. change ("" +:+ s2) with s2 in Hs. by subst.
        + left. change (String d s1 +:+ s2) with (String d (s1 +:+ s2)) in Hs.
          injection Hs as -> <-. by exists s1, s2.
      - intros [(s1 & s2 & -> & H1 & H2) | [H1 H2]].
        + rewrite <- append_String. by constructor.
        + by apply (MatchSeq _ _ "" (String c s)). }
    rewrite Hcs. destruct (nullable r1) eqn:Hn.
    + apply nullable_spec in Hn. split.
      * inversion 1; subst; [left; by apply Hseq | right; split; [done | by apply IH2]].
      * intros [H | [_ H]]; [apply MatchAltL; by apply Hseq | apply MatchAltR; by apply IH2].
    + rewrite Hseq. split; [by left|]. intros [H | [H _]]; [done|].
      apply nullable_spec in H. congruence.
  - split.
    + inversion 1; subst; [apply MatchAltL; by apply IH1 | apply MatchAltR; by apply IH2].
    + inversion 1; subst; [apply MatchAltL; by apply IH1 | apply MatchAltR; by apply IH2].
  - split.
    + inversion 1 as [| |? ? s1 s2 H1 H2| | | |]; subst.
      rewrite <- append_String. constructor; [by apply IH | done].
    + intros (s1 & s2 & -> & H1 & H2)%Matches_star_cons.
      constructor; [by apply IH | done].
Qed.

(** Matching by derivatives decides the language of the pattern. *)
Lemma fullMatch_spec s : ∀ r, fullMatch r s = true ↔ Matches r s.
Proof.
  induction s as [|c s IH]; intros r; simpl.
  - apply nullable_spec.
  - by rewrite IH, deriv_spec.
Qed.

Lemma Matches_star_any s : Matches (Star AnyUnit) s.
Proof.
  induction s as [|c s IH]; [constructor|].
  change (String c s) with (String c "" +:+ s). constructor; [by constructor | done].
Qed.

(** [test] finds a match anywhere in the subject. *)
Lemma test_spec r s :
  test r s = true ↔ ∃ a m b, s = a +:+ m +:+ b ∧ Matches r m.
Proof.
  unfold test. rewrite fullMatch_spec. split.
  - inversion 1 as [| |? ? a mb Ha Hmb| | | |]; subst.
    inversion Hmb as [| |? ? m b Hm Hb| | | |]; subst.
    by exists a, m, b.
  - intros (a & m & b & -> & Hm).
    constructor; [apply Matches_star_any|]. constructor; [done | apply Matches_star_any].
Qed.
Lemma units_app a b :
  list_ascii_of_string (a +:+ b) = list_ascii_of_string a ++ list_ascii_of_string b.
Proof. induction a as [|c a IH]; [done|]. rewrite append_String. simpl. by rewrite IH. Qed.

Lemma allUnits_app sp a b : allUnits sp (a +:+ b) ↔ allUnits sp a ∧ allUnits sp b.
Proof. unfold allUnits. by rewrite units_app, Forall_app. Qed.

Lemma allUnits_cons sp c s :
  allUnits sp (String c s) ↔ isWhiteSpace c = sp ∧ allUnits sp s.
Proof. unfold allUnits. simpl. by rewrite Forall_cons. Qed.

Lemma allUnits_nil sp : allUnits sp "".
Proof. constructor. Qed.

Lemma Matches_NonSpace s :
  Matches NonSpace s ↔ ∃ c, s = String c "" ∧ isWhiteSpace c = false.
Proof.
  unfold NonSpace. split.
  - inversion 1 as [|p c Hc| | | | |]; subst. exists c. split; [done|].
    by apply negb_true_iff.
  - intros (c & -> & Hc). constructor. by rewrite Hc.
Qed.

Lemma Matches_Chr c s : Matches (Chr c) s ↔ s = String c "".
Proof.
  unfold Chr. split.
  - inversion 1 as [|p d Hd| | | | |]; subst. by apply Ascii.eqb_eq in Hd as ->.
  - intros ->. constructor. apply Ascii.eqb_refl.
Qed.

Lemma Matches_star_NonSpace s : Matches (Star NonSpace) s ↔ allUnits false s.
Proof.
  split.
  - intros H. remember (Star NonSpace) as r eqn:Hr.
    induction H as [| | | | | |r' s1 s2 H1 _ H2 IH2]; try discriminate.
    + apply allUnits_nil.
    + injection Hr as ->. apply Matches_NonSpace in H1 as (c & -> & Hc).
      rewrite append_String. apply allUnits_cons. split; [done|]. by apply IH2.
  - induction s as [|c s IH]; intros H; [constructor|].
    apply allUnits_cons in H as [Hc Hs].
    change (String c s) with (String c "" +:+ s).
    constructor; [|by apply IH]. apply Matches_NonSpace. by exists c.
Qed.

Lemma Matches_plus_NonSpace s : Matches (Plus NonSpace) s ↔ nonBlank s.
Proof.
  unfold Plus, nonBlank. split.
  - inversion 1 as [| |? ? s1 s2 H1 H2| | | |]; subst.
    apply Matches_NonSpace in H1 as (c & -> & Hc).
    apply Matches_star_NonSpace in H2. rewrite append_String. split; [done|].
    by apply allUnits_cons.
  - intros [Hne Hall]. destruct s as [|c s]; [done|].
    apply allUnits_cons in Hall as [Hc Hs].
    change (String c s) with (String c "" +:+ s).
    constructor; [apply Matches_NonSpace; by exists c | by apply Matches_star_NonSpace].
Qed.

Lemma Matches_emailPattern m :
  Matches emailPattern m ↔
  ∃ l d t, m = l +:+ "@" +:+ d +:+ "." +:+ t ∧ nonBlank l ∧ nonBlank d ∧ nonBlank t.
Proof.
  unfold emailPattern. split.
  - inversion 1 as [| |? ? l x1 Hl H1| | | |]; subst.
    inversion H1 as [| |? ? at_ x2 Hat H2| | | |]; subst.
    inversion H2 as [| |? ? d x3 Hd H3| | | |]; subst.
    inversion H3 as [| |? ? dot t Hdot Ht| | | |]; subst.
    apply Matches_Chr in Hat as ->. apply Matches_Chr in Hdot as ->.
    exists l, d, t. by rewrite <- !Matches_plus_NonSpace.
  - intros (l & d & t & -> & Hl & Hd & Ht).
    repeat (constructor; [first [by apply Matches_plus_NonSpace | by apply Matches_Chr]|]).
    by apply Matches_plus_NonSpace.
Qed.

(** The email test of both forms accepts exactly the texts that hold,
    somewhere, non-blank text, an at sign, non-blank text, a dot and
    non-blank text. *)
Lemma test_emailPattern s : test emailPattern s = true ↔ emailShaped s.
Proof.
  rewrite test_spec. unfold emailShaped. split.
  - intros (a & m & b & -> & (l & d & t & -> & Hl & Hd & Ht)%Matches_emailPattern).
    exists a, l, d, t, b. by rewrite !string_app_assoc.
  - intros (a & l & d & t & b & -> & Hl & Hd & Ht).
    exists a, (l +:+ "@" +:+ d +:+ "." +:+ t), b. split.
    + by rewrite !string_app_assoc.
    + apply Matches_emailPattern. by exists l, d, t.
Qed.

Lemma emailShaped_nonempty s : emailShaped s → s ≠ "".
Proof.
  intros (a & l & d & t & b & -> & [Hl _] & _) Hs.
  apply string_app_eq_nil in Hs as [_ Hs]. by apply string_app_eq_nil in Hs as [? _].
Qed.

(** *** Trimming *)

Lemma trimStart_spec s :
  ∃ a, s = a +:+ trimStart s ∧ allUnits true a
       ∧ ∀ c, firstUnit (trimStart s) = Some c → isWhiteSpace c = false.
Proof.
  induction s as [|c s (a & Hs & Ha & Hf)]; simpl.
  - exists "". split_and!; [done | apply allUnits_nil | done].
  - destruct (isWhiteSpace c) eqn:Hc.
    + exists (String c a). rewrite append_String, <- Hs. split_and!; [done| |done].
      by apply allUnits_cons.
    + exists "". split_and!; [done | apply allUnits_nil |].
      intros c' [= <-]. done.
Qed.

Lemma trimEnd_spec s :
  ∃ b, s = trimEnd s +:+ b ∧ allUnits true b
       ∧ (∀ c, lastUnit (trimEnd s) = Some c → isWhiteSpace c = false)
       ∧ (∀ c, firstUnit s = Some c → isWhiteSpace c = false →
               firstUnit (trimEnd s) = Some c).
Proof.
  unfold firstUnit, lastUnit.
  induction s as [|c s (b & Hs & Hb & Hl & _)]; simpl.
  - exists "". split_and!; [done | apply allUnits_nil | done | done].
  - destruct (trimEnd s) as [|d t] eqn:Ht.
    + change ("" +:+ b) with b in Hs. subst b.
      destruct (isWhiteSpace c) eqn:Hc.
      * exists (String c s). split_and!; [done | by apply allUnits_cons | done |].
        intros c' [= <-]. congruence.
      * exists s. split_and!; [done | done | by intros c' [= <-] | done].
    + exists b. rewrite append_String, <- Hs. split_and!; [done | done | | done].
      intros c'. simpl in Hl |- *. apply Hl.
Qed.

Lemma trim_spec s :
  ∃ a b, s = a +:+ trim s +:+ b ∧ allUnits true a ∧ allUnits true b
         ∧ (∀ c, firstUnit (trim s) = Some c → isWhiteSpace c = false)
         ∧ (∀ c, lastUnit (trim s) = Some c → isWhiteSpace c = false).
Proof.
  unfold trim.
  destruct (trimStart_spec s) as (a & Hs & Ha & Hf).
  destruct (trimEnd_spec (trimStart s)) as (b & Hs' & Hb & Hl & Hkeep).
  exists a, b. rewrite <- Hs', <- Hs. split_and!; [done..| |done].
  intros c Hc. destruct (trimStart s) as [|d u] eqn:Hu; [done|].
  pose proof (Hf d eq_refl) as Hd. by rewrite (Hkeep d eq_refl Hd) in Hc; simplify_eq.
Qed.

Lemma trim_blank s : trim s = "" ↔ allUnits true s.
Proof.
  destruct (trim_spec s) as (a & b & Hs & Ha & Hb & Hf & _). split.
  - intros He. rewrite He in Hs. rewrite Hs, !allUnits_app.
    split_and!; [done | apply allUnits_nil | done].
  - intros Hall. destruct (trim s) as [|c t] eqn:Ht; [done|].
    pose proof (Hf c eq_refl) as Hc.
    rewrite Hs, !allUnits_app, allUnits_cons in Hall. destruct Hall as (_ & [? _] & _).
    congruence.
Qed.

End Patterns.

(** ** Form validation *)

(** An errors object stays empty exactly when no branch assigns to it. *)
Lemma size_if_insert (b : bool) (k v : string) (m : gmap string string) :
  bool_decide (size (if b then <[k:=v]> m else m) = 0)
  = negb b && bool_decide (size m = 0).
Proof.
  destruct b; [|done]. apply bool_decide_eq_false.
  intros H%map_size_empty_inv. by apply insert_non_empty in H.
Qed.

Lemma size_if_insert2 (b1 b2 : bool) (k v1 v2 : string) (m : gmap string string) :
  bool_decide (size (if b1 then <[k:=v1]> m else if b2 then <[k:=v2]> m else m) = 0)
  = negb b1 && negb b2 && bool_decide (size m = 0).
Proof.
  destruct b1, b2; try done; apply bool_decide_eq_false;
    intros H%map_size_empty_inv; by apply insert_non_empty in H.
Qed.

Lemma messageOr_nonempty err fallback : fallback ≠ "" → messageOr err fallback ≠ "".
Proof.
  intros Hf. rewrite messageOr_spec. destruct (message err) as [m|]; [|done].
  by case_decide.
Qed.

Lemma messageIncludes_nonempty err phrase :
  phrase ≠ "" → messageIncludes err phrase = true →
  ∃ m, message err = Some m ∧ m ≠ "".
Proof.
  intros Hp. unfold messageIncludes. destruct (message err) as [m|]; [|done].
  intros H. exists m. split; [done|]. intros ->. by destruct phrase.
Qed.

(** The three outcomes of the email check. *)
Lemma email_message_cases e :
  let shown :=
    if negb (JsString.truthy e) then Some "Email is required"
    else if negb (JsRegExp.test JsRegExp.emailPattern e)
         then Some "Please enter a valid email" else None in
  (shown = Some "Email is required" ↔ e = "")
  ∧ (shown = Some "Please enter a valid email" ↔ e ≠ "" ∧ ¬ Notions.emailShaped e)
  ∧ (shown = None ↔ Notions.emailShaped e).
Proof.
  intros shown. subst shown.
  destruct (JsString.truthy e) eqn:He; cbn [negb].
  - apply truthy_spec in He.
    destruct (JsRegExp.test JsRegExp.emailPattern e) eqn:Ht; cbn [negb].
    + apply test_emailPattern in Ht. split; [|split]; split; try done.
      intros [_ ?]. done.
    + assert (¬ Notions.emailShaped e) as Hn.
      { intros H%test_emailPattern. congruence. }
      split; [|split]; split; try done.
  - apply truthy_false in He. subst e.
    assert (¬ Notions.emailShaped "") as Hn by (by intros H%emailShaped_nonempty).
    split; [|split]; split; try done. by intros [? _].
Qed.

(** X7. On both forms the email field gets "Email is required" exactly
    for an empty email, "Please enter a valid email" exactly for an
    email that is not empty and holds no run of non-blank text, an at
    sign, non-blank text, a dot and non-blank text, and no message
    exactly when it holds such a run, wherever in the text it is. *)
Theorem email_field_message :
  (∀ st : SignInScreen.State,
     let shown :=
       SignInScreen.errors (finalState (SignInScreen.validateForm st)) !! "email" in
     let e := SignInScreen.email st in
     (shown = Some "Email is required" ↔ e = "")
     ∧ (shown = Some "Please enter a valid email" ↔ e ≠ "" ∧ ¬ Notions.emailShaped e)
     ∧ (shown = None ↔ Notions.emailShaped e))
  ∧ (∀ st : SignUpScreen.State,
       let shown :=
         SignUpScreen.errors (finalState (SignUpScreen.validateForm st)) !! "email" in
       let e := SignUpScreen.email st in
       (shown = Some "Email is required" ↔ e = "")
       ∧ (shown = Some "Please enter a valid email" ↔ e ≠ "" ∧ ¬ Notions.emailShaped e)
       ∧ (shown = None ↔ Notions.emailShaped e)).
Proof.
  split; intros st shown e; subst shown e.
  - destruct (signIn_validateForm_run st) as (ne & Hrun & Hemail & _).
    rewrite Hrun. cbn [finalState fst snd SignInScreen.errors]. rewrite Hemail.
    apply email_message_cases.
  - destruct (signUp_validateForm_run st) as (ne & Hrun & _ & Hemail & _).
    rewrite Hrun. cbn [finalState fst snd SignUpScreen.errors]. rewrite Hemail.
    apply email_message_cases.
Qed.

(** ** The sign-in screen: requests and outcomes *)

Section SignInRequests.
Import SignInScreen.
Variable signIn : string → string → AuthOutcome.

Lemma signIn_validateForm_ok st :
  (validateForm st).1.1
  = JsString.truthy (email st) && JsRegExp.test JsRegExp.emailPattern (email st)
    && JsString.truthy (password st).
Proof.
  unfold validateForm. run_eff.
  rewrite size_if_insert, size_if_insert2.
  rewrite !negb_involutive. by rewrite andb_true_r, andb_comm.
Qed.

Lemma signIn_valid_iff st :
  (validateForm st).1.1 = true ↔ Notions.emailShaped (email st) ∧ password st ≠ "".
Proof.
  rewrite signIn_validateForm_ok, !andb_true_iff, !truthy_spec, test_emailPattern.
  split; [tauto|]. intros [He Hp]. split_and!; [|done..].
  by apply emailShaped_nonempty.
Qed.

(** X1. The sign-in handler calls the auth service exactly when the
    email is email-shaped and the password is not empty; it then calls
    once, first of all, with the email and the password as entered.  In
    every other case nothing leaves the screen. *)
Theorem signIn_request_gate st :
  let r := handleSignIn signIn st in
  (Notions.emailShaped (email st) ∧ password st ≠ "" →
     ∃ after, trace r = SignInCall (email st) (password st) :: after
              ∧ ∀ e p, SignInCall e p ∉ after)
  ∧ (¬ (Notions.emailShaped (email st) ∧ password st ≠ "") → trace r = []).
Proof.
  intros r. rewrite <- signIn_valid_iff. split.
  - intros Hv. destruct (handleSignIn_submitted signIn st Hv) as (fe & after & Hrun & Hres).
    exists after. subst r. rewrite Hrun. split; [done|].
    intros e p. destruct (signIn (email st) (password st)) as [[err|]|];
      destruct Hres as [-> _]; by intros ?%list_elem_of_singleton.
  - intros Hv%not_true_is_false. subst r.
    by rewrite (handleSignIn_blocked signIn st Hv).
Qed.

(** X2. After a submitted sign-in the typed email and password are
    untouched and the loading flag is off again, whatever the auth call
    did.  The router is told to go to "/(tabs)" exactly when the call
    resolved without error, and then no error is left on the screen; in
    every other case the errors object holds exactly one entry, a
    [general] message that is not empty, which for a rejected promise is
    the unexpected-error text. *)
Theorem signIn_outcome st :
  (validateForm st).1.1 = true →
  let r := handleSignIn signIn st in
  let st' := finalState r in
  let succeeded := signIn (email st) (password st) = Resolved None in
  email st' = email st ∧ password st' = password st ∧ loading st' = false
  ∧ (∀ href, RouterReplace href ∈ trace r ↔ href = "/(tabs)" ∧ succeeded)
  ∧ (succeeded → errors st' = ∅)
  ∧ (¬ succeeded → ∃ m, errors st' = {[ "general" := m ]} ∧ m ≠ "")
  ∧ (signIn (email st) (password st) = Rejected →
     errors st' = {[ "general" := "An unexpected error occurred. Please try again." ]}).
Proof.
  intros Hv r st' succeeded.
  destruct (handleSignIn_submitted signIn st Hv) as (fe & after & Hrun & Hres).
  subst r st' succeeded. rewrite Hrun.
  cbn [finalState trace fst snd email password loading errors].
  split_and!; [done..| | | |].
  - intros href. rewrite elem_of_cons.
    destruct (signIn (email st) (password st)) as [[err|]|];
      destruct Hres as [-> _]; rewrite list_elem_of_singleton; split;
      intros H; try (destruct H as [H|H]; discriminate);
      try (destruct H as [_ H]; discriminate).
    + destruct H as [H|H]; [discriminate|]. by injection H as ->.
    + destruct H as [-> _]. by right.
  - intros Hs. rewrite Hs in Hres. by destruct Hres as [_ ->].
  - intros Hs. destruct (signIn (email st) (password st)) as [[err|]|];
      [| done |]; destruct Hres as [_ ->]; eexists; (split; [reflexivity|]).
    + destruct (_ || _); [done|].
      destruct (messageIncludes err "Email not confirmed"); [done|].
      by apply messageOr_nonempty.
    + done.
  - intros Hs. rewrite Hs in Hres. by destruct Hres as [_ ->].
Qed.

End SignInRequests.

Lemma signIn_outcome_witness :
  let st := SignInScreen.initial "ann@example.org" "secret" in
  let r := SignInScreen.handleSignIn (Sample.signInFails None) st in
  (SignInScreen.validateForm st).1.1 = true
  ∧ SignInScreen.loading (finalState r) = false
  ∧ ∃ m, SignInScreen.errors (finalState r) = {[ "general" := m ]} ∧ m ≠ "".
Proof.
  split; [by vm_compute|].
  destruct (signIn_outcome (Sample.signInFails None)
              (SignInScreen.initial "ann@example.org" "secret"))
    as (_ & _ & Hloading & _ & _ & Hfailed & _); [by vm_compute|].
  split; [exact Hloading|]. by apply Hfailed.
Defined.

(** ** The sign-up screen: requests and outcomes *)

Section SignUpRequests.
Import SignUpScreen.
Variable signUp : string → string → string → string → string → AuthOutcome.

Lemma signUp_validateForm_ok st :
  (validateForm st).1.1
  = JsString.truthy (JsString.trim (fullName st))
    && (JsString.truthy (email st) && JsRegExp.test JsRegExp.emailPattern (email st))
    && (JsString.truthy (password st) && negb (String.length (password st) <? 8))
    && (JsString.truthy (confirmPassword st)
        && String.eqb (password st) (confirmPassword st)).
Proof.
  unfold validateForm. run_eff.
  rewrite size_if_insert2, size_if_insert2, size_if_insert2, size_if_insert.
  rewrite !negb_involutive.
  destruct (JsString.truthy (JsString.trim (fullName st))),
    (JsString.truthy (email st)), (JsRegExp.test JsRegExp.emailPattern (email st)),
    (JsString.truthy (password st)), (String.length (password st) <? 8),
    (JsString.truthy (confirmPassword st)),
    (String.eqb (password st) (confirmPassword st)); reflexivity.
Qed.

Lemma signUp_valid_iff st :
  (validateForm st).1.1 = true ↔
  JsString.trim (fullName st) ≠ "" ∧ Notions.emailShaped (email st)
  ∧ 8 ≤ String.length (password st) ∧ confirmPassword st = password st.
Proof.
  rewrite signUp_validateForm_ok, !andb_true_iff, !truthy_spec, test_emailPattern,
    negb_true_iff, Nat.ltb_ge, String.eqb_eq.
  split.
  - intuition congruence.
  - intros (Hn & He & Hl & Heq). split_and!; try done.
    + by apply emailShaped_nonempty.
    + intros Hp. rewrite Hp in Hl. simpl in Hl. lia.
    + rewrite Heq. intros Hp. rewrite Hp in Hl. simpl in Hl. lia.
Qed.

(** A form that passes validation: one sign-up call, then what its
    outcome selects. *)
Lemma handleSignUp_submitted st :
  (validateForm st).1.1 = true →
  ∃ finalErrors after,
    handleSignUp signUp st =
      (tt, {| email := email st; password := password st;
              confirmPassword := confirmPassword st; fullName := fullName st;
              loading := false; errors := finalErrors |},
       SignUpCall (email st) (password st) (JsString.trim (fullName st))
                  "patient" "AU" :: after)
    ∧ match signUp (email st) (password st) (JsString.trim (fullName st))
                   "patient" "AU" with
      | Resolved (Some error) =>
          after = [ConsoleError "Sign up error:"]
          ∧ finalErrors =
              (if messageIncludes error "already registered"
                  || messageIncludes error "already exists"
               then {[ "general" :=
                 "An account with this email already exists. Please sign in instead." ]}
               else if messageIncludes error "Password"
               then from_option (λ m, {[ "password" := m ]}) ∅ (message error)
               else if messageIncludes error "Email"
               then from_option (λ m, {[ "email" := m ]}) ∅ (message error)
               else {[ "general" :=
                 messageOr error "Failed to create account. Please try again." ]})
      | Resolved None =>
          after = [RouterReplace "/(auth)/onboarding"] ∧ finalErrors = ∅
      | Rejected =>
          after = [ConsoleError "Sign up exception:"]
          ∧ finalErrors = {[ "general" :=
              "An unexpected error occurred. Please try again." ]}
      end.
Proof.
  intros Hv. unfold handleSignUp. rewrite Eff_bind_run.
  destruct (signUp_validateForm_run st) as (ne & Hrun & _).
  rewrite Hrun in Hv |- *. cbn [fst snd] in Hv |- *. rewrite Hv.
  cbn [negb].
  destruct (signUp (email st) (password st) (JsString.trim (fullName st))
                   "patient" "AU") as [[error|]|] eqn:Hout.
  - destruct (messageIncludes error "already registered"
              || messageIncludes error "already exists") eqn:H1;
      [|destruct (messageIncludes error "Password") eqn:H2;
        [|destruct (messageIncludes error "Email") eqn:H3]];
      eexists _, _;
      (split; [run_eff; rewrite Hout; run_eff; rewrite ?H1, ?H2, ?H3; reflexivity|]);
      done.
  - eexists _, _; (split; [run_eff; rewrite Hout; reflexivity|]); done.
  - eexists _, _; (split; [run_eff; rewrite Hout; reflexivity|]); done.
Qed.

(** X3. The sign-up handler calls the auth service exactly when the
    trimmed name is not empty, the email is email-shaped, the password
    has at least eight code units and the confirmation equals it; it
    then calls once, first of all, with the email and password as
    entered, the trimmed name, the role 'patient' and the region 'AU'.
    In every other case nothing leaves the screen. *)
Theorem signUp_request_gate st :
  let r := handleSignUp signUp st in
  let name := JsString.trim (fullName st) in
  let valid :=
    name ≠ "" ∧ Notions.emailShaped (email st)
    ∧ 8 ≤ String.length (password st) ∧ confirmPassword st = password st in
  (valid →
     ∃ after,
       trace r = SignUpCall (email st) (password st) name "patient" "AU" :: after
       ∧ ∀ e p n ro re, SignUpCall e p n ro re ∉ after)
  ∧ (¬ valid → trace r = []).
Proof.
  intros r name valid. subst valid name. rewrite <- signUp_valid_iff. split.
  - intros Hv. destruct (handleSignUp_submitted st Hv) as (fe & after & Hrun & Hres).
    exists after. subst r. rewrite Hrun. split; [done|].
    intros e p n ro re.
    destruct (signUp _ _ _ _ _) as [[err|]|];
      destruct Hres as [-> _]; by intros ?%list_elem_of_singleton.
  - intros Hv%not_true_is_false. subst r.
    by rewrite (handleSignUp_blocked signUp st Hv).
Qed.

(** X4. When a submitted sign-up resolves with an error, the errors
    object afterwards holds exactly one entry.  A message containing
    'already registered' or 'already exists' gives the fixed [general]
    text about an existing account; otherwise a message containing
    'Password' is shown as it is on the password field; otherwise a
    message containing 'Email' is shown as it is on the email field;
    otherwise the message goes to [general], and the fallback text takes
    its place when the message is empty or absent.  The phrases are
    matched with their capitals. *)
Theorem signUp_error_routing st err :
  (validateForm st).1.1 = true →
  signUp (email st) (password st) (JsString.trim (fullName st)) "patient" "AU"
    = Resolved (Some err) →
  let shown := errors (finalState (handleSignUp signUp st)) in
  let has phrase := ∃ m, message err = Some m ∧ Spec.occursIn phrase m in
  (has "already registered" ∨ has "already exists" →
     shown = {[ "general" :=
       "An account with this email already exists. Please sign in instead." ]})
  ∧ (¬ has "already registered" → ¬ has "already exists" →
     ∀ m, message err = Some m →
       (Spec.occursIn "Password" m → shown = {[ "password" := m ]})
       ∧ (¬ Spec.occursIn "Password" m → Spec.occursIn "Email" m →
          shown = {[ "email" := m ]})
       ∧ (¬ Spec.occursIn "Password" m → ¬ Spec.occursIn "Email" m →
          shown = {[ "general" :=
            if decide (m = "") then "Failed to create account. Please try again."
            else m ]}))
  ∧ (message err = None →
     shown = {[ "general" := "Failed to create account. Please try again." ]}).
Proof.
  intros Hv Hout shown has.
  destruct (handleSignUp_submitted st Hv) as (fe & after & Hrun & Hres).
  rewrite Hout in Hres. destruct Hres as [_ ->].
  subst shown. rewrite Hrun. cbn [finalState fst snd errors].
  assert (∀ phrase, has phrase ↔ messageIncludes err phrase = true) as Hhas.
  { intros phrase. symmetry. apply messageIncludes_spec. }
  rewrite !Hhas. clear Hhas has.
  split_and!.
  - intros Hor. by apply orb_true_iff in Hor as ->.
  - intros ->%not_true_is_false ->%not_true_is_false m Hm. cbn [orb].
    unfold messageIncludes. rewrite messageOr_spec, Hm. cbn [from_option].
    rewrite <- !includes_spec. split_and!.
    + by intros ->.
    + by intros ->%not_true_is_false ->.
    + by intros ->%not_true_is_false ->%not_true_is_false.
  - intros Hm. unfold messageIncludes. rewrite messageOr_spec, Hm. done.
Qed.

(** X5. After a submitted sign-up the four typed fields are untouched
    and the loading flag is off again, whatever the auth call did.  The
    router is told to go to "/(auth)/onboarding" exactly when the call
    resolved without error, and then no error is left on the screen; in
    every other case the errors object holds exactly one entry, on
    [general], [password] or [email], with a message that is not empty;
    for a rejected promise it is the unexpected-error text on
    [general]. *)
Theorem signUp_outcome st :
  (validateForm st).1.1 = true →
  let r := handleSignUp signUp st in
  let st' := finalState r in
  let outcome :=
    signUp (email st) (password st) (JsString.trim (fullName st)) "patient" "AU" in
  (email st' = email st ∧ password st' = password st
   ∧ confirmPassword st' = confirmPassword st ∧ fullName st' = fullName st)
  ∧ loading st' = false
  ∧ (∀ href, RouterReplace href ∈ trace r ↔
             href = "/(auth)/onboarding" ∧ outcome = Resolved None)
  ∧ (outcome = Resolved None → errors st' = ∅)
  ∧ (outcome ≠ Resolved None →
     ∃ k m, errors st' = {[ k := m ]}
            ∧ k ∈ ["general"; "password"; "email"] ∧ m ≠ "")
  ∧ (outcome = Rejected →
     errors st' = {[ "general" := "An unexpected error occurred. Please try again." ]}).
Proof.
  intros Hv r st' outcome.
  destruct (handleSignUp_submitted st Hv) as (fe & after & Hrun & Hres).
  subst r st' outcome. rewrite Hrun.
  cbn [finalState trace fst snd email password confirmPassword fullName loading errors].
  split; [done|]. split; [done|]. split; [|split; [|split]].
  - intros href. rewrite elem_of_cons.
    destruct (signUp _ _ _ _ _) as [[err|]|];
      destruct Hres as [-> _]; rewrite list_elem_of_singleton; split;
      intros H; try (destruct H as [H|H]; discriminate);
      try (destruct H as [_ H]; discriminate).
    + destruct H as [H|H]; [discriminate|]. by injection H as ->.
    + destruct H as [-> _]. by right.
  - intros Hs. rewrite Hs in Hres. by destruct Hres as [_ ->].
  - intros Hs. destruct (signUp _ _ _ _ _) as [[err|]|];
      [| done |]; destruct Hres as [_ ->].
    + destruct (_ || _).
      { eexists _, _. split; [done|]. split; [by left | done]. }
      destruct (messageIncludes err "Password") eqn:H2.
      { apply messageIncludes_nonempty in H2 as (m & -> & Hm); [|done].
        exists "password", m. split; [done|]. split; [|done]. right. by left. }
      destruct (messageIncludes err "Email") eqn:H3.
      { apply messageIncludes_nonempty in H3 as (m & -> & Hm); [|done].
        exists "email", m. split; [done|]. split; [|done]. do 2 right. by left. }
      eexists _, _. split; [done|]. split; [by left|]. by apply messageOr_nonempty.
    + eexists _, _. split; [done|]. split; [by left | done].
  - intros Hs. rewrite Hs in Hres. by destruct Hres as [_ ->].
Qed.

Lemma messageIncludes_message err phrase :
  messageIncludes err phrase = true → ∃ m, message err = Some m.
Proof. unfold messageIncludes. destruct (message err); [eauto | done]. Qed.

(** The [fullName] entry after the handler has run. *)
Lemma handleSignUp_fullName_shown st :
  let shown := errors (finalState (handleSignUp signUp st)) !! "fullName" in
  (Notions.allUnits true (fullName st) → shown = Some "Full name is required")
  ∧ (¬ Notions.allUnits true (fullName st) → shown = None).
Proof.
  intros shown. subst shown. rewrite <- trim_blank.
  destruct (signUp_validateForm_run st) as (ne & Hrun & Hname & _).
  destruct ((validateForm st).1.1) eqn:Hv.
  - pose proof Hv as Hv'. apply signUp_valid_iff in Hv' as (Hn & _).
    split; [done|]. intros _.
    destruct (handleSignUp_submitted st Hv) as (fe & after & Hrun' & Hres).
    rewrite Hrun'. cbn [finalState fst snd errors].
    destruct (signUp _ _ _ _ _) as [[err|]|]; destruct Hres as [_ ->]; [|done..].
    destruct (_ || _); [done|].
    destruct (messageIncludes err "Password") eqn:H2.
    { apply messageIncludes_message in H2 as [m ->]. done. }
    destruct (messageIncludes err "Email") eqn:H3.
    { apply messageIncludes_message in H3 as [m ->]. done. }
    done.
  - rewrite (handleSignUp_blocked signUp st Hv), Hrun.
    cbn [finalState fst snd errors]. rewrite Hname. split.
    + intros ->. done.
    + intros Hne%truthy_spec. by rewrite Hne.
Qed.

(** X6. A full name made of white space only, the empty name included,
    blocks the sign-up with "Full name is required"; any other name
    leaves no message on that field.  The name that a sign-up call
    carries is the entered name without the white space before and
    after it: it is not empty and neither starts nor ends with white
    space. *)
Theorem signUp_full_name st :
  let r := handleSignUp signUp st in
  let shown := errors (finalState r) !! "fullName" in
  (Notions.allUnits true (fullName st) →
     shown = Some "Full name is required" ∧ trace r = [])
  ∧ (¬ Notions.allUnits true (fullName st) → shown = None)
  ∧ (∀ e p n ro re, SignUpCall e p n ro re ∈ trace r →
       n ≠ ""
       ∧ (∀ c, Notions.firstUnit n = Some c → JsString.isWhiteSpace c = false)
       ∧ (∀ c, Notions.lastUnit n = Some c → JsString.isWhiteSpace c = false)
       ∧ ∃ a b, fullName st = a +:+ n +:+ b
                ∧ Notions.allUnits true a ∧ Notions.allUnits true b).
Proof.
  intros r shown.
  destruct (handleSignUp_fullName_shown st) as [Hblank Hname].
  cbv zeta in *. fold r in Hblank, Hname.
  assert ((validateForm st).1.1 = false → trace r = []) as Hblocked.
  { intros Hv. subst r. by rewrite (handleSignUp_blocked signUp st Hv). }
  split; [|split].
  - intros Hb. split; [by apply Hblank|]. apply Hblocked.
    apply not_true_is_false. intros (Hn & _)%signUp_valid_iff.
    by apply Hn, trim_blank.
  - done.
  - intros e p n ro re Hin.
    destruct ((validateForm st).1.1) eqn:Hv.
    + destruct (handleSignUp_submitted st Hv) as (fe & after & Hrun & Hres).
      apply signUp_valid_iff in Hv as (Hn & _).
      subst r. rewrite Hrun in Hin. cbn [trace snd] in Hin.
      apply elem_of_cons in Hin as [Heq|Hin].
      * injection Heq as -> -> -> -> ->.
        destruct (trim_spec (fullName st)) as (a & b & Hs & Ha & Hb & Hf & Hl).
        split; [done|]. split; [done|]. split; [done|]. by exists a, b.
      * destruct (signUp _ _ _ _ _) as [[err|]|];
          destruct Hres as [-> _]; by apply list_elem_of_singleton in Hin.
    + rewrite Hblocked in Hin by done. by apply elem_of_nil in Hin.
Qed.

End SignUpRequests.

Lemma signUp_error_routing_witness :
  let st := SignUpScreen.initial "Ann Lee" "ann@example.org"
              "correct horse" "correct horse" in
  let m := "Password should contain a digit" in
  let signUp := Sample.signUpFails (Some m) in
  (SignUpScreen.validateForm st).1.1 = true
  ∧ SignUpScreen.errors (finalState (SignUpScreen.handleSignUp signUp st))
    = {[ "password" := m ]}.
Proof.
  split; [by vm_compute|].
  destruct (signUp_error_routing
              (Sample.signUpFails (Some "Password should contain a digit"))
              (SignUpScreen.initial "Ann Lee" "ann@example.org"
                 "correct horse" "correct horse")
              {| message := Some "Password should contain a digit" |})
    as (_ & Hrouted & _); [by vm_compute | reflexivity |].
  apply Hrouted.
  - intros (m & [= <-] & Hocc). by apply includes_spec in Hocc.
  - intros (m & [= <-] & Hocc). by apply includes_spec in Hocc.
  - reflexivity.
  - by apply includes_spec.
Defined.

Lemma signUp_outcome_witness :
  let st := SignUpScreen.initial "  Ann Lee " "ann@example.org"
              "correct horse" "correct horse" in
  let r := SignUpScreen.handleSignUp Sample.signUpSucceeds st in
  (SignUpScreen.validateForm st).1.1 = true
  ∧ RouterReplace "/(auth)/onboarding" ∈ trace r
  ∧ SignUpScreen.errors (finalState r) = ∅.
Proof.
  split; [by vm_compute|].
  destruct (signUp_outcome Sample.signUpSucceeds
              (SignUpScreen.initial "  Ann Lee " "ann@example.org"
                 "correct horse" "correct horse"))
    as (_ & _ & Hrouter & Hclean & _); [by vm_compute|].
  split; [by apply Hrouter | by apply Hclean].
Defined.

(** ** The patients screen: narrowing *)

Section Narrowing.
Import PatientsScreenUtf16 Notions Aux.
Variable toLowerCase : list N → list N.

Lemma List_filter_sublist_mono {A} (f g : A → bool) (l : list A) :
  (∀ x, f x = true → g x = true) → List.filter f l `sublist_of` List.filter g l.
Proof.
  intros Hfg. induction l as [|x l IH]; [done|]. simpl.
  destruct (f x) eqn:Hf.
  - rewrite (Hfg x Hf). by constructor.
  - destruct (g x); [by constructor | done].
Qed.

Lemma List_filter_sublist_of {A} (f : A → bool) (l k : list A) :
  l `sublist_of` k → List.filter f l `sublist_of` List.filter f k.
Proof.
  induction 1 as [|x l k _ IH|x l k _ IH]; simpl; [done| |].
  - destruct (f x); [by constructor | done].
  - destruct (f x); [by constructor | done].
Qed.

(** A text that holds the lowered new query holds the lowered old one. *)
Lemma includes_lowered_query text old new :
  Engine.lowersLatin1 toLowerCase → latin1 old → latin1 new →
  containsUpToCase new old →
  JsText.includes text (toLowerCase new) = true →
  JsText.includes text (toLowerCase old) = true.
Proof.
  intros Hl Hold Hnew (a & m & b & -> & Hm).
  rewrite !(lowersLatin1_fold toLowerCase) by done.
  rewrite !fmap_app, (proj2 (fold_Forall2 _ _) Hm), !text_includes_spec.
  intros (x & y & ->).
  exists (x ++ (foldUnit <$> a)), ((foldUnit <$> b) ++ y).
  by rewrite <- !app_assoc.
Qed.

(** X8. Typing on narrows the list: when the old and the new query are
    Latin-1 text and the new query contains the old one, capitals and
    small letters taken for the same, and the loaded patients, whatever
    their names, and the region choice are the same, every patient shown
    for the new query was shown for the old one, in the same order. *)
Theorem filterPatients_narrowing st1 st2 :
  Engine.lowersLatin1 toLowerCase →
  patients st2 = patients st1 → selectedRegion st2 = selectedRegion st1 →
  latin1 (searchQuery st1) → latin1 (searchQuery st2) →
  containsUpToCase (searchQuery st2) (searchQuery st1) →
  filteredPatients (finalState (filterPatients toLowerCase st2))
    `sublist_of` filteredPatients (finalState (filterPatients toLowerCase st1)).
Proof.
  intros Hl Hp Hr H1 H2 Hq. rewrite !filterPatientsUtf16_run, Hp, Hr. cbv zeta.
  assert (List.filter
            (λ patient,
               JsText.includes (toLowerCase (full_name patient))
                               (toLowerCase (searchQuery st2))
               || JsText.includes (toLowerCase (email patient))
                                  (toLowerCase (searchQuery st2)))
            (patients st1)
          `sublist_of`
          (if JsText.truthy (searchQuery st1)
           then List.filter
                  (λ patient,
                     JsText.includes (toLowerCase (full_name patient))
                                     (toLowerCase (searchQuery st1))
                     || JsText.includes (toLowerCase (email patient))
                                        (toLowerCase (searchQuery st1)))
                  (patients st1)
           else patients st1)) as Htext.
  { destruct (JsText.truthy (searchQuery st1)); [|apply List_filter_sublist].
    apply List_filter_sublist_mono. intros p. rewrite !orb_true_iff.
    intros [H|H]; [left|right]; by eapply includes_lowered_query. }
  assert ((if JsText.truthy (searchQuery st2)
           then List.filter
                  (λ patient,
                     JsText.includes (toLowerCase (full_name patient))
                                     (toLowerCase (searchQuery st2))
                     || JsText.includes (toLowerCase (email patient))
                                        (toLowerCase (searchQuery st2)))
                  (patients st1)
           else patients st1)
          `sublist_of`
          (if JsText.truthy (searchQuery st1)
           then List.filter
                  (λ patient,
                     JsText.includes (toLowerCase (full_name patient))
                                     (toLowerCase (searchQuery st1))
                     || JsText.includes (toLowerCase (email patient))
                                        (toLowerCase (searchQuery st1)))
                  (patients st1)
           else patients st1)) as Hsub.
  { destruct (searchQuery st2) as [|u q2] eqn:E2; [|done].
    destruct Hq as (a & m & b & Hab & Hm).
    symmetry in Hab. apply app_eq_nil in Hab as [_ [-> _]%app_eq_nil].
    apply Forall2_nil_inv_l in Hm. by rewrite Hm. }
  destruct (negb _); [|done].
  by apply List_filter_sublist_of.
Qed.

End Narrowing.

Lemma filterPatients_narrowing_witness :
  let st1 := Sample.searchUtf16 "an" "all" in
  let st2 := Sample.searchUtf16 "Ann" "all" in
  (Engine.lowersLatin1 Sample.toLowerCase
   ∧ Notions.latin1 (PatientsScreenUtf16.searchQuery st1)
   ∧ Notions.latin1 (PatientsScreenUtf16.searchQuery st2)
   ∧ Notions.containsUpToCase (PatientsScreenUtf16.searchQuery st2)
                              (PatientsScreenUtf16.searchQuery st1))
  ∧ PatientsScreenUtf16.filteredPatients
      (finalState (PatientsScreenUtf16.filterPatients Sample.toLowerCase st2))
      `sublist_of`
    PatientsScreenUtf16.filteredPatients
      (finalState (PatientsScreenUtf16.filterPatients Sample.toLowerCase st1)).
Proof.
  assert (Notions.latin1 (JsString.widen "an")) as H1.
  { apply latin1_widen. by eexists. }
  assert (Notions.latin1 (JsString.widen "Ann")) as H2.
  { apply latin1_widen. by eexists. }
  assert (Notions.containsUpToCase (JsString.widen "Ann") (JsString.widen "an")) as Hq.
  { by apply includes_fold. }
  split; [split_and!; first [exact Sample_lowersLatin1 | done]|].
  apply (filterPatients_narrowing Sample.toLowerCase
           (Sample.searchUtf16 "an" "all") (Sample.searchUtf16 "Ann" "all")
           Sample_lowersLatin1 eq_refl eq_refl H1 H2 Hq).
Defined.

(** ** The patients screen: badges and the empty state *)

Section PatientCards.
Import Database PatientsScreen.


(** Upper-casing leaves no small ASCII letter behind. *)
Lemma upperUnit_not_lower c :
  Forall (λ u, ¬ (97 ≤ u ≤ 122)%N) (JsString.upperUnit c).
Proof.
  unfold JsString.upperUnit. cbv zeta.
  set (n := N_of_ascii c).
  destruct ((97 <=? n)%N && (n <=? 122)%N
            || (224 <=? n)%N && (n <=? 254)%N && negb (n =? 247)%N) eqn:H1.
  - apply Forall_singleton.
    apply orb_true_iff in H1 as [H1|H1]; rewrite !andb_true_iff in H1;
      rewrite ?N.leb_le in H1; lia.
  - apply orb_false_iff in H1 as [H1 _]. apply andb_false_iff in H1.
    rewrite !N.leb_gt in H1.
    destruct (N.eqb_spec n 181); [apply Forall_singleton; lia|].
    destruct (N.eqb_spec n 223); [repeat constructor; lia|].
    destruct (N.eqb_spec n 255); [apply Forall_singleton; lia|].
    apply Forall_singleton. lia.
Qed.

Lemma toUpperCase_not_lower s :
  Forall (λ u, ¬ (97 ≤ u ≤ 122)%N) (JsString.toUpperCase s).
Proof.
  induction s as [|c s IH]; simpl; [constructor|].
  apply Forall_app. split; [apply upperUnit_not_lower | done].
Qed.

Lemma toUpperCase_not_NoPlan s : JsString.toUpperCase s ≠ JsString.widen "No Plan".
Proof.
  intros H. pose proof (toUpperCase_not_lower s) as Hall. rewrite H in Hall.
  apply Forall_cons in Hall as [_ Hall]. apply Forall_cons in Hall as [Ho _].
  apply Ho. vm_compute. split; discriminate.
Qed.

Lemma getPatientStatus_NoPlan p :
  status (getPatientStatus p) = JsString.widen "No Plan" ↔
  surgery_plans p = None ∨ surgery_plans p = Some [].
Proof.
  unfold getPatientStatus. destruct (surgery_plans p) as [[|plan rest]|]; cbn [status].
  - split; [by right | done].
  - split; [by intros ?%toUpperCase_not_NoPlan | by intros [|]].
  - split; [by left | done].
Qed.

(** X9. The "With Plans" counter is the number of listed patients whose
    badge does not read "No Plan": a patient counts exactly when the
    embedded plan list is present and not empty, and no plan status,
    whatever its text, is turned into the badge "No Plan". *)
Theorem withPlans_counts_badges (l : list PatientWithPlan) :
  withPlans l
  = length (filter (λ p, status (getPatientStatus p) ≠ JsString.widen "No Plan") l).
Proof.
  unfold withPlans. f_equal. apply List_filter_decide. intros p.
  rewrite getPatientStatus_NoPlan.
  destruct (surgery_plans p) as [[|plan rest]|]; simpl; split; try done.
  - intros H. destruct H. by right.
  - intros _ [|]; done.
  - intros H. destruct H. by left.
Qed.

Lemma countUnit_app u a b :
  Notions.countUnit u (a ++ b) = Notions.countUnit u a + Notions.countUnit u b.
Proof. unfold Notions.countUnit. by rewrite filter_app, length_app. Qed.

Lemma countUnit_cons u x w :
  Notions.countUnit u (x :: w)
  = (if decide (x = u) then 1 else 0) + Notions.countUnit u w.
Proof. unfold Notions.countUnit. rewrite filter_cons. by case_decide. Qed.

(** Upper-casing neither makes nor removes an underscore or a hyphen. *)
Lemma countUnit_upperUnit u c :
  u = 95%N ∨ u = 45%N →
  Notions.countUnit u (JsString.upperUnit c)
  = if decide (N_of_ascii c = u) then 1 else 0.
Proof.
  intros Hu. unfold JsString.upperUnit. cbv zeta. set (n := N_of_ascii c).
  destruct ((97 <=? n)%N && (n <=? 122)%N
            || (224 <=? n)%N && (n <=? 254)%N && negb (n =? 247)%N) eqn:H1.
  - assert (n ≠ u ∧ (n - 32)%N ≠ u) as [? ?].
    { apply orb_true_iff in H1 as [H1|H1]; rewrite !andb_true_iff in H1;
        rewrite ?N.leb_le in H1; lia. }
    rewrite countUnit_cons. by rewrite !decide_False.
  - destruct (N.eqb_spec n 181) as [Hn|?].
    { rewrite countUnit_cons, !decide_False by lia. done. }
    destruct (N.eqb_spec n 223) as [Hn|?].
    { rewrite !countUnit_cons, !decide_False by lia. done. }
    destruct (N.eqb_spec n 255) as [Hn|?].
    { rewrite countUnit_cons, !decide_False by lia. done. }
    rewrite countUnit_cons. by case_decide.
Qed.

Lemma countUnit_toUpperCase u s :
  u = 95%N ∨ u = 45%N →
  Notions.countUnit u (JsString.toUpperCase s)
  = Notions.countUnit u (JsString.widen s).
Proof.
  intros Hu. induction s as [|c s IH]; [done|].
  cbn [JsString.toUpperCase]. rewrite countUnit_app, countUnit_upperUnit, IH by done.
  unfold JsString.widen. simpl. by rewrite countUnit_cons.
Qed.

(** Replacing a one-unit pattern by a one-unit text. *)
Lemma replace_unit s p r :
  JsString.replace s (String p "") (String r "") =
  match s with
  | "" => ""
  | String c s' =>
      if decide (c = p) then String r s'
      else String c (JsString.replace s' (String p "") (String r ""))
  end.
Proof.
  destruct s as [|c s']; [done|]. simpl.
  destruct (ascii_dec p c) as [->|Hne].
  - rewrite decide_True by done. by destruct s'.
  - by rewrite decide_False.
Qed.

Lemma N_of_ascii_inj c d : N_of_ascii c = N_of_ascii d → c = d.
Proof. intros H. by rewrite <- (ascii_N_embedding c), <- (ascii_N_embedding d), H. Qed.

(** Replacing the underscore by a hyphen takes one underscore away, the
    first, and adds one hyphen; a text without underscore is unchanged. *)
Lemma replace_underscore s :
  let k := Notions.countUnit 95 (JsString.widen s) in
  Notions.countUnit 95 (JsString.widen (JsString.replace s "_" "-")) = pred k
  ∧ Notions.countUnit 45 (JsString.widen (JsString.replace s "_" "-"))
    = Notions.countUnit 45 (JsString.widen s) + (if decide (k = 0) then 0 else 1)
  ∧ (k = 0 → JsString.replace s "_" "-" = s).
Proof.
  induction s as [|c s (IH1 & IH2 & IH3)]; [done|].
  cbv zeta in *. rewrite replace_unit. destruct (decide (c = "_"%char)) as [->|Hne].
  - rewrite !widen_cons, !countUnit_cons.
    change (N_of_ascii "_") with 95%N. change (N_of_ascii "-") with 45%N.
    repeat case_decide; try done; simpl; split_and!; first [lia | done].
  - assert (N_of_ascii c ≠ 95%N) as Hn.
    { intros H. apply Hne. by apply N_of_ascii_inj. }
    rewrite !widen_cons, !countUnit_cons, IH1, IH2.
    rewrite (decide_False (P := N_of_ascii c = 95%N)) by done.
    simpl. split_and!; [done|lia|]. intros Hk. by rewrite IH3.
Qed.

Lemma toUpperCase_app a b :
  JsString.toUpperCase (a +:+ b) = JsString.toUpperCase a ++ JsString.toUpperCase b.
Proof.
  induction a as [|c a IH]; [done|].
  rewrite append_String. cbn [JsString.toUpperCase]. by rewrite IH, app_assoc.
Qed.

(** The first underscore is the one replaced: what stands before it has
    none. *)
Lemma replace_first_underscore a b :
  Notions.countUnit 95 (JsString.widen a) = 0 →
  JsString.replace (a +:+ "_" +:+ b) "_" "-" = a +:+ "-" +:+ b.
Proof.
  induction a as [|c a IH]; intros Ha.
  - change ("" +:+ "_" +:+ b) with (String "_" b). rewrite replace_unit.
    by rewrite decide_True.
  - rewrite widen_cons, countUnit_cons in Ha.
    change (String c a +:+ "_" +:+ b) with (String c (a +:+ "_" +:+ b)).
    change (String c a +:+ "-" +:+ b) with (String c (a +:+ "-" +:+ b)).
    rewrite replace_unit.
    destruct (decide (c = "_"%char)) as [->|Hne].
    + by rewrite decide_True in Ha.
    + rewrite IH; [done|]. lia.
Qed.

(** A text with an underscore has a first one. *)
Lemma first_underscore s :
  Notions.countUnit 95 (JsString.widen s) ≠ 0 →
  ∃ a b, s = a +:+ "_" +:+ b ∧ Notions.countUnit 95 (JsString.widen a) = 0.
Proof.
  induction s as [|c s IH]; [done|]. intros Hs.
  destruct (decide (c = "_"%char)) as [->|Hne].
  - by exists "", s.
  - rewrite widen_cons, countUnit_cons in Hs.
    assert (N_of_ascii c ≠ 95%N) as Hn.
    { intros H. apply Hne. by apply N_of_ascii_inj. }
    rewrite decide_False in Hs by done.
    destruct (IH Hs) as (a & b & -> & Ha).
    exists (String c a), b. split; [done|].
    rewrite widen_cons, countUnit_cons, decide_False by done. done.
Qed.

(** X10. In the badge of a patient with plans the first underscore of
    the latest plan's status, and only that one, becomes a hyphen, and
    the text is put in capitals: a status without underscore is shown in
    capitals as it is; a status with one splits at its first underscore
    into what stands before and what stands after, and the label is the
    first part in capitals, a hyphen, and the second part in capitals,
    later underscores kept.  So the label has one underscore fewer than
    the status and one hyphen more. *)
Theorem patient_status_label patient plan rest :
  surgery_plans patient = Some (plan :: rest) →
  let label := status (getPatientStatus patient) in
  let k := Notions.countUnit 95 (JsString.widen (plan_status plan)) in
  (k = 0 → label = JsString.toUpperCase (plan_status plan))
  ∧ (k ≠ 0 →
     ∃ a b, plan_status plan = a +:+ "_" +:+ b
            ∧ Notions.countUnit 95 (JsString.widen a) = 0)
  ∧ (∀ a b, plan_status plan = a +:+ "_" +:+ b →
            Notions.countUnit 95 (JsString.widen a) = 0 →
            label = JsString.toUpperCase a ++ [45%N] ++ JsString.toUpperCase b)
  ∧ Notions.countUnit 95 label = pred k
  ∧ Notions.countUnit 45 label
    = Notions.countUnit 45 (JsString.widen (plan_status plan))
      + (if decide (k = 0) then 0 else 1).
Proof.
  intros Hp label k. subst label k. unfold getPatientStatus. rewrite Hp. cbn [status].
  destruct (replace_underscore (plan_status plan)) as (H1 & H2 & H3).
  split_and!.
  - intros Hk. by rewrite H3.
  - apply first_underscore.
  - intros a b -> Ha. rewrite replace_first_underscore by done.
    by rewrite !toUpperCase_app.
  - by rewrite countUnit_toUpperCase by auto.
  - by rewrite !countUnit_toUpperCase by auto.
Qed.

(** X11. Once the filter has run, the empty-state card with the text
    "Patients will appear here once they register" is shown exactly
    when no patient is loaded, the query is empty and the region choice
    is 'all'; the text "Try adjusting your search or filters" is shown
    exactly when nothing passes the filter and a query or a region is
    set; and exactly when something passes the filter the cards are
    shown, one per filtered patient, in order, each with that patient's
    badge. *)
Theorem patientsList_empty_state st :
  let st' := finalState (filterPatients st) in
  (patientsList st'
     = EmptyState "No patients found" "Patients will appear here once they register"
   ↔ patients st = [] ∧ searchQuery st = "" ∧ selectedRegion st = "all")
  ∧ (patientsList st'
     = EmptyState "No patients found" "Try adjusting your search or filters"
   ↔ filteredPatients st' = [] ∧ ¬ (searchQuery st = "" ∧ selectedRegion st = "all"))
  ∧ (patientsList st'
     = Cards ((λ patient, (patient, getPatientStatus patient)) <$> filteredPatients st')
   ↔ filteredPatients st' ≠ [])
  ∧ (∀ cards, patientsList st' = Cards cards →
       cards ≠ [] ∧ cards.*1 = filteredPatients st'
       ∧ length cards = length (filteredPatients st')
       ∧ ∀ card, card ∈ cards → card.2 = getPatientStatus card.1).
Proof.
  intros st'.
  assert (searchQuery st' = searchQuery st ∧ selectedRegion st' = selectedRegion st)
    as [Hq Hr] by done.
  assert (searchQuery st = "" → selectedRegion st = "all" →
          filteredPatients st' = patients st) as Hid.
  { intros Hq' Hr'. subst st'. rewrite filterPatients_run. cbv zeta.
    by rewrite Hq', Hr'. }
  assert ((if JsString.truthy (searchQuery st)
              || negb (String.eqb (selectedRegion st) "all")
           then "Try adjusting your search or filters"
           else "Patients will appear here once they register")
          = if decide (searchQuery st = "" ∧ selectedRegion st = "all")
            then "Patients will appear here once they register"
            else "Try adjusting your search or filters") as Hdesc.
  { destruct (JsString.truthy (searchQuery st)) eqn:Hq';
      destruct (String.eqb_spec (selectedRegion st) "all") as [Hr'|Hr']; cbn [orb negb];
      [apply truthy_spec in Hq' | apply truthy_spec in Hq'
      |apply truthy_false in Hq' | apply truthy_false in Hq'];
      case_decide; intuition congruence. }
  unfold patientsList. rewrite Hq, Hr, Hdesc.
  destruct (filteredPatients st') as [|p l] eqn:Hf; cbn [length Nat.ltb Nat.leb].
  - destruct (decide (searchQuery st = "" ∧ selectedRegion st = "all"))
      as [[Hq' Hr']|Hn]; (split; [|split; [|split]]); try done.
    + split; [|done]. intros _. split_and!; [|done..]. symmetry. by apply Hid.
    + split; [done | tauto].
    + split; [done | tauto].
  - split; [|split; [|split]].
    + split; [done|]. intros (Hp & Hq' & Hr'). pose proof (Hid Hq' Hr') as H.
      by rewrite Hp in H.
    + split; [done | by intros [? _]].
    + done.
    + intros cards Hc.
      assert (cards = (λ patient, (patient, getPatientStatus patient)) <$> (p :: l))
        as -> by (by injection Hc).
      split; [done|]. split; [|split].
      * rewrite <- list_fmap_compose. by rewrite list_fmap_id.
      * by rewrite length_fmap.
      * intros card (p' & -> & _)%list_elem_of_fmap. done.
Qed.

End PatientCards.

Lemma patient_status_label_witness :
  let patient := Sample.patientWithPlan "post_op" in
  PatientsScreen.surgery_plans patient = Some [Sample.plan "post_op"]
  ∧ PatientsScreen.status (PatientsScreen.getPatientStatus patient)
    = JsString.widen "POST-OP".
Proof.
  split; [reflexivity|].
  destruct (patient_status_label (Sample.patientWithPlan "post_op")
              (Sample.plan "post_op") [] eq_refl) as (_ & _ & Hlabel & _).
  exact (Hlabel "post" "op" eq_refl eq_refl).
Defined.

(** ** Lookup tables of the three screens *)

Section Tables.

Lemma get_absent (table : gmap string string) k :
  table !! k = None →
  JsObject.get table k
  = if existsb (String.eqb k) JsObject.prototypeNames
    then Some (JsObject.Member k) else None.
Proof. unfold JsObject.get. by intros ->. Qed.

Lemma existsb_eqb_elem_of (k : string) (S : list string) :
  existsb (String.eqb k) S = true ↔ k ∈ S.
Proof.
  rewrite existsb_exists. split.
  - intros (x & Hin & ->%String.eqb_eq). by apply list_elem_of_In.
  - intros Hin. exists k. split; [by apply list_elem_of_In | apply String.eqb_refl].
Qed.

(** A key outside a table is looked up on the prototype. *)
Lemma get_outside (table : gmap string string) (keys : list string) k :
  dom table = list_to_set keys → k ∉ keys →
  JsObject.get table k
  = if existsb (String.eqb k) JsObject.prototypeNames
    then Some (JsObject.Member k) else None.
Proof.
  intros Hdom Hk. apply get_absent, not_elem_of_dom.
  rewrite Hdom. by rewrite elem_of_list_to_set.
Qed.

(** X12. The badge of a patient card has the colour that the analytics
    chart gives to the status of the patient's latest plan, for every
    status text.  The timeline colours a status as the analytics screen
    does except for 'pre_op', which has its own colour there. *)
Theorem status_colours_across_screens patient plan rest :
  PatientsScreen.surgery_plans patient = Some (plan :: rest) →
  let status := Database.plan_status plan in
  PatientsScreen.color (PatientsScreen.getPatientStatus patient)
    = AnalyticsScreen.getStatusColor status
  ∧ (TimelineScreen.getStatusColor status = AnalyticsScreen.getStatusColor status
     ↔ status ≠ "pre_op").
Proof.
  intros Hp status. split.
  - unfold PatientsScreen.getPatientStatus. by rewrite Hp.
  - unfold TimelineScreen.getStatusColor, AnalyticsScreen.getStatusColor. cbv zeta.
    destruct (decide (status = "pre_op")) as [->|Hne].
    + split; [by vm_compute | done].
    + split; [done|]. intros _. unfold JsObject.get.
      destruct (decide (status = "planning")) as [->|H1]; [done|].
      rewrite !(lookup_insert_ne _ "planning") by done.
      rewrite !(lookup_insert_ne _ "pre_op") by done.
      done.
Qed.

(** X13. The patients screen and the analytics screen name a region
    alike.  'AU', 'NZ' and 'TH' are named Australia, New Zealand and
    Thailand; a code that is none of these and not the name of a member
    of Object.prototype is shown as it is, the empty code included; for
    the name of such a member the lookup yields the member and not a
    text. *)
Theorem region_names (region : string) :
  PatientsScreen.getRegionName region = AnalyticsScreen.getRegionName region
  ∧ (region ∉ ["AU"; "NZ"; "TH"] → region ∉ JsObject.prototypeNames →
     AnalyticsScreen.getRegionName region = JsObject.Str region)
  ∧ (region ∈ JsObject.prototypeNames →
     AnalyticsScreen.getRegionName region = JsObject.Member region)
  ∧ AnalyticsScreen.getRegionName "AU" = JsObject.Str "Australia"
  ∧ AnalyticsScreen.getRegionName "NZ" = JsObject.Str "New Zealand"
  ∧ AnalyticsScreen.getRegionName "TH" = JsObject.Str "Thailand".
Proof.
  split; [reflexivity|]. split; [|split; [|by vm_compute]].
  - intros Hk Hp. unfold AnalyticsScreen.getRegionName. cbv zeta.
    rewrite (get_outside _ ["AU"; "NZ"; "TH"]) by (done || by vm_compute).
    apply (not_iff_compat (existsb_eqb_elem_of region JsObject.prototypeNames)) in Hp.
    apply not_true_is_false in Hp. rewrite Hp. cbn. by destruct region.
  - intros Hp. unfold AnalyticsScreen.getRegionName. cbv zeta.
    rewrite (get_outside _ ["AU"; "NZ"; "TH"]).
    + apply existsb_eqb_elem_of in Hp. by rewrite Hp.
    + by vm_compute.
    + intros Hk. apply existsb_eqb_elem_of in Hp.
      repeat (apply elem_of_cons in Hk as [->|Hk]); try (by vm_compute in Hp).
      by apply elem_of_nil in Hk.
Qed.

(** X21. On the timeline the phase label falls back to "Unknown Phase"
    exactly when the status colour falls back to gray: for every status
    that is none of planning, pre_op, surgery, post_op and completed and
    not the name of a member of Object.prototype.  For the name of such
    a member the label lookup yields the member and not a text. *)
Theorem phase_fallback (status : string) :
  let known := ["planning"; "pre_op"; "surgery"; "post_op"; "completed"] in
  let fallback := (status ∉ known) ∧ (status ∉ JsObject.prototypeNames) in
  (TimelineScreen.getPhaseLabel status = JsObject.Str "Unknown Phase" ↔ fallback)
  ∧ (TimelineScreen.getStatusColor status = JsObject.Str "#9ca3af" ↔ fallback)
  ∧ (status ∈ JsObject.prototypeNames ↔
     TimelineScreen.getPhaseLabel status = JsObject.Member status).
Proof.
  intros known fallback. subst fallback.
  destruct (decide (status ∈ known)) as [Hin|Hout].
  - assert (¬ ((status ∉ known) ∧ (status ∉ JsObject.prototypeNames))) as Hno by tauto.
    subst known. repeat (apply elem_of_cons in Hin as [->|Hin]);
      [..|by apply elem_of_nil in Hin];
      (split; [|split]);
      (split; [intros H; try (by vm_compute in H);
               apply existsb_eqb_elem_of in H; by vm_compute in H
              |intros H; try done; by vm_compute in H]).
  - unfold TimelineScreen.getPhaseLabel, TimelineScreen.getStatusColor. cbv zeta.
    rewrite !(get_outside _ known) by (done || by vm_compute).
    rewrite <- (existsb_eqb_elem_of status JsObject.prototypeNames).
    destruct (existsb (String.eqb status) JsObject.prototypeNames);
      cbn [JsObject.orElse].
    + split_and!; split; try done; by intros [_ ?].
    + split_and!; split; try done.
Qed.

End Tables.

Lemma status_colours_witness :
  let patient := Sample.patientWithPlan "pre_op" in
  PatientsScreen.surgery_plans patient = Some [Sample.plan "pre_op"]
  ∧ PatientsScreen.color (PatientsScreen.getPatientStatus patient)
    = AnalyticsScreen.getStatusColor "pre_op".
Proof.
  split; [reflexivity|].
  by destruct (status_colours_across_screens (Sample.patientWithPlan "pre_op")
                 (Sample.plan "pre_op") [] eq_refl) as [Hsame _].
Defined.

(** ** The analytics screen: arrival order, chart rows and counters *)

Lemma firstSeen_snoc l k :
  Notions.firstSeen (l ++ [k])
  = if decide (k ∈ l) then Notions.firstSeen l else Notions.firstSeen l ++ [k].
Proof.
  induction l as [|x l IH]; [done|].
  simpl. rewrite IH. destruct (decide (k = x)) as [->|Hne].
  - rewrite (decide_True (P := x ∈ x :: l)) by (by left).
    case_decide; [done|]. rewrite filter_app, filter_cons, decide_False by auto.
    by rewrite filter_nil, app_nil_r.
  - destruct (decide (k ∈ l)) as [Hin|Hin].
    + by rewrite decide_True by (by right).
    + rewrite decide_False by (by intros [?|?]%elem_of_cons).
      rewrite filter_app, filter_cons, decide_True by done. done.
Qed.

Section ChartRows.
Import AnalyticsScreen.
Context {A : Type} (keyOf : A → string).

Lemma groupCount_firstSeen rows :
  key <$> groupCount keyOf rows = Notions.firstSeen (keyOf <$> rows).
Proof.
  induction rows as [|row rows IH] using rev_ind; [done|].
  rewrite groupCount_snoc, keys_countInto, fmap_app.
  change (keyOf <$> [row]) with [keyOf row]. rewrite firstSeen_snoc, <- IH.
  destruct (decide (keyOf row ∈ key <$> groupCount keyOf rows)) as [Hin|Hin].
  - rewrite decide_True; [done|]. by apply groupCount_keys.
  - rewrite decide_False; [done|]. by rewrite <- groupCount_keys.
Qed.

Lemma recordedIn_countInto (S : list string) acc k :
  sum_list_with count (filter (λ it, key it ∈ S) (countInto acc k))
  = sum_list_with count (filter (λ it, key it ∈ S) acc)
    + (if decide (k ∈ S) then 1 else 0).
Proof.
  destruct (countInto_cases acc k) as [(l1 & e & l2 & -> & Hk & ->)|[_ ->]].
  - rewrite !filter_app, !filter_cons. simpl. rewrite Hk.
    case_decide; rewrite !sum_list_with_app; simpl; lia.
  - rewrite filter_app, filter_cons, filter_nil. simpl.
    case_decide; rewrite ?sum_list_with_app; simpl; lia.
Qed.

(** The counts recorded for a set of keys add up to the number of rows
    with a key in the set. *)
Lemma groupCount_recordedIn (S : list string) rows :
  sum_list_with count (filter (λ it, key it ∈ S) (groupCount keyOf rows))
  = length (filter (λ row, keyOf row ∈ S) rows).
Proof.
  induction rows as [|row rows IH] using rev_ind; [done|].
  rewrite groupCount_snoc, recordedIn_countInto, IH, filter_app, length_app.
  rewrite filter_cons, filter_nil. by case_decide.
Qed.

End ChartRows.

Section AnalyticsLoad.
Import Database AnalyticsScreen.
Variable parseDate : string → JsDate.Date.
Variable toLocaleMonth : JsDate.Date → string.

(** Updates of different loaders write different fields. *)
Lemma settle_comm prev a b :
  loaderOf a ≠ loaderOf b →
  settle parseDate toLocaleMonth (settle parseDate toLocaleMonth prev a) b
  = settle parseDate toLocaleMonth (settle parseDate toLocaleMonth prev b) a.
Proof.
  intros Hne.
  destruct a as [ca|[da|]|na [da|]|[da|]|[da|]], b as [cb|[db|]|nb [db|]|[db|]|[db|]];
    try done; reflexivity.
Qed.

(** X14. The analytics shown once the loaders have answered do not
    depend on the order in which the answers arrive: when every loader
    answers at most once, as in one run of loadAnalytics, any two
    orders of the same answers leave the same analytics, from every
    previous state. *)
Theorem loadAnalytics_arrival_order arrivals1 arrivals2 :
  arrivals1 ≡ₚ arrivals2 →
  NoDup (loaderOf <$> arrivals1) →
  ∀ prev, loadAnalytics parseDate toLocaleMonth arrivals1 prev
          = loadAnalytics parseDate toLocaleMonth arrivals2 prev.
Proof.
  unfold loadAnalytics.
  induction 1 as [|x l l' Hp IH|x y l|l l' l'' Hp1 IH1 Hp2 IH2]; intros Hnd prev.
  - done.
  - simpl. apply IH. by apply NoDup_cons in Hnd as [_ ?].
  - simpl. f_equal. apply settle_comm.
    rewrite !fmap_cons in Hnd. apply NoDup_cons in Hnd as [Hnotin _].
    intros Heq. apply Hnotin. rewrite Heq. by left.
  - rewrite IH1 by done. apply IH2. by rewrite <- Hp1.
Qed.

(** X15. The rows of each chart come in the order in which their key is
    first met in the fetched rows: the statuses, the regions and the
    months are listed by first appearance, each once. *)
Theorem chart_rows_first_seen
    (plans : list SurgeryPlan) (patients registrations : list Profile)
    (prev : AnalyticsData) :
  let monthOf p := toLocaleMonth (parseDate (profile_created_at p)) in
  key <$> plansByStatus (loadPlanStats (Some plans) prev)
    = Notions.firstSeen (plan_status <$> plans)
  ∧ key <$> patientsByRegion (loadRegionStats (Some patients) prev)
    = Notions.firstSeen (profile_region <$> patients)
  ∧ key <$> monthlyRegistrations
              (loadMonthlyStats parseDate toLocaleMonth (Some registrations) prev)
    = Notions.firstSeen (monthOf <$> registrations).
Proof.
  intros monthOf. split_and!; apply groupCount_firstSeen.
Qed.

End AnalyticsLoad.

Section AnalyticsCounters.
Import Database AnalyticsScreen.
Variable parseDate : string → JsDate.Date.
Variable now : Z.

(** X16. The "Active Plans" metric is the sum of the chart's counts for
    the statuses planning, pre_op, surgery and post_op; it never exceeds
    the number of fetched plans. *)
Theorem activePlans_chart plans prev :
  let st := loadPlanStats (Some plans) prev in
  let active := ["planning"; "pre_op"; "surgery"; "post_op"] in
  activePlans st
  = sum_list_with count (filter (λ it, key it ∈ active) (plansByStatus st))
  ∧ activePlans st ≤ length plans.
Proof.
  intros st active. subst st. cbn [loadPlanStats activePlans plansByStatus].
  rewrite groupCount_recordedIn. split.
  - f_equal. apply List_filter_decide. intros p. apply existsb_eqb_elem_of.
  - apply List.filter_length_le.
Qed.

(** X17. No task is counted twice: completed and overdue tasks together
    are at most all tasks, and they are all tasks exactly when every
    task that is not completed has a valid due date before the clock
    reading.  The overdue counter is zero exactly when no uncompleted
    task has such a date; a task whose due date does not parse is never
    overdue. *)
Theorem taskStats_counts tasks prev :
  let st := loadTaskStats parseDate now (Some tasks) prev in
  let overdue t := ∃ due, parseDate (task_due_date t) = Some due ∧ (due < now)%Z in
  completedTasks st + overdueTasks st ≤ length tasks
  ∧ (completedTasks st + overdueTasks st = length tasks ↔
     ∀ t, t ∈ tasks → task_completed t = false → overdue t)
  ∧ (overdueTasks st = 0 ↔ ∀ t, t ∈ tasks → task_completed t = false → ¬ overdue t).
Proof.
  intros st overdue. subst st. cbn [loadTaskStats completedTasks overdueTasks].
  assert (∀ t, JsDate.lt (parseDate (task_due_date t)) (JsDate.current now) = true
               ↔ overdue t) as Hov by (intros t; apply Date_lt_spec).
  clearbody overdue.
  induction tasks as [|t tasks (IH1 & [IH2a IH2b] & [IH3a IH3b])].
  - split_and!; [done| |]; split; try done; by intros _ t ?%elem_of_nil.
  - cbn [List.filter length]. specialize (Hov t).
    destruct (task_completed t) eqn:Hc; cbn [negb andb length].
    + split; [lia|]. split.
      * rewrite Nat.add_succ_l. split.
        -- intros [= H]. intros t' [->|?]%elem_of_cons; [congruence|auto].
        -- intros H. f_equal. apply IH2b. intros t' ?. apply H. by right.
      * split.
        -- intros H t' [->|?]%elem_of_cons; [congruence|auto].
        -- intros H. apply IH3b. intros t' ?. apply H. by right.
    + destruct (JsDate.lt _ _) eqn:Hlt; cbn [length].
      * split; [lia|]. split.
        -- rewrite Nat.add_succ_r. split.
           ++ intros [= H].
              intros t' [->|?]%elem_of_cons; [intros _; by apply Hov|auto].
           ++ intros H. f_equal. apply IH2b. intros t' ?. apply H. by right.
        -- split; [done|]. intros H. exfalso. apply (H t); [by left|done|by apply Hov].
      * split; [lia|]. split.
        -- split; [lia|]. intros H. exfalso.
           assert (overdue t) as Ho by (apply H; [by left | done]).
           apply Hov in Ho. congruence.
        -- split.
           ++ intros H t' [->|?]%elem_of_cons; [|auto].
              intros _ Ho. apply Hov in Ho. congruence.
           ++ intros H. apply IH3b. intros t' ?. apply H. by right.
Qed.

Lemma roundedPercentage_range (c t : nat) :
  0 < t → c ≤ t →
  (0 ≤ Spec.roundedPercentage c t ≤ 100)%Z
  ∧ (Spec.halfwayPercentage c t → 1 ≤ Spec.roundedPercentage c t)%Z
  ∧ (c = t → Spec.roundedPercentage c t = 100%Z ∧ ¬ Spec.halfwayPercentage c t)
  ∧ (c = 0 → Spec.roundedPercentage c t = 0%Z ∧ ¬ Spec.halfwayPercentage c t).
Proof.
  intros Ht Hc. unfold Spec.roundedPercentage, Spec.halfwayPercentage.
  set (C := Z.of_nat c). set (T := Z.of_nat t).
  assert (0 < T)%Z by lia. assert (0 ≤ C ≤ T)%Z by lia.
  split; [|split; [|split]].
  - split.
    + apply Z.div_pos; lia.
    + assert ((200 * C + T) / (2 * T) < 101)%Z; [|lia].
      apply Z.div_lt_upper_bound; lia.
  - intros Hh. apply Z.div_le_lower_bound; [lia|].
    pose proof (Z.mod_le (200 * C) (2 * T) ltac:(lia) ltac:(lia)). lia.
  - intros Heq. assert (C = T) as -> by lia. split.
    + symmetry. apply (Z.div_unique_pos _ _ _ T); lia.
    + replace (200 * T)%Z with (100 * (2 * T))%Z by lia.
      rewrite Z.mod_mul by lia. lia.
  - intros Heq. assert (C = 0%Z) as -> by lia. split.
    + apply Z.div_small. lia.
    + rewrite Z.mul_0_r, Z.mod_0_l by lia. lia.
Qed.

Lemma completed_all (tasks : list RecoveryTask) (b : bool) :
  (∀ t, t ∈ tasks → task_completed t = b) →
  length (List.filter (λ t, task_completed t) tasks) = if b then length tasks else 0.
Proof.
  induction tasks as [|t tasks IH]; intros Hall; [by destruct b|].
  simpl. rewrite (Hall t) by (by left).
  destruct b; simpl; rewrite IH; try done; intros t' ?; apply Hall; by right.
Qed.

(** X18. For fewer than 2^32 tasks the completion rate, which is also
    the width of the progress bar in percent, is a whole number from 0
    to 100.  It is 100 when there are tasks and all are completed, and 0
    when no task is completed, the empty list included. *)
Theorem taskCompletionRate_range tasks prev :
  (Z.of_nat (length tasks) < 2 ^ 32)%Z →
  let rate := taskCompletionRate (loadTaskStats parseDate now (Some tasks) prev) in
  (∃ n, (0 ≤ n ≤ 100)%Z ∧ rate = JsNumber.ofZ n)
  ∧ (tasks ≠ [] → (∀ t, t ∈ tasks → task_completed t = true) →
     rate = JsNumber.ofZ 100)
  ∧ ((∀ t, t ∈ tasks → task_completed t = false) → rate = JsNumber.ofZ 0).
Proof.
  intros Hsmall rate. subst rate. rewrite taskCompletionRate_run.
  destruct (Nat.ltb_spec 0 (length tasks)) as [Hpos|Hzero].
  - set (c := length (List.filter (λ t, task_completed t) tasks)).
    assert (c ≤ length tasks) as Hc by apply List.filter_length_le.
    destruct (doubleRate_general c (length tasks) Hpos Hsmall Hc) as [Hn Hh].
    destruct (roundedPercentage_range c (length tasks) Hpos Hc)
      as (Hrange & Hone & Hall & Hnone).
    split_and!.
    + destruct (Z.eq_dec ((200 * Z.of_nat c) mod (2 * Z.of_nat (length tasks)))%Z
                         (Z.of_nat (length tasks))) as [Hhalf|Hhalf].
      * destruct (Hh Hhalf) as [-> | ->]; eexists; (split; [|done]);
          specialize (Hone Hhalf); lia.
      * rewrite (Hn Hhalf). eexists. by split.
    + intros _ Hdone. destruct Hall as [HE Hnh].
      { subst c. by rewrite (completed_all tasks true). }
      by rewrite (Hn Hnh), HE.
    + intros Hdone. destruct Hnone as [HE Hnh].
      { subst c. by rewrite (completed_all tasks false). }
      by rewrite (Hn Hnh), HE.
  - split_and!.
    + exists 0%Z. split; [lia | done].
    + intros Hne. destruct tasks; [done | simpl in Hzero; lia].
    + done.
Qed.

End AnalyticsCounters.

Lemma loadAnalytics_arrival_order_witness :
  let first := [AnalyticsScreen.PatientStats (Some 3);
                AnalyticsScreen.TaskStats 0 (Some Sample.fortyTasks)] in
  let second := [AnalyticsScreen.TaskStats 0 (Some Sample.fortyTasks);
                 AnalyticsScreen.PatientStats (Some 3)] in
  first ≡ₚ second
  ∧ AnalyticsScreen.loadAnalytics Sample.parseDate Sample.toLocaleMonth first
      AnalyticsScreen.initialAnalytics
    = AnalyticsScreen.loadAnalytics Sample.parseDate Sample.toLocaleMonth second
        AnalyticsScreen.initialAnalytics.
Proof.
  split; [apply perm_swap|].
  apply (loadAnalytics_arrival_order Sample.parseDate Sample.toLocaleMonth
           [AnalyticsScreen.PatientStats (Some 3);
            AnalyticsScreen.TaskStats 0 (Some Sample.fortyTasks)]).
  - apply perm_swap.
  - apply NoDup_cons. split; [by intros ?%list_elem_of_singleton|].
    apply NoDup_singleton.
Defined.

Lemma taskCompletionRate_range_witness :
  let rate := AnalyticsScreen.taskCompletionRate
                (AnalyticsScreen.loadTaskStats Sample.parseDate 0
                   (Some Sample.fortyTasks) AnalyticsScreen.initialAnalytics) in
  (Z.of_nat (length Sample.fortyTasks) < 2 ^ 32)%Z
  ∧ ∃ n, (0 ≤ n ≤ 100)%Z ∧ rate = JsNumber.ofZ n.
Proof.
  split; [reflexivity|].
  by destruct (taskCompletionRate_range Sample.parseDate 0 Sample.fortyTasks
                 AnalyticsScreen.initialAnalytics eq_refl) as [Hrange _].
Defined.

(** ** The timeline screen: connectors, icons and badges *)

Section TimelineItems.
Import Database TimelineScreen.
Variable parseDate : string → JsDate.Date.
Variable formatDate : string → string.

Lemma timelineItems_lookup clock recoveryTasks index :
  timelineItems parseDate formatDate clock recoveryTasks !! index
  = (λ task, timelineItem parseDate formatDate (length recoveryTasks)
               (clock index).1 (clock index).2 index task)
    <$> recoveryTasks !! index.
Proof. unfold timelineItems. by rewrite list_lookup_imap. Qed.

(** X19. The timeline has one item per recovery task, in the order of
    the tasks, carrying the task's id, title and formatted due date.
    Every item but the last has a connector to the next one, drawn in
    the completed style exactly when its own task is completed; the
    last item has none. *)
Theorem timeline_connectors clock recoveryTasks :
  let items := timelineItems parseDate formatDate clock recoveryTasks in
  length items = length recoveryTasks
  ∧ ∀ index item, items !! index = Some item →
      ∃ task, recoveryTasks !! index = Some task
        ∧ itemKey item = task_id task
        ∧ timelineTitle item = task_title task
        ∧ timelineDate item = formatDate (task_due_date task)
        ∧ connector item
          = if decide (S index = length recoveryTasks) then None
            else Some (task_completed task).
Proof.
  intros items. subst items. split.
  - unfold timelineItems. apply length_imap.
  - intros index item. rewrite timelineItems_lookup.
    destruct (recoveryTasks !! index) as [task|] eqn:Hi; [|done].
    intros [= <-]. exists task. split_and!; [done..|].
    cbn [connector timelineItem]. apply lookup_lt_Some in Hi.
    destruct (Nat.ltb_spec index (length recoveryTasks - 1)); case_decide; try done; lia.
Qed.

(** X20. The icon and the badge of an item each read the clock, the
    icon first.  With a clock that does not run backwards they agree on
    completed tasks, an alert icon always comes with the badge
    "Overdue" and the badge "Pending" always with the plain circle; the
    one way to disagree is a plain circle beside "Overdue", exactly when
    an uncompleted task falls due between the two readings. *)
Theorem timeline_icon_badge clock recoveryTasks index item :
  ((clock index).1 ≤ (clock index).2)%Z →
  timelineItems parseDate formatDate clock recoveryTasks !! index = Some item →
  let shape := icon (statusIcon item) in
  let label := text (badge item) in
  (shape = "CheckCircle" ↔ label = "Completed")
  ∧ (shape = "AlertCircle" → label = "Overdue")
  ∧ (label = "Pending" → shape = "Circle")
  ∧ (shape = "Circle" ∧ label = "Overdue" ↔
     ∃ task due,
       recoveryTasks !! index = Some task ∧ task_completed task = false
       ∧ parseDate (task_due_date task) = Some due
       ∧ ((clock index).1 ≤ due < (clock index).2)%Z).
Proof.
  intros Hclock. rewrite timelineItems_lookup.
  destruct (recoveryTasks !! index) as [task|] eqn:Hi; [|done].
  intros [= <-] shape label. subst shape label.
  cbn [statusIcon badge timelineItem]. unfold getTaskStatusIcon, taskBadge.
  unfold JsDate.lt, JsDate.current.
  destruct (task_completed task) eqn:Hc.
  - cbn [icon text]. split_and!; try done.
    split; [by intros [? _]|]. intros (t & due & Ht & ? & _). congruence.
  - destruct (parseDate (task_due_date task)) as [due|] eqn:Hd.
    + destruct (Z.ltb_spec due (clock index).1), (Z.ltb_spec due (clock index).2);
        cbn [icon text]; (split_and!; try done; try lia);
        split; try (by intros [? ?]);
        try (intros (t & due' & Ht & _ & Hd' & ?); injection Ht as <-;
             rewrite Hd in Hd'; injection Hd' as <-; lia).
      intros _. exists task, due. split_and!; try done; lia.
    + cbn [icon text]. split_and!; try done.
      split; [by intros [? ?]|]. intros (t & due & Ht & _ & ? & _). congruence.
Qed.

End TimelineItems.

Lemma timeline_icon_badge_witness :
  let task := Sample.task false "2025-01-10T00:00:00Z" in
  let item := TimelineScreen.timelineItem Sample.parseDate id 1
                1736899200000 1736899200000 0 task in
  TimelineScreen.timelineItems Sample.parseDate id Sample.clock [task] !! 0
    = Some item
  ∧ (TimelineScreen.icon (TimelineScreen.statusIcon item) = "AlertCircle" →
     TimelineScreen.text (TimelineScreen.badge item) = "Overdue").
Proof.
  split; [reflexivity|].
  by destruct (timeline_icon_badge Sample.parseDate id Sample.clock
                 [Sample.task false "2025-01-10T00:00:00Z"] 0
                 (TimelineScreen.timelineItem Sample.parseDate id 1
                    1736899200000 1736899200000 0
                    (Sample.task false "2025-01-10T00:00:00Z")))
    as (_ & Halert & _); [reflexivity | reflexivity |].
Defined.

(** ** The timeline screen: loading and the first render *)

Section TimelineLoading.
Import Database Supabase TimelineScreen Notions.
Variable user : option string.
Variable plansAnswer : Answer SurgeryPlan.
Variable tasksAnswer : string → Answer RecoveryTask.
Variable documentsAnswer : Answer Document.

Ltac answers :=
  unfold loadData, loadSurgeryPlan, loadDocuments, loadRecoveryTasks;
  destruct user as [u|];
    [destruct (rowsOrThrow plansAnswer) as [[[|plan rest]|]|] eqn:Hplans;
     destruct (rowsOrThrow documentsAnswer) as [docs|] eqn:Hdocs;
     try destruct (rowsOrThrow (tasksAnswer (plan_id plan))) as [tasks|] eqn:Htasks
    |];
  cbn [orb fst snd loading refreshing surgeryPlan recoveryTasks documents error
       setLoading setRefreshing setSurgeryPlan setRecoveryTasks setDocuments setError].

Ltac failing :=
  unfold timelineLoadFails, planFound, fails;
  first [ by intros [_ [?|[?|(? & [_ [? ?]] & ?)]]]; simplify_eq
        | by intros [[] _]
        | intros Hno; exfalso; apply Hno; (split; [by eexists|]);
          first [ by left | by right; left
                | right; right; eexists; split; [split; by eexists | done] ] ].

Lemma loadData_error st :
  let st' := loadData user plansAnswer tasksAnswer documentsAnswer st in
  let failed := timelineLoadFails user plansAnswer tasksAnswer documentsAnswer in
  (failed ∧
   error st' = Some "Failed to load your timeline data. Please try again later.")
  ∨ (¬ failed ∧ error st' = None).
Proof.
  intros st' failed. subst st' failed.
  answers;
    first [ right; split; [failing | done]
          | left; split; [|done];
            unfold timelineLoadFails, planFound, fails; (split; [by eexists|]);
            first [ by left | by right; left
                  | right; right; eexists; split; [split; by eexists | done] ] ].
Qed.


Lemma loadData_plan st :
  let st' := loadData user plansAnswer tasksAnswer documentsAnswer st in
  loading st' = false
  ∧ ((∃ plan, planFound user plansAnswer plan ∧ surgeryPlan st' = Some plan)
     ∨ ((∀ plan, ¬ planFound user plansAnswer plan)
        ∧ surgeryPlan st' = surgeryPlan st ∧ recoveryTasks st' = recoveryTasks st)).
Proof.
  intros st'. subst st'. unfold planFound.
  answers; (split; [done|]);
    first [ left; eexists; split; [split; by eexists | done]
          | right; split; [|done]; intros p [Hu [r Hr]]; simplify_eq;
            by apply is_Some_None in Hu ].
Qed.

(** X23. A load of the timeline never removes the plan shown.  When the
    plans query finds a plan, that plan is shown, with the tasks the
    tasks query returns for its id, or with the tasks shown before when
    that query fails; when it finds none (no user, no rows, or a failed
    query) the plan and the tasks stay as they were.  The documents are
    replaced exactly when there is a user and the documents query
    succeeds. *)
Theorem timeline_load_keeps st :
  let st' := loadData user plansAnswer tasksAnswer documentsAnswer st in
  (is_Some (surgeryPlan st) → is_Some (surgeryPlan st'))
  ∧ (∀ plan, planFound user plansAnswer plan →
       surgeryPlan st' = Some plan
       ∧ recoveryTasks st'
         = match rowsOrThrow (tasksAnswer (plan_id plan)) with
           | Some data => default [] data
           | None => recoveryTasks st
           end)
  ∧ ((∀ plan, ¬ planFound user plansAnswer plan) →
     surgeryPlan st' = surgeryPlan st ∧ recoveryTasks st' = recoveryTasks st)
  ∧ (documents st'
     = match user, rowsOrThrow documentsAnswer with
       | Some _, Some data => default [] data
       | _, _ => documents st
       end).
Proof.
  intros st'. subst st'. unfold planFound.
  answers; (split; [done|]); (split; [|split; [|done]]).
  all: try (by intros ? [_ [? [=]]]).
  all: try (by intros ? [[? [=]] _]).
  all: try (intros p [_ [r [= <- <-]]]; by rewrite ?Htasks).
  all: try done.
  all: intros Hno; destruct (Hno plan); split; by eexists.
Qed.

(** X24. After the first load the screen shows the scroll view, not the
    spinner.  It has the error card, with the fixed text, exactly when the
    load failed; the "No Surgery Plan Yet" card exactly when the load did
    not fail and found no plan; and the card of a plan exactly when the
    plans query found that plan. *)
Theorem timeline_first_render :
  let st' := loadData user plansAnswer tasksAnswer documentsAnswer initialState in
  let failed := timelineLoadFails user plansAnswer tasksAnswer documentsAnswer in
  ∃ cards,
    render st' = ScrollView cards
    ∧ (∀ m, ErrorCard m ∈ cards ↔
            m = "Failed to load your timeline data. Please try again later." ∧ failed)
    ∧ (EmptyStateCard ∈ cards ↔
       ¬ failed ∧ ∀ plan, ¬ planFound user plansAnswer plan)
    ∧ (∀ plan, SurgeryPlanCard plan ∈ cards ↔ planFound user plansAnswer plan).
Proof.
  intros st' failed.
  destruct (loadData_plan initialState) as [Hloading Hplan].
  destruct (loadData_error initialState) as [[Hf He]|[Hf He]];
    fold st' failed in Hloading, Hplan, Hf, He; unfold render, hasError;
    rewrite Hloading, He; cbn [from_option JsString.truthy default negb andb app];
    destruct Hplan as [(plan & Hfound & Hp)|(Hnone & Hp & Ht)]; rewrite Hp;
    cbn [surgeryPlan initialState];
    rewrite ?bool_decide_eq_true_2 by (by eexists);
    rewrite ?bool_decide_eq_false_2 by (by intros [? ?]);
    cbn [negb andb app id]; eexists; (split; [reflexivity|]).
  all: split; [intros m; rewrite ?elem_of_cons, ?elem_of_nil; split;
               [intros H; repeat (destruct H as [H|H]); by simplify_eq
               |intros [-> H]; try done; by left]|].
  all: split; [rewrite ?elem_of_cons, ?elem_of_nil; split;
               [intros H; repeat (destruct H as [H|H]); by simplify_eq
               |intros [H1 H2]; try done; try (by destruct (H2 plan)); by left]|].
  all: intros p; rewrite ?elem_of_cons, ?elem_of_nil; split;
       [intros H; repeat (destruct H as [H|H]); by simplify_eq
       |intros H; try (by destruct (Hnone p));
        destruct Hfound as [_ [r Hr]], H as [_ [r' Hr']];
        rewrite Hr in Hr'; injection Hr' as -> _; auto].
Qed.

End TimelineLoading.

(** ** The patients screen: reloading *)

Section PatientsLoading.
Import Database Supabase PatientsScreen.
Variable answer : Answer PatientWithPlan.


End PatientsLoading.

(** ** The test screen: verdicts of the patient checks *)

Section PatientRLSFacts.
Import Database Supabase TestAuthScreen.

Lemma length_other_rows {A} (owner : A → string) (id : string) (rows : list A) :
  (0 <? length (List.filter (λ row, negb (String.eqb (owner row) id)) rows))
  = bool_decide (Exists (λ row, owner row ≠ id) rows).
Proof.
  induction rows as [|row rows IH]; [done|]. cbn [List.filter].
  destruct (String.eqb_spec (owner row) id) as [Heq|Hne]; cbn [negb].
  - rewrite IH. apply bool_decide_ext. rewrite Exists_cons. tauto.
  - cbn [length]. symmetry. apply bool_decide_eq_true. by left.
Qed.

Section Run.
Variable user : option string.
Variable role : option string.
Variable ownProfileAnswer : Single Profile.
Variable allProfilesAnswer : Answer Profile.
Variable documentsAnswer : Answer Document.
Variable surgeryPlansAnswer : Answer SurgeryPlan.

Lemma addTestResult_app r prev new :
  addTestResult r (prev ++ new) = prev ++ addTestResult r new.
Proof. unfold addTestResult. by rewrite app_assoc. Qed.

Lemma caught_app m prev new : caught m (prev ++ new) = prev ++ caught m new.
Proof. apply addTestResult_app. Qed.

Lemma plansCheck_app id prev new :
  plansCheck role surgeryPlansAnswer id (prev ++ new)
  = prev ++ plansCheck role surgeryPlansAnswer id new.
Proof.
  unfold plansCheck. destruct surgeryPlansAnswer as [plans e|m];
    [|apply caught_app].
  destruct (isPatient role); [|done].
  destruct (0 <? _); apply addTestResult_app.
Qed.

Lemma documentsCheck_app id prev new :
  documentsCheck role documentsAnswer surgeryPlansAnswer id (prev ++ new)
  = prev ++ documentsCheck role documentsAnswer surgeryPlansAnswer id new.
Proof.
  unfold documentsCheck. destruct documentsAnswer as [docs e|m];
    [|apply caught_app].
  destruct (isPatient role); [|apply plansCheck_app].
  destruct (0 <? _); rewrite addTestResult_app; apply plansCheck_app.
Qed.

Lemma profilesCheck_app id prev new :
  profilesCheck role allProfilesAnswer documentsAnswer surgeryPlansAnswer id
    (prev ++ new)
  = prev ++ profilesCheck role allProfilesAnswer documentsAnswer
              surgeryPlansAnswer id new.
Proof.
  unfold profilesCheck. destruct (isPatient role); [|apply documentsCheck_app].
  destruct allProfilesAnswer as [[rows|] e|m];
    [| apply documentsCheck_app | apply caught_app].
  destruct (1 <? _); [rewrite addTestResult_app; apply documentsCheck_app|].
  destruct (_ =? 1); [rewrite addTestResult_app|]; apply documentsCheck_app.
Qed.

(** The test only adds to the list of results. *)
Lemma testPatientRLS_app prev :
  testPatientRLS user role ownProfileAnswer allProfilesAnswer documentsAnswer
    surgeryPlansAnswer prev
  = prev ++ testPatientRLS user role ownProfileAnswer allProfilesAnswer
              documentsAnswer surgeryPlansAnswer [].
Proof.
  assert (∀ r, addTestResult r prev = prev ++ addTestResult r []) as Hadd.
  { intros r. by rewrite <- addTestResult_app, app_nil_r. }
  unfold testPatientRLS. destruct user as [id|]; [|apply Hadd]. cbv zeta.
  rewrite Hadd. destruct ownProfileAnswer as [own e|m].
  - destruct (_ || _); rewrite addTestResult_app; apply profilesCheck_app.
  - apply caught_app.
Qed.

End Run.

Ltac run_checks :=
  unfold testPatientRLS, profilesCheck, documentsCheck, plansCheck, caught,
    addTestResult, isPatient;
  cbv zeta; rewrite ?length_other_rows.

Ltac read_verdicts := unfold Notions.verdicts; cbn; try reflexivity.

(** X26. For a signed-in patient whose queries all resolve, the test
    adds exactly one verdict on documents and one on surgery plans: fail
    when some row returned belongs to another patient, pass otherwise (a
    null answer passes).  Errors carried by the answers are not looked
    at, and no "Patient RLS" failure is recorded. *)
Theorem patientRLS_rows_verdicts
    id own profileError allProfiles profilesError
    documents documentsError plans plansError prev :
  let results :=
    testPatientRLS (Some id) (Some "patient") (ResolvesOne own profileError)
      (Resolves allProfiles profilesError) (Resolves documents documentsError)
      (Resolves plans plansError) prev in
  let foreignDocument :=
    Exists (λ doc, doc_patient_id doc ≠ id) (default [] documents) in
  let foreignPlan :=
    Exists (λ plan, plan_patient_id plan ≠ id) (default [] plans) in
  ∃ new,
    results = prev ++ new
    ∧ Notions.verdicts "Documents RLS" new
      = [if decide foreignDocument then fail else pass]
    ∧ Notions.verdicts "Surgery Plans RLS" new
      = [if decide foreignPlan then fail else pass]
    ∧ fail ∉ Notions.verdicts "Patient RLS" new.
Proof.
  intros results foreignDocument foreignPlan. subst results.
  eexists. split; [apply testPatientRLS_app|].
  subst foreignDocument foreignPlan. run_checks.
  rewrite (bool_decide_eq_true_2 (Some "patient" = Some "patient")) by done.
  destruct (decide (Exists _ (default [] documents))) as [Hd|Hd];
    [rewrite (bool_decide_eq_true_2 _ Hd) | rewrite (bool_decide_eq_false_2 _ Hd)];
    (destruct (decide (Exists _ (default [] plans))) as [Hp|Hp];
     [rewrite (bool_decide_eq_true_2 _ Hp) | rewrite (bool_decide_eq_false_2 _ Hp)]);
    destruct (_ || _);
    (destruct allProfiles as [rows|];
     [destruct (1 <? length rows); [|destruct (length rows =? 1)]|]);
    (split; [read_verdicts|]); (split; [read_verdicts|]);
    read_verdicts; by intros ?%list_elem_of_singleton.
Qed.

(** X27. For a signed-in patient the verdict on other profiles is fail
    for two or more rows, pass for exactly one row, and missing for no
    rows or a null answer. *)
Theorem patientRLS_profiles_verdict
    id own profileError allProfiles profilesError
    (documentsAnswer : Answer Document) (surgeryPlansAnswer : Answer SurgeryPlan)
    prev :
  let results :=
    testPatientRLS (Some id) (Some "patient") (ResolvesOne own profileError)
      (Resolves allProfiles profilesError) documentsAnswer surgeryPlansAnswer
      prev in
  let n := length (default [] allProfiles) in
  ∃ new,
    results = prev ++ new
    ∧ (2 ≤ n → Notions.verdicts "Read Other Profiles" new = [fail])
    ∧ (n = 1 → Notions.verdicts "Read Other Profiles" new = [pass])
    ∧ (n = 0 → Notions.verdicts "Read Other Profiles" new = []).
Proof.
  intros results n. subst results n.
  eexists. split; [apply testPatientRLS_app|]. run_checks.
  rewrite (bool_decide_eq_true_2 (Some "patient" = Some "patient")) by done.
  assert (∀ rows : list Profile,
            (1 <? length rows) = bool_decide (2 ≤ length rows)
            ∧ (length rows =? 1) = bool_decide (length rows = 1)) as Hlen.
  { intros rows. split.
    - destruct (Nat.ltb_spec 1 (length rows));
        [by rewrite bool_decide_eq_true_2 by lia
        |by rewrite bool_decide_eq_false_2 by lia].
    - destruct (Nat.eqb_spec (length rows) 1);
        [by rewrite bool_decide_eq_true_2 | by rewrite bool_decide_eq_false_2]. }
  destruct documentsAnswer as [docs ?|?], surgeryPlansAnswer as [plans ?|?];
    rewrite ?length_other_rows;
    try destruct (bool_decide (Exists _ (default [] docs)));
    try destruct (bool_decide (Exists _ (default [] plans)));
    destruct (_ || _);
    (destruct allProfiles as [rows|]; cbn [default length Datatypes.id];
     [destruct (Hlen rows) as [-> ->];
      destruct (decide (2 ≤ length rows)) as [H2|H2];
      [rewrite (bool_decide_eq_true_2 _ H2)
      |rewrite (bool_decide_eq_false_2 _ H2);
       destruct (decide (length rows = 1)) as [H1|H1];
       [rewrite (bool_decide_eq_true_2 _ H1) | rewrite (bool_decide_eq_false_2 _ H1)]]
     |]);
    (split; [intros ?|split; intros ?]); first [lia | read_verdicts].
Qed.

(** X28. When the profile loaded is not a patient's, the profiles query
    is not looked at and no row check is recorded: the test adds the
    pending line, the verdict on reading the own profile (pass exactly
    when the answer has a row and no error), and a "Patient RLS" failure
    only when the documents or plans query is rejected. *)
Theorem patientRLS_other_roles
    id role own profileError
    (allProfilesAnswer : Answer Profile)
    (documentsAnswer : Answer Document) (surgeryPlansAnswer : Answer SurgeryPlan)
    prev :
  role ≠ Some "patient" →
  let results :=
    testPatientRLS (Some id) role (ResolvesOne own profileError)
      allProfilesAnswer documentsAnswer surgeryPlansAnswer prev in
  let rejection :=
    match documentsAnswer, surgeryPlansAnswer with
    | Rejects m, _ => Some m
    | Resolves _ _, Rejects m => Some m
    | Resolves _ _, Resolves _ _ => None
    end in
  ∃ ownVerdict,
    results
    = prev
      ++ [result "Patient RLS" pending "Testing patient data access...";
          ownVerdict]
      ++ from_option
           (λ m, [result "Patient RLS" fail
                         ("RLS test failed: " +:+ default "undefined" m)])
           [] rejection
    ∧ test ownVerdict = "Read Own Profile"
    ∧ (status ownVerdict = pass ↔ profileError = None ∧ is_Some own).
Proof.
  intros Hrole results rejection. subst results rejection.
  rewrite testPatientRLS_app. run_checks.
  rewrite (bool_decide_eq_false_2 (role = Some "patient")) by done.
  destruct profileError as [e|], own as [o|];
    rewrite ?(bool_decide_eq_true_2 (is_Some (Some _))) by (by eexists);
    rewrite ?(bool_decide_eq_false_2 (is_Some None)) by (by intros [? ?]);
    cbn [orb negb];
    eexists; (split;
      [destruct documentsAnswer as [docs ?|?], surgeryPlansAnswer as [plans ?|?];
       reflexivity|]);
    (split; [reflexivity|]); cbn [status result]; split; try done;
    try (by intros [? ?]); try (by intros [_ [? ?]]).
Qed.

End PatientRLSFacts.

Lemma patientRLS_other_roles_witness :
  Some "nurse" ≠ Some "patient"
  ∧ ∃ ownVerdict,
      TestAuthScreen.testPatientRLS (Some "u1") (Some "nurse")
        (Supabase.ResolvesOne None None) (Supabase.Resolves None None)
        (Supabase.Rejects (Some "offline")) (Supabase.Resolves None None) []
      = [TestAuthScreen.result "Patient RLS" TestAuthScreen.pending
           "Testing patient data access...";
         ownVerdict;
         TestAuthScreen.result "Patient RLS" TestAuthScreen.fail
           "RLS test failed: offline"]
      ∧ TestAuthScreen.test ownVerdict = "Read Own Profile"
      ∧ (TestAuthScreen.status ownVerdict = TestAuthScreen.pass
         ↔ @None string = None ∧ is_Some (@None Database.Profile)).
Proof.
  split; [done|].
  apply (patientRLS_other_roles "u1" (Some "nurse") None None
           (Supabase.Resolves None None) (Supabase.Rejects (Some "offline"))
           (Supabase.Resolves None None) []).
  done.
Defined.

(** ** The timeline screen: refreshing again *)

Section TimelineRefresh.
Import Database Supabase TimelineScreen Notions.
Variable user : option string.
Variable plansAnswer : Answer SurgeryPlan.
Variable tasksAnswer : string → Answer RecoveryTask.
Variable documentsAnswer : Answer Document.

(** X29. A second pull-to-refresh of the timeline that gets the same
    answers as the first leaves the screen as the first left it, whatever
    was shown before and whichever queries fail. *)
Theorem timeline_refresh_again st :
  let refresh := onRefresh user plansAnswer tasksAnswer documentsAnswer in
  refresh (refresh st) = refresh st.
Proof.
  intros refresh. subst refresh.
  unfold onRefresh, loadData, loadSurgeryPlan, loadDocuments, loadRecoveryTasks.
  destruct user as [u|];
    [destruct (rowsOrThrow plansAnswer) as [[[|plan rest]|]|];
     destruct (rowsOrThrow documentsAnswer) as [docs|];
     try destruct (rowsOrThrow (tasksAnswer (plan_id plan))) as [tasks|]
    |]; reflexivity.
Qed.
End TimelineRefresh.
